(** * fluent-ffmpeg-simplified: argument lowering, command builder and
      stream bridge

    A shallow embedding of [src/ffmpeg.ts] (the [FFmpegCommand] builder and
    [filtersToString]) and of the stream wrapper ([NamedPipeStream],
    [StreamInput], [StreamOutput]), together with the part of the JavaScript
    runtime these files rely on: numbers, strings, truthiness, arrays and
    the [net.Server] acceptor. *)

From Stdlib Require Import ZArith List String Ascii Bool Lia.
From Stdlib Require Import Sorting.Sorted Sorting.Permutation.
From Stdlib Require Import Numbers.DecimalString.
Import ListNotations.

Local Open Scope string_scope.
Local Open Scope Z_scope.
Local Open Scope list_scope.

(** Thrown JavaScript errors: a method either returns or throws
    [new Error(msg)]. *)
Inductive result (A : Type) : Type :=
| Ok (a : A)
| Throw (msg : string).
Arguments Ok {A} a.
Arguments Throw {A} msg.

Definition bind {A B} (r : result A) (k : A -> result B) : result B :=
  match r with
  | Ok a => k a
  | Throw msg => Throw msg
  end.

Notation "x <- r ;; k" := (bind r (fun x => k))
  (at level 61, r at next level, right associativity).

(** String concatenation, written apart from list concatenation. *)
Infix "+++" := String.append (at level 60, right associativity).

(** * The JavaScript runtime *)
Module JS.

(** ** Numbers

    A JavaScript number is an IEEE-754 binary64 value: [NaN], one of the
    two infinities, or a finite value.  Every finite binary64 value has a
    finite decimal expansion, and the embedding writes it as the exact
    decimal [m * 10^e].  What the language computes is rounded to the
    nearest binary64 value, the even one of two that are equally near
    ([binary64]): the value of decimal text, a difference, a quotient.
    The two zeros are one value here: the program tests numbers for
    truthiness and order and prints them, and the zeros agree on all
    three. *)
Inductive number : Type :=
| NaN
| Infinity (negative : bool)
| Fin (m e : Z).

Definition of_Z (z : Z) : number := Fin z 0.
Definition of_nat (n : nat) : number := Fin (Z.of_nat n) 0.

(** [m * 10^e] expressed in units of [10^e0], for [e0 <= e]. *)
Definition scale (m e e0 : Z) : Z := m * 10 ^ (e - e0).

(** ToBoolean on a number: false for 0 and NaN. *)
Definition num_truthy (x : number) : bool :=
  match x with
  | NaN => false
  | Infinity _ => true
  | Fin m _ => negb (m =? 0)
  end.

Definition isNaN (x : number) : bool :=
  match x with NaN => true | _ => false end.

Definition isFinite (x : number) : bool :=
  match x with Fin _ _ => true | _ => false end.

(** [x < y]; every comparison with NaN is false. *)
Definition num_ltb (x y : number) : bool :=
  match x, y with
  | NaN, _ | _, NaN => false
  | Infinity true, Infinity true => false
  | Infinity true, _ => true
  | _, Infinity true => false
  | Infinity false, _ => false
  | _, Infinity false => true
  | Fin m1 e1, Fin m2 e2 =>
      let e0 := Z.min e1 e2 in scale m1 e1 e0 <? scale m2 e2 e0
  end.

(** [x > y] and [x <= y]. *)
Definition num_gtb (x y : number) : bool := num_ltb y x.

Definition num_leb (x y : number) : bool :=
  match x, y with
  | NaN, _ | _, NaN => false
  | _, _ => negb (num_ltb y x)
  end.

(** The same value; NaN is no value. *)
Definition num_eqb (x y : number) : bool :=
  match x, y with
  | Infinity s1, Infinity s2 => Bool.eqb s1 s2
  | Fin m1 e1, Fin m2 e2 =>
      let e0 := Z.min e1 e2 in scale m1 e1 e0 =? scale m2 e2 e0
  | _, _ => false
  end.

(** *** Rounding to binary64

    A positive value [n / d] lies in a binade [2^l <= n / d < 2^(l+1)];
    its binary64 neighbours are the multiples of [2^x] with [x = l - 52],
    and of [2^-1074] below the normal range. *)

(** The integer part of the binary logarithm of [n / d]. *)
Definition log2_ratio (n d : Z) : Z :=
  let l := Z.log2 n - Z.log2 d in
  if (if 0 <=? l then d * 2 ^ l <=? n else d <=? n * 2 ^ (- l))
  then l else l - 1.

(** The integer nearest to [n / d], the even one of two that are equally
    near. *)
Definition round_half_even (n d : Z) : Z :=
  let q := n / d in
  let r := n mod d in
  if (d <? 2 * r) || ((d =? 2 * r) && Z.odd q) then q + 1 else q.

(** How often 2 divides a positive integer. *)
Fixpoint trailing_zeros (p : positive) : Z :=
  match p with
  | xO p' => 1 + trailing_zeros p'
  | _ => 0
  end.

Definition ctz (z : Z) : Z :=
  match z with
  | Zpos p => trailing_zeros p
  | _ => 0
  end.

(** [q * 2^x], for [0 < q], as a decimal: an integer gets the exponent 0,
    any other value a significand that does not end in 0. *)
Definition dyadic (negative : bool) (q x : Z) : number :=
  let t := if x <? 0 then Z.min (ctz q) (- x) else 0 in
  let q := q / 2 ^ t in
  let x := x + t in
  let m := if 0 <=? x then q * 2 ^ x else q * 5 ^ (- x) in
  Fin (if negative then - m else m) (Z.min x 0).

(** The Number value for [m * 10^e]: the nearest binary64 value; an
    infinity from [2^1024] on, zero when the nearest multiple of
    [2^-1074] is zero. *)
Definition binary64 (m e : Z) : number :=
  if m =? 0 then Fin 0 0
  else
    let a := Z.abs m in
    let n := if 0 <=? e then a * 10 ^ e else a in
    let d := if 0 <=? e then 1 else 10 ^ (- e) in
    let x := Z.max (log2_ratio n d - 52) (-1074) in
    let q := if 0 <=? x then round_half_even n (d * 2 ^ x)
             else round_half_even (n * 2 ^ (- x)) d in
    if q =? 0 then Fin 0 0
    else if (0 <=? x) && (2 ^ 1024 <=? q * 2 ^ x) then Infinity (m <? 0)
    else dyadic (m <? 0) q x.

(** [x - y]. *)
Definition num_sub (x y : number) : number :=
  match x, y with
  | NaN, _ | _, NaN => NaN
  | Infinity s1, Infinity s2 => if Bool.eqb s1 s2 then NaN else Infinity s1
  | Infinity s, Fin _ _ => Infinity s
  | Fin _ _, Infinity s => Infinity (negb s)
  | Fin m1 e1, Fin m2 e2 =>
      let e0 := Z.min e1 e2 in
      binary64 (scale m1 e1 e0 - scale m2 e2 e0) e0
  end.

(** [x / 100]. *)
Definition num_div100 (x : number) : number :=
  match x with
  | Fin m e => binary64 m (e - 2)
  | _ => x
  end.

(** ToIntegerOrInfinity: NaN becomes 0, a finite number is truncated
    towards zero. *)
Inductive integerOrInfinity : Type :=
| IInf (negative : bool)
| IInt (z : Z).

Definition ToIntegerOrInfinity (x : number) : integerOrInfinity :=
  match x with
  | NaN => IInt 0
  | Infinity s => IInf s
  | Fin m e => IInt (if 0 <=? e then m * 10 ^ e else Z.quot m (10 ^ (- e)))
  end.

(** ** Strings

    A string is a sequence of code units; the embedding covers the code
    units below 256. *)

Definition str_truthy (s : string) : bool :=
  match s with EmptyString => false | _ => true end.

Fixpoint repeat_char (c : ascii) (n : nat) : string :=
  match n with
  | O => EmptyString
  | S n' => String c (repeat_char c n')
  end.

Fixpoint str_rev_onto (s acc : string) : string :=
  match s with
  | EmptyString => acc
  | String c r => str_rev_onto r (String c acc)
  end.

Definition str_rev (s : string) : string := str_rev_onto s EmptyString.

Fixpoint drop_while (p : ascii -> bool) (s : string) : string :=
  match s with
  | EmptyString => EmptyString
  | String c r => if p c then drop_while p r else s
  end.

Fixpoint take_while (p : ascii -> bool) (s : string) : string :=
  match s with
  | EmptyString => EmptyString
  | String c r => if p c then String c (take_while p r) else EmptyString
  end.

Fixpoint str_take (n : nat) (s : string) : string :=
  match n, s with
  | S n', String c r => String c (str_take n' r)
  | _, _ => EmptyString
  end.

Fixpoint str_drop (n : nat) (s : string) : string :=
  match n, s with
  | S n', String _ r => str_drop n' r
  | _, _ => s
  end.

(** [s.endsWith(c)] for a one-character search string. *)
Fixpoint endsWith (s : string) (c : ascii) : bool :=
  match s with
  | EmptyString => false
  | String a EmptyString => Ascii.eqb a c
  | String _ r => endsWith r c
  end.

(** [s.substring(0, s.length - 1)]. *)
Definition substring_but_last (s : string) : string :=
  str_take (Nat.pred (String.length s)) s.

(** [s.split(sep)] for a one-character separator: never empty. *)
Fixpoint split (sep : ascii) (s : string) : list string :=
  match s with
  | EmptyString => [EmptyString]
  | String c r =>
      if Ascii.eqb c sep then EmptyString :: split sep r
      else match split sep r with
           | h :: t => String c h :: t
           | [] => [String c EmptyString]
           end
  end.

(** [arr.join(sep)]. *)
Fixpoint join (sep : string) (l : list string) : string :=
  match l with
  | [] => EmptyString
  | [s] => s
  | s :: r => s +++ sep +++ join sep r
  end.

(** Decimal digits of a non-negative integer. *)
Definition digits (z : Z) : string :=
  NilZero.string_of_uint (N.to_uint (Z.to_N z)).

Definition is_char (c : ascii) (a : ascii) : bool := Ascii.eqb a c.

(** Number::toString in radix 10 prints the shortest digits that denote
    the number: integers [n], [k] and [s] with [k >= 1],
    [10^(k-1) <= s < 10^k] and [s * 10^(n-k)] having the Number value [x],
    [k] as small as possible and, among several [s], the one nearest to
    [x].  For [k] digits the candidates are the two multiples of
    [10^u], [u = n - k], that enclose [a * 10^e]; 17 digits tell any two
    binary64 values apart. *)
Fixpoint shortest_from (fuel : nat) (k : Z) (x : number) (a e nd : Z)
  : Z * Z :=
  match fuel with
  | O => (a, e)
  | S fuel' =>
      let u := nd + e - k in
      if u <=? e then (a, e)
      else
        let p := 10 ^ (u - e) in
        let lo := a / p in
        let r := a mod p in
        let hi := lo + 1 in
        let ok_lo := (0 <? lo) && num_eqb (binary64 lo u) x in
        let ok_hi := num_eqb (binary64 hi u) x in
        if ok_lo && ok_hi then
          if 2 * r <? p then (lo, u)
          else if p <? 2 * r then (hi, u)
          else if Z.even lo then (lo, u) else (hi, u)
        else if ok_lo then (lo, u)
        else if ok_hi then (hi, u)
        else shortest_from fuel' (k + 1) x a e nd
  end.

(** The digits and the exponent, [(s, u)] for [s * 10^u], that print the
    positive value [a * 10^e]. *)
Definition shortest (a e : Z) : Z * Z :=
  shortest_from 17 1 (Fin a e) a e (Z.of_nat (String.length (digits a))).

(** With [ds] the digits without trailing zeros, [k] their count and [n]
    the position of the decimal point, the four layouts of the language
    definition follow. *)
Definition num_toString (x : number) : string :=
  match x with
  | NaN => "NaN"
  | Infinity false => "Infinity"
  | Infinity true => "-Infinity"
  | Fin m e =>
      if m =? 0 then "0"
      else
        let sign := if m <? 0 then "-" else EmptyString in
        let '(s, u) := shortest (Z.abs m) e in
        let ds0 := digits s in
        let ds := str_rev (drop_while (is_char "0") (str_rev ds0)) in
        let k := Z.of_nat (String.length ds) in
        let n := Z.of_nat (String.length ds0) + u in
        let body :=
          if (k <=? n) && (n <=? 21) then
            ds +++ repeat_char "0" (Z.to_nat (n - k))
          else if (0 <? n) && (n <=? 21) then
            str_take (Z.to_nat n) ds +++ "." +++ str_drop (Z.to_nat n) ds
          else if (-6 <? n) && (n <=? 0) then
            "0." +++ repeat_char "0" (Z.to_nat (- n)) +++ ds
          else
            let ex := n - 1 in
            let es := (if ex <? 0 then "-" else "+") +++ digits (Z.abs ex) in
            match ds with
            | String c EmptyString => String c ("e" +++ es)
            | String c r => String c ("." +++ r +++ "e" +++ es)
            | EmptyString => EmptyString
            end
        in sign +++ body
  end.

(** ** Text to number *)

Definition is_digit (c : ascii) : bool :=
  let n := nat_of_ascii c in (48 <=? n)%nat && (n <=? 57)%nat.

(** White space and line terminators among the code units below 256. *)
Definition is_space (c : ascii) : bool :=
  let n := nat_of_ascii c in
  ((9 <=? n)%nat && (n <=? 13)%nat) || (n =? 32)%nat || (n =? 160)%nat.

Definition hex_value (c : ascii) : option Z :=
  let n := nat_of_ascii c in
  if (48 <=? n)%nat && (n <=? 57)%nat then Some (Z.of_nat n - 48)
  else if (97 <=? n)%nat && (n <=? 102)%nat then Some (Z.of_nat n - 87)
  else if (65 <=? n)%nat && (n <=? 70)%nat then Some (Z.of_nat n - 55)
  else None.

Definition is_hex (c : ascii) : bool :=
  match hex_value c with Some _ => true | None => false end.

(** Value of a digit string in the given radix, most significant first. *)
Fixpoint digits_value (radix : Z) (acc : Z) (s : string) : Z :=
  match s with
  | EmptyString => acc
  | String c r =>
      digits_value radix
        (acc * radix + match hex_value c with Some d => d | None => 0 end) r
  end.

(** An optional sign: whether it is "-" and the rest of the text. *)
Definition read_sign (s : string) : bool * string :=
  match s with
  | String "-" r => (true, r)
  | String "+" r => (false, r)
  | _ => (false, s)
  end.

Definition starts_with (p s : string) : bool := String.prefix p s.

(** [Number.parseInt(s)] without a radix: white space, a sign, an
    optional [0x]/[0X] prefix selecting radix 16, then the longest run of
    digits.  No digit gives NaN; trailing text is ignored; the integer
    the digits denote is rounded to binary64. *)
Definition parseInt (s : string) : number :=
  let '(neg, t) := read_sign (drop_while is_space s) in
  let '(radix, t) :=
    match t with
    | String "0" (String "x" r) | String "0" (String "X" r) => (16, r)
    | _ => (10, t)
    end in
  let ds := take_while (if radix =? 16 then is_hex else is_digit) t in
  match ds with
  | EmptyString => NaN
  | _ =>
      let v := digits_value radix 0 ds in
      binary64 (if neg then - v else v) 0
  end.

(** The exponent part of a decimal literal: [e] or [E], an optional sign
    and at least one digit; anything else is not part of the number. *)
Definition read_exponent (s : string) : Z :=
  match s with
  | String "e" r | String "E" r =>
      let '(neg, t) := read_sign r in
      match take_while is_digit t with
      | EmptyString => 0
      | ds => let v := digits_value 10 0 ds in if neg then - v else v
      end
  | _ => 0
  end.

(** [Number.parseFloat(s)]: white space, a sign, then [Infinity] or the
    longest prefix that is a decimal literal ([digits], [digits.],
    [digits.digits], [.digits], each with an optional exponent).  No such
    prefix gives NaN; trailing text is ignored; the decimal the prefix
    denotes is rounded to binary64. *)
Definition parseFloat (s : string) : number :=
  let '(neg, t) := read_sign (drop_while is_space s) in
  if starts_with "Infinity" t then Infinity neg
  else
    let ip := take_while is_digit t in
    let r1 := drop_while is_digit t in
    let '(fp, r2) :=
      match r1 with
      | String "." r => (take_while is_digit r, drop_while is_digit r)
      | _ => (EmptyString, r1)
      end in
    match ip +++ fp with
    | EmptyString => NaN
    | ds =>
        let v := digits_value 10 0 ds in
        binary64 (if neg then - v else v)
                 (read_exponent r2 - Z.of_nat (String.length fp))
    end.

(** ** Values that are a number or a string: [Time] and [Bitrate] *)
Inductive value : Type :=
| VNum (n : number)
| VStr (s : string).

Definition truthy (v : value) : bool :=
  match v with
  | VNum n => num_truthy n
  | VStr s => str_truthy s
  end.

(** [v.toString()], also the conversion of a template literal. *)
Definition toString (v : value) : string :=
  match v with
  | VNum n => num_toString n
  | VStr s => s
  end.

(** ** Values of unknown type

    A value whose type the program does not know is only ever converted
    to a string, by a template literal.  The embedding covers the values
    whose conversion returns: the primitive values other than symbols,
    arrays of such values, and objects that inherit [toString] from
    [Object.prototype]. *)
#[local] Unset Elimination Schemes.
Inductive unknown : Type :=
| UUndefined
| UNull
| UBool (b : bool)
| UNum (n : number)
| UStr (s : string)
| UArray (elements : list unknown)
| UObject.
#[local] Set Elimination Schemes.

(** ToString.  An array is joined by commas, [undefined] and [null]
    elements giving the empty string. *)
Fixpoint String_of (v : unknown) : string :=
  match v with
  | UUndefined => "undefined"
  | UNull => "null"
  | UBool true => "true"
  | UBool false => "false"
  | UNum n => num_toString n
  | UStr s => s
  | UArray elements =>
      join ","
        (map (fun el => match el with
                        | UUndefined | UNull => EmptyString
                        | _ => String_of el
                        end) elements)
  | UObject => "[object Object]"
  end.

(** ** Objects with string keys

    An object is given by the property definitions of its literal, in
    source order.  Its own properties are kept in the order of their
    creation: defining a key again replaces the value and keeps the
    place. *)
Fixpoint define_property (k : string) (v : unknown)
  (o : list (string * unknown)) : list (string * unknown) :=
  match o with
  | [] => [(k, v)]
  | (k', v') :: r =>
      if String.eqb k k' then (k, v) :: r
      else (k', v') :: define_property k v r
  end.

Definition object_literal (props : list (string * unknown))
  : list (string * unknown) :=
  fold_left (fun o kv => define_property (fst kv) (snd kv) o) props [].

(** Every code unit of a string satisfies a test. *)
Fixpoint str_forall (p : ascii -> bool) (s : string) : bool :=
  match s with
  | EmptyString => true
  | String c r => p c && str_forall p r
  end.

(** An array index: the canonical decimal text of an integer from 0 to
    [2^32 - 2]. *)
Definition array_index (k : string) : option Z :=
  match k with
  | EmptyString => None
  | String c r =>
      if str_forall is_digit k
         && (negb (Ascii.eqb c "0") || negb (str_truthy r))
      then
        let i := digits_value 10 0 k in
        if i <? 2 ^ 32 - 1 then Some i else None
      else None
  end.

Fixpoint insert_index (i : Z) (kv : string * unknown)
  (l : list (Z * (string * unknown))) : list (Z * (string * unknown)) :=
  match l with
  | [] => [(i, kv)]
  | (j, x) :: r =>
      if i <? j then (i, kv) :: l else (j, x) :: insert_index i kv r
  end.

Definition named_key (kv : string * unknown) : bool :=
  match array_index (fst kv) with
  | Some _ => false
  | None => true
  end.

(** [Object.entries(o)]: the properties whose key is an array index, in
    ascending order of the index, then the others in the order of their
    creation. *)
Definition Object_entries (o : list (string * unknown))
  : list (string * unknown) :=
  let indexed :=
    fold_left
      (fun acc kv =>
         match array_index (fst kv) with
         | Some i => insert_index i kv acc
         | None => acc
         end) o [] in
  map snd indexed ++ filter named_key o.

(** ** Arrays *)

(** [arr.at(-1)]: the last element, [undefined] on an empty array. *)
Fixpoint at_last {A} (l : list A) : option A :=
  match l with
  | [] => None
  | [x] => Some x
  | _ :: t => at_last t
  end.

(** Assignment through the reference returned by [arr.at(-1)]: the last
    element of the array itself changes. *)
Fixpoint update_last {A} (f : A -> A) (l : list A) : list A :=
  match l with
  | [] => []
  | [x] => [f x]
  | x :: t => x :: update_last f t
  end.

(** [arr.slice(start)]: a negative relative index counts from the end,
    and the index is clamped to the array. *)
Definition slice {A} (l : list A) (start : number) : list A :=
  let len := Z.of_nat (List.length l) in
  let k :=
    match ToIntegerOrInfinity start with
    | IInf true => 0
    | IInf false => len
    | IInt r => if r <? 0 then Z.max (len + r) 0 else Z.min r len
    end in
  skipn (Z.to_nat k) l.

End JS.


(** * The stream wrapper: [NamedPipeStream], [StreamInput], [StreamOutput]

    The wrapper runs against Node's [net], [fs] and [crypto] modules and
    against stream objects.  Their state is kept in a [World]; the closures
    the wrapper hands to Node are first-order values that the world stores
    and applies when the matching event is delivered.

    Of a [net.Server] the embedding keeps what Node documents: the
    connection listener runs for every peer that connects while the server
    listens (there is no limit unless [maxConnections] is set, and the
    wrapper sets none); [close()] stops the server from accepting; and
    [close()] on a server that does not listen reports
    [ERR_SERVER_NOT_RUNNING] to its callback only, so without a callback it
    does nothing.

    The file system of the embedding is one in which the process may
    remove what it finds at the socket path and may bind the path once it
    is free: an entry that cannot be unlinked and a bind that fails are
    outside of it. *)
Module Bridge.

Definition stream_id := nat.
Definition socket_id := nat.

(** [process.platform === "win32"] or not. *)
Inductive Platform : Type := Win32 | Posix.

(** The second argument of [pipe]: [{ end?: boolean }]. *)
Record PipeOptions : Type := { pipe_end : option bool }.

(** The connection listeners of the wrapper:
    [sock => stream.pipe(sock)] and [sock => sock.pipe(stream, pipeArgs)]. *)
Inductive connectionListener : Type :=
| StreamToSocket (stream : stream_id)
| SocketToStream (stream : stream_id) (pipeArgs : option PipeOptions).

(** The listener the constructor registers on the stream's [close] event:
    [() => { this._server.close(); }]. *)
Inductive closeListener : Type :=
| CloseServer (server : nat).

(** A [net.Server]: its connection listener and, while it listens, the
    address its handle is bound to. *)
Record Server : Type := {
  onConnection : option connectionListener;
  handle : option string
}.

(** An established relay, as [pipe] sets it up. *)
Inductive Pipe : Type :=
| FromStream (stream : stream_id) (sock : socket_id)
| FromSocket (sock : socket_id) (stream : stream_id)
             (pipeArgs : option PipeOptions).

Record World : Type := {
  platform : Platform;
  uuids : nat -> string;           (* successive results of randomUUID() *)
  uuid_next : nat;
  files : list string;             (* paths that exist *)
  servers : list Server;           (* server objects, in creation order *)
  closeListeners : list (stream_id * closeListener);
  accepted : list (nat * socket_id);  (* connections handed to a listener *)
  pipes : list Pipe
}.

Definition set_servers (l : list Server) (w : World) : World :=
  {| platform := platform w; uuids := uuids w; uuid_next := uuid_next w;
     files := files w; servers := l; closeListeners := closeListeners w;
     accepted := accepted w; pipes := pipes w |}.

Definition set_files (l : list string) (w : World) : World :=
  {| platform := platform w; uuids := uuids w; uuid_next := uuid_next w;
     files := l; servers := servers w; closeListeners := closeListeners w;
     accepted := accepted w; pipes := pipes w |}.

Fixpoint update_nth {A} (n : nat) (f : A -> A) (l : list A) : list A :=
  match l, n with
  | [], _ => []
  | x :: t, O => f x :: t
  | x :: t, S n' => x :: update_nth n' f t
  end.

(** ** Node *)

Definition randomUUID (w : World) : string * World :=
  (uuids w (uuid_next w),
   {| platform := platform w; uuids := uuids w;
      uuid_next := S (uuid_next w);
      files := files w; servers := servers w;
      closeListeners := closeListeners w;
      accepted := accepted w; pipes := pipes w |}).

Definition path_exists (p : string) (w : World) : bool :=
  existsb (String.eqb p) (files w).

(** [fs.statSync] and [fs.unlinkSync] throw on a path that does not
    exist. *)
Definition statSync (p : string) (w : World) : result unit :=
  if path_exists p w then Ok tt else Throw "ENOENT".

Definition unlinkSync (p : string) (w : World) : result World :=
  if path_exists p w
  then Ok (set_files (filter (fun q => negb (String.eqb p q)) (files w)) w)
  else Throw "ENOENT".

(** [net.createServer(onSocket)]: a server that does not listen yet. *)
Definition createServer (onSocket : option connectionListener) (w : World)
  : nat * World :=
  (List.length (servers w),
   set_servers (servers w ++ [{| onConnection := onSocket; handle := None |}])
               w).

(** [stream.on("close", listener)]. *)
Definition on_close (stream : stream_id) (l : closeListener) (w : World)
  : World :=
  {| platform := platform w; uuids := uuids w; uuid_next := uuid_next w;
     files := files w; servers := servers w;
     closeListeners := closeListeners w ++ [(stream, l)];
     accepted := accepted w; pipes := pipes w |}.

(** [server.listen(path)]: the handle is bound to the path. *)
Definition listen (server : nat) (path : string) (w : World) : World :=
  set_files (path :: files w)
    (set_servers
       (update_nth server
          (fun s => {| onConnection := onConnection s; handle := Some path |})
          (servers w)) w).

(** [server.close()] without a callback: the handle, if any, is closed
    and dropped, and closing the handle removes the path it was bound to.
    On a server that does not listen nothing happens. *)
Definition Server_close (server : nat) (w : World) : World :=
  match nth_error (servers w) server with
  | Some {| handle := Some path |} =>
      set_files (filter (fun q => negb (String.eqb path q)) (files w))
        (set_servers
           (update_nth server
              (fun s => {| onConnection := onConnection s; handle := None |})
              (servers w)) w)
  | _ => w
  end.

Definition add_pipe (p : Pipe) (w : World) : World :=
  {| platform := platform w; uuids := uuids w; uuid_next := uuid_next w;
     files := files w; servers := servers w;
     closeListeners := closeListeners w;
     accepted := accepted w; pipes := pipes w ++ [p] |}.

Definition add_accepted (server : nat) (sock : socket_id) (w : World) : World :=
  {| platform := platform w; uuids := uuids w; uuid_next := uuid_next w;
     files := files w; servers := servers w;
     closeListeners := closeListeners w;
     accepted := accepted w ++ [(server, sock)]; pipes := pipes w |}.

Definition call_connectionListener (l : connectionListener) (sock : socket_id)
  (w : World) : World :=
  match l with
  | StreamToSocket stream => add_pipe (FromStream stream sock) w
  | SocketToStream stream pipeArgs => add_pipe (FromSocket sock stream pipeArgs) w
  end.

Definition call_closeListener (l : closeListener) (w : World) : World :=
  match l with
  | CloseServer server => Server_close server w
  end.

Definition listening (server : nat) (w : World) : bool :=
  match nth_error (servers w) server with
  | Some s => match handle s with Some _ => true | None => false end
  | None => false
  end.

(** A peer connects to the address of a server: a listening server emits
    [connection], which runs its listener on the new socket; a server
    that does not listen accepts nothing. *)
Definition connection (server : nat) (sock : socket_id) (w : World) : World :=
  if listening server w then
    let w := add_accepted server sock w in
    match nth_error (servers w) server with
    | Some {| onConnection := Some l |} => call_connectionListener l sock w
    | _ => w
    end
  else w.

(** A stream emits [close]: its listeners run in registration order. *)
Definition stream_close (stream : stream_id) (w : World) : World :=
  fold_left
    (fun w' '(s, l) => if Nat.eqb s stream then call_closeListener l w' else w')
    (closeListeners w) w.

(** ** The wrapper *)

Record NamedPipeStream : Type := {
  _socketPath : string;
  _url : string;
  _server : nat
}.

Definition backslash : string := String (ascii_of_nat 92) EmptyString.

Definition new_NamedPipeStream (stream : stream_id)
  (onSocket : option connectionListener) (w : World)
  : NamedPipeStream * World :=
  let '(id, w) := randomUUID w in
  let '(socketPath, url_) :=
    match platform w with
    | Win32 =>
        let p := backslash +++ backslash +++ "." +++ backslash +++ "pipe"
                 +++ backslash +++ id +++ ".sock" in (p, p)
    | Posix => let p := "/tmp/" +++ id +++ ".sock" in (p, "unix:" +++ p)
    end in
  let w :=
    match statSync socketPath w with
    | Ok _ => match unlinkSync socketPath w with
              | Ok w' => w'
              | Throw _ => w
              end
    | Throw _ => w
    end in
  let '(server, w) := createServer onSocket w in
  let w := on_close stream (CloseServer server) w in
  let w := listen server socketPath w in
  ({| _socketPath := socketPath; _url := url_; _server := server |}, w).

Definition url (b : NamedPipeStream) : string := _url b.

Definition close (b : NamedPipeStream) (w : World) : World :=
  Server_close (_server b) w.

Definition StreamInput (stream : stream_id) (w : World)
  : NamedPipeStream * World :=
  new_NamedPipeStream stream (Some (StreamToSocket stream)) w.

Definition StreamOutput (stream : stream_id) (pipeArgs : option PipeOptions)
  (w : World) : NamedPipeStream * World :=
  new_NamedPipeStream stream (Some (SocketToStream stream pipeArgs)) w.

(** ** What can happen to a world after bridges exist *)
Inductive action : Type :=
| Connect (server : nat) (sock : socket_id)
| StreamClosed (stream : stream_id)
| CallClose (b : NamedPipeStream)
| NewInput (stream : stream_id)
| NewOutput (stream : stream_id) (pipeArgs : option PipeOptions).

Definition perform (w : World) (a : action) : World :=
  match a with
  | Connect server sock => connection server sock w
  | StreamClosed stream => stream_close stream w
  | CallClose b => close b w
  | NewInput stream => snd (StreamInput stream w)
  | NewOutput stream pipeArgs => snd (StreamOutput stream pipeArgs w)
  end.

Definition perform_all (w : World) (t : list action) : World :=
  fold_left perform t w.

(** The sockets a server handed to its listener, oldest first. *)
Definition serviced (server : nat) (w : World) : list socket_id :=
  map snd (filter (fun c => Nat.eqb (fst c) server) (accepted w)).

(** The state of one server: whether it exists, its listener, whether it
    listens. *)
Definition server_at (k : nat) (w : World) : option Server :=
  nth_error (servers w) k.

Definition closed_server (s : Server) : Server :=
  match handle s with
  | Some _ => {| onConnection := onConnection s; handle := None |}
  | None => s
  end.

(** What [stream_close] does along a list of listeners. *)
Definition close_listeners (stream : stream_id)
  (ls : list (stream_id * closeListener)) (w : World) : World :=
  fold_left
    (fun w' '(s, l) => if Nat.eqb s stream then call_closeListener l w' else w')
    ls w.

(** A world is well formed when its listeners and its accepted
    connections refer to servers that exist. *)
Definition well_formed (w : World) : Prop :=
  (forall s k, In (s, CloseServer k) (closeListeners w) ->
               (k < List.length (servers w))%nat)
  /\ (forall k sock, In (k, sock) (accepted w) ->
                     (k < List.length (servers w))%nat).

Definition empty_world (p : Platform) (ids : nat -> string) : World :=
  {| platform := p; uuids := ids; uuid_next := 0; files := []; servers := [];
     closeListeners := []; accepted := []; pipes := [] |}.

(** Whether an action closes the acceptor of server [k], whose bridged
    stream is [stream]. *)
Definition closes (k : nat) (stream : stream_id) (a : action) : bool :=
  match a with
  | StreamClosed s => Nat.eqb s stream
  | CallClose b => Nat.eqb (_server b) k
  | _ => false
  end.

(** The sockets that connect to server [k] before the first action that
    closes its acceptor. *)
Fixpoint connected_while_open (k : nat) (stream : stream_id)
  (t : list action) : list socket_id :=
  match t with
  | [] => []
  | a :: r =>
      if closes k stream a then []
      else match a with
           | Connect k' sock =>
               if Nat.eqb k' k
               then sock :: connected_while_open k stream r
               else connected_while_open k stream r
           | _ => connected_while_open k stream r
           end
  end.

(** The relay a connection listener sets up for a socket. *)
Definition relay_of (l : connectionListener) (sock : socket_id) : Pipe :=
  match l with
  | StreamToSocket stream => FromStream stream sock
  | SocketToStream stream pipeArgs => FromSocket sock stream pipeArgs
  end.

(** What holds of a bridge from its construction on: its server exists
    with the listener it was given, the close listener of its stream is
    registered, and no other stream closes its server. *)
Definition bridge_inv (k : nat) (stream : stream_id)
  (l : option connectionListener) (w : World) : Prop :=
  (exists srv, server_at k w = Some srv /\ onConnection srv = l)
  /\ In (stream, CloseServer k) (closeListeners w)
  /\ (forall s, In (s, CloseServer k) (closeListeners w) -> s = stream).

(** The socket an action connects to server [k], if any. *)
Definition connects (k : nat) (a : action) : list socket_id :=
  match a with
  | Connect k' sock => if Nat.eqb k' k then [sock] else []
  | _ => []
  end.

(** Whether an action, performed in world [w], closes server [k]. *)
Definition closes_in (w : World) (k : nat) (a : action) : bool :=
  match a with
  | StreamClosed stream =>
      existsb (fun '(s, CloseServer k') => Nat.eqb s stream && Nat.eqb k' k)
              (closeListeners w)
  | CallClose b => Nat.eqb (_server b) k
  | _ => false
  end.

End Bridge.

(** * The command builder: [src/ffmpeg.ts] *)
Module FFmpeg.
Import JS.

(** ** Settings *)

Record Options : Type := {
  timeout : option number;
  niceness : option number;
  priority : option number;
  stdoutLines : option number
}.

(** The options object given to the constructor.  A property is absent
    ([None]), or present with a value that may be [undefined]
    ([Some None]). *)
Record OptionsArg : Type := {
  arg_timeout : option (option number);
  arg_niceness : option (option number);
  arg_priority : option (option number);
  arg_stdoutLines : option (option number)
}.

(** [Time] and [Bitrate]: a number or a string. *)
Definition Time := value.
Definition Bitrate := value.

(** The options of a structured filter: a string, an array of strings, or
    an object, given by the property definitions of its literal. *)
Inductive FilterOptions : Type :=
| OptString (s : string)
| OptArray (l : list string)
| OptRecord (props : list (string * unknown)).

Inductive Filter : Type :=
| FilterString (s : string)
| FilterObject (filter : string) (options : FilterOptions).

Inductive Source : Type :=
| SrcPath (path : string)
| SrcStream (stream : Bridge.stream_id).

Record InputSettings : Type := {
  src : Source;
  in_format : option string;
  in_fps : option number;
  readrateNative : option bool;
  in_startTime : option Time;
  loop_ : option bool;
  in_extraOpts : option (list string)
}.

Record AudioSettings : Type := {
  a_codec : option string;
  a_bitrate : option Bitrate;
  channels : option number;
  freq : option number;
  quality : option number;
  a_filters : option (list Filter)
}.

(** [{ width, height? } | { width: undefined, height } | { percent }]. *)
Inductive SizeSpec : Type :=
| SizeWH (width height : option number)
| SizePercent (percent : number).

Record VideoSettings : Type := {
  v_codec : option string;
  v_bitrate : option Bitrate;
  v_filters : option (list Filter);
  v_fps : option number;
  frames_ : option number;
  size_ : option SizeSpec
}.

Inductive Destination : Type :=
| DstPath (path : string)
| DstStream (stream : Bridge.stream_id) (pipeArgs : option Bridge.PipeOptions).

(** [audio] and [video] are [undefined] ([None]) once disabled. *)
Record OutputSettings : Type := {
  dst : Destination;
  audio : option AudioSettings;
  video : option VideoSettings;
  out_format : option string;
  duration_ : option Time;
  out_startTime : option Time;
  out_extraOpts : option (list string)
}.

(** The object literals [{ src }], [{}] and [{ dst, audio: {}, video: {} }]. *)
Definition new_input (s : Source) : InputSettings :=
  {| src := s; in_format := None; in_fps := None; readrateNative := None;
     in_startTime := None; loop_ := None; in_extraOpts := None |}.

Definition empty_audio : AudioSettings :=
  {| a_codec := None; a_bitrate := None; channels := None; freq := None;
     quality := None; a_filters := None |}.

Definition empty_video : VideoSettings :=
  {| v_codec := None; v_bitrate := None; v_filters := None; v_fps := None;
     frames_ := None; size_ := None |}.

Definition new_output (d : Destination) : OutputSettings :=
  {| dst := d; audio := Some empty_audio; video := Some empty_video;
     out_format := None; duration_ := None; out_startTime := None;
     out_extraOpts := None |}.

(** Property assignments. *)
Definition set_in_format v i :=
  {| src := src i; in_format := v; in_fps := in_fps i;
     readrateNative := readrateNative i; in_startTime := in_startTime i;
     loop_ := loop_ i; in_extraOpts := in_extraOpts i |}.
Definition set_in_fps v i :=
  {| src := src i; in_format := in_format i; in_fps := v;
     readrateNative := readrateNative i; in_startTime := in_startTime i;
     loop_ := loop_ i; in_extraOpts := in_extraOpts i |}.
Definition set_readrateNative v i :=
  {| src := src i; in_format := in_format i; in_fps := in_fps i;
     readrateNative := v; in_startTime := in_startTime i;
     loop_ := loop_ i; in_extraOpts := in_extraOpts i |}.
Definition set_in_startTime v i :=
  {| src := src i; in_format := in_format i; in_fps := in_fps i;
     readrateNative := readrateNative i; in_startTime := v;
     loop_ := loop_ i; in_extraOpts := in_extraOpts i |}.
Definition set_loop v i :=
  {| src := src i; in_format := in_format i; in_fps := in_fps i;
     readrateNative := readrateNative i; in_startTime := in_startTime i;
     loop_ := v; in_extraOpts := in_extraOpts i |}.
Definition set_in_extraOpts v i :=
  {| src := src i; in_format := in_format i; in_fps := in_fps i;
     readrateNative := readrateNative i; in_startTime := in_startTime i;
     loop_ := loop_ i; in_extraOpts := v |}.

Definition set_a_codec v a :=
  {| a_codec := v; a_bitrate := a_bitrate a; channels := channels a;
     freq := freq a; quality := quality a; a_filters := a_filters a |}.
Definition set_a_bitrate v a :=
  {| a_codec := a_codec a; a_bitrate := v; channels := channels a;
     freq := freq a; quality := quality a; a_filters := a_filters a |}.
Definition set_channels v a :=
  {| a_codec := a_codec a; a_bitrate := a_bitrate a; channels := v;
     freq := freq a; quality := quality a; a_filters := a_filters a |}.
Definition set_freq v a :=
  {| a_codec := a_codec a; a_bitrate := a_bitrate a; channels := channels a;
     freq := v; quality := quality a; a_filters := a_filters a |}.
Definition set_quality v a :=
  {| a_codec := a_codec a; a_bitrate := a_bitrate a; channels := channels a;
     freq := freq a; quality := v; a_filters := a_filters a |}.
Definition set_a_filters v a :=
  {| a_codec := a_codec a; a_bitrate := a_bitrate a; channels := channels a;
     freq := freq a; quality := quality a; a_filters := v |}.

Definition set_v_codec v x :=
  {| v_codec := v; v_bitrate := v_bitrate x; v_filters := v_filters x;
     v_fps := v_fps x; frames_ := frames_ x; size_ := size_ x |}.
Definition set_v_bitrate v x :=
  {| v_codec := v_codec x; v_bitrate := v; v_filters := v_filters x;
     v_fps := v_fps x; frames_ := frames_ x; size_ := size_ x |}.
Definition set_v_filters v x :=
  {| v_codec := v_codec x; v_bitrate := v_bitrate x; v_filters := v;
     v_fps := v_fps x; frames_ := frames_ x; size_ := size_ x |}.
Definition set_v_fps v x :=
  {| v_codec := v_codec x; v_bitrate := v_bitrate x; v_filters := v_filters x;
     v_fps := v; frames_ := frames_ x; size_ := size_ x |}.
Definition set_frames v x :=
  {| v_codec := v_codec x; v_bitrate := v_bitrate x; v_filters := v_filters x;
     v_fps := v_fps x; frames_ := v; size_ := size_ x |}.
Definition set_size v x :=
  {| v_codec := v_codec x; v_bitrate := v_bitrate x; v_filters := v_filters x;
     v_fps := v_fps x; frames_ := frames_ x; size_ := v |}.

Definition set_audio v o :=
  {| dst := dst o; audio := v; video := video o; out_format := out_format o;
     duration_ := duration_ o; out_startTime := out_startTime o;
     out_extraOpts := out_extraOpts o |}.
Definition set_video v o :=
  {| dst := dst o; audio := audio o; video := v; out_format := out_format o;
     duration_ := duration_ o; out_startTime := out_startTime o;
     out_extraOpts := out_extraOpts o |}.
Definition set_out_format v o :=
  {| dst := dst o; audio := audio o; video := video o; out_format := v;
     duration_ := duration_ o; out_startTime := out_startTime o;
     out_extraOpts := out_extraOpts o |}.
Definition set_duration v o :=
  {| dst := dst o; audio := audio o; video := video o;
     out_format := out_format o; duration_ := v;
     out_startTime := out_startTime o; out_extraOpts := out_extraOpts o |}.
Definition set_out_startTime v o :=
  {| dst := dst o; audio := audio o; video := video o;
     out_format := out_format o; duration_ := duration_ o;
     out_startTime := v; out_extraOpts := out_extraOpts o |}.
Definition set_out_extraOpts v o :=
  {| dst := dst o; audio := audio o; video := video o;
     out_format := out_format o; duration_ := duration_ o;
     out_startTime := out_startTime o; out_extraOpts := v |}.

(** ** [filtersToString] *)

Definition filterToString (el : Filter) : string :=
  match el with
  | FilterString s => s
  | FilterObject name options =>
      let opts :=
        match options with
        | OptString s => s
        | OptArray l => join ":" l
        | OptRecord props =>
            join ":"
              (map (fun '(k, v) => k +++ "=" +++ String_of v)
                   (Object_entries (object_literal props)))
        end in
      name +++ "=" +++ opts
  end.

Definition filtersToString (filters : list Filter) : string :=
  join "," (map filterToString filters).

(** ** The executable paths ([executable.ts]) *)

Record Executable : Type := {
  ffmpegPath : string;
  ffprobePath : string
}.

(** [process.env.FFMPEG_PATH ?? "ffmpeg"] and the same for ffprobe. *)
Definition default_executable (env_ffmpeg env_ffprobe : option string)
  : Executable :=
  {| ffmpegPath := match env_ffmpeg with Some p => p | None => "ffmpeg" end;
     ffprobePath := match env_ffprobe with Some p => p | None => "ffprobe" end |}.

Definition setFFmpegPath (path : string) (x : Executable) : Executable :=
  {| ffmpegPath := path; ffprobePath := ffprobePath x |}.

Definition setFFprobePath (path : string) (x : Executable) : Executable :=
  {| ffmpegPath := ffmpegPath x; ffprobePath := path |}.

(** ** The builder *)

(** The child process [execa] returns, with what [execa] was given. *)
Record ResultPromise : Type := {
  exec_file : string;
  exec_args : list string;
  cancelSignal : option nat
}.

Definition execa (file : string) (args : list string) (signal : option nat)
  : ResultPromise :=
  {| exec_file := file; exec_args := args; cancelSignal := signal |}.

(** [proc.spawnargs]: the file followed by the arguments. *)
Definition spawnargs (proc : ResultPromise) : list string :=
  exec_file proc :: exec_args proc.

(** What the builder publishes with [emit]: [start] with the invocation
    string, [stderr] with a line, [end] and [error] with the empty standard
    output and the joined diagnostic lines. *)
Inductive Notification : Type :=
| NStart (invocation : string)
| NStderr (line : string)
| NEnd (stdout stderr : string)
| NError (stdout stderr : string).

Record FFmpegCommand : Type := {
  _options : Options;
  _inputs : list InputSettings;
  _outputs : list OutputSettings;
  _proc : option ResultPromise;
  _stderrLines : list string;
  _emitted : list Notification   (* oldest first *)
}.

Definition set_inputs l c :=
  {| _options := _options c; _inputs := l; _outputs := _outputs c;
     _proc := _proc c; _stderrLines := _stderrLines c;
     _emitted := _emitted c |}.
Definition set_outputs l c :=
  {| _options := _options c; _inputs := _inputs c; _outputs := l;
     _proc := _proc c; _stderrLines := _stderrLines c;
     _emitted := _emitted c |}.
Definition set_proc p c :=
  {| _options := _options c; _inputs := _inputs c; _outputs := _outputs c;
     _proc := p; _stderrLines := _stderrLines c; _emitted := _emitted c |}.
Definition set_stderrLines l c :=
  {| _options := _options c; _inputs := _inputs c; _outputs := _outputs c;
     _proc := _proc c; _stderrLines := l; _emitted := _emitted c |}.
Definition emit (n : Notification) c :=
  {| _options := _options c; _inputs := _inputs c; _outputs := _outputs c;
     _proc := _proc c; _stderrLines := _stderrLines c;
     _emitted := _emitted c ++ [n] |}.

(** A spread property: the given one, when present, replaces the
    default. *)
Definition spread {A} (default : option A) (given : option (option A))
  : option A :=
  match given with
  | Some v => v
  | None => default
  end.

Definition no_options : OptionsArg :=
  {| arg_timeout := None; arg_niceness := None; arg_priority := None;
     arg_stdoutLines := None |}.

(** [constructor(options?)]:
    [{ niceness: 0, stdoutLines: 100, ...options }]. *)
Definition new_FFmpegCommand (options : option OptionsArg) : FFmpegCommand :=
  let o := match options with Some o => o | None => no_options end in
  {| _options :=
       {| timeout := spread None (arg_timeout o);
          niceness := spread (Some (of_Z 0)) (arg_niceness o);
          priority := spread None (arg_priority o);
          stdoutLines := spread (Some (of_Z 100)) (arg_stdoutLines o) |};
     _inputs := []; _outputs := []; _proc := None; _stderrLines := [];
     _emitted := [] |}.

(** An argument that is one element or an array of elements, and
    [Array.prototype.flat] over a list of them. *)
Inductive OneOrMany (A : Type) : Type :=
| One (a : A)
| Many (l : list A).
Arguments One {A} a.
Arguments Many {A} l.

Definition flat {A} (l : list (OneOrMany A)) : list A :=
  flat_map (fun x => match x with One a => [a] | Many m => m end) l.

(** [x ?? []]. *)
Definition or_empty {A} (o : option (list A)) : list A :=
  match o with Some l => l | None => [] end.

Section Builder.

(** The tokenizer of free-form option strings, from [string-argv]. *)
Variable parseArgsStringToArgv : string -> list string.

Definition input (s : Source) (c : FFmpegCommand) : result FFmpegCommand :=
  Ok (set_inputs (_inputs c ++ [new_input s]) c).

Definition _getLastInput (c : FFmpegCommand) : result InputSettings :=
  match at_last (_inputs c) with
  | Some i => Ok i
  | None => Throw "No input added. Please add an input"
  end.

(** A method that fetches the last input and assigns to it. *)
Definition on_last_input (f : InputSettings -> InputSettings)
  (c : FFmpegCommand) : result FFmpegCommand :=
  _ <- _getLastInput c ;;
  Ok (set_inputs (update_last f (_inputs c)) c).

Definition inputFormat (format : string) := on_last_input (set_in_format (Some format)).
Definition inputFPS (fps : number) := on_last_input (set_in_fps (Some fps)).
Definition native := on_last_input (set_readrateNative (Some true)).
Definition seekInput (time : Time) := on_last_input (set_in_startTime (Some time)).

Definition loop (length : option value) (c : FFmpegCommand)
  : result FFmpegCommand :=
  if match length with Some v => truthy v | None => false end
  then Throw "Please specify loop output duration on the output instead"
  else on_last_input (set_loop (Some true)) c.

Definition inputOptions (options : list (OneOrMany string)) :=
  on_last_input
    (fun i => set_in_extraOpts
                (Some (or_empty (in_extraOpts i)
                       ++ flat_map parseArgsStringToArgv (flat options))) i).

Definition output (d : Destination) (c : FFmpegCommand)
  : result FFmpegCommand :=
  Ok (set_outputs (_outputs c ++ [new_output d]) c).

Definition _getLastOutput (c : FFmpegCommand) : result OutputSettings :=
  match at_last (_outputs c) with
  | Some o => Ok o
  | None => Throw "No output added. Please add an output"
  end.

Definition on_last_output (f : OutputSettings -> OutputSettings)
  (c : FFmpegCommand) : result FFmpegCommand :=
  _ <- _getLastOutput c ;;
  Ok (set_outputs (update_last f (_outputs c)) c).

Definition outputOptions (options : list (OneOrMany string)) :=
  on_last_output
    (fun o => set_out_extraOpts
                (Some (or_empty (out_extraOpts o)
                       ++ flat_map parseArgsStringToArgv (flat options))) o).

Definition noAudio := on_last_output (set_audio None).

(** [setAudioProps(key, value)]; the assignment [output.audio[key] = value]
    is the function [assign]. *)
Definition setAudioProps (assign : AudioSettings -> AudioSettings)
  (c : FFmpegCommand) : result FFmpegCommand :=
  o <- _getLastOutput c ;;
  match audio o with
  | None => Throw "Audio disabled"
  | Some a =>
      Ok (set_outputs (update_last (set_audio (Some (assign a))) (_outputs c)) c)
  end.

Definition audioCodec (codec : string) := setAudioProps (set_a_codec (Some codec)).
Definition audioBitrate (bitrate : Bitrate) := setAudioProps (set_a_bitrate (Some bitrate)).
Definition audioChannels (count : number) := setAudioProps (set_channels (Some count)).
Definition audioFrequency (f : number) := setAudioProps (set_freq (Some f)).
Definition audioQuality (q : number) := setAudioProps (set_quality (Some q)).

Definition audioFilters (filters : list (OneOrMany Filter))
  (c : FFmpegCommand) : result FFmpegCommand :=
  o <- _getLastOutput c ;;
  match audio o with
  | None => Throw "Audio disabled"
  | Some a =>
      let a' := set_a_filters (Some (or_empty (a_filters a) ++ flat filters)) a in
      Ok (set_outputs (update_last (set_audio (Some a')) (_outputs c)) c)
  end.

Definition noVideo := on_last_output (set_video None).

Definition setVideoProps (assign : VideoSettings -> VideoSettings)
  (c : FFmpegCommand) : result FFmpegCommand :=
  o <- _getLastOutput c ;;
  match video o with
  | None => Throw "Video disabled"
  | Some v =>
      Ok (set_outputs (update_last (set_video (Some (assign v))) (_outputs c)) c)
  end.

Definition videoCodec (codec : string) := setVideoProps (set_v_codec (Some codec)).
Definition videoBitrate (bitrate : Bitrate) := setVideoProps (set_v_bitrate (Some bitrate)).
Definition fps (n : number) := setVideoProps (set_v_fps (Some n)).
Definition frames (count : number) := setVideoProps (set_frames (Some count)).

(** A dimension that is a number fails validation when it is NaN or not
    positive: [typeof d === "number" && (Number.isNaN(d) || d <= 0)]. *)
Definition bad_dimension (d : option number) : bool :=
  match d with
  | Some n => isNaN n || num_leb n (of_Z 0)
  | None => false
  end.

Definition dimension_truthy (d : option number) : bool :=
  match d with
  | Some n => num_truthy n
  | None => false
  end.

Definition question_mark : string := "?".

(** The validation in [size(size)]: everything the method does before it
    calls [setVideoProps("size", ...)], with the object it then stores. *)
Definition parse_size (sz : string) : result SizeSpec :=
  if endsWith sz "%" then
    let percentStr := substring_but_last sz in
    let percent := parseFloat percentStr in
    if negb (isFinite percent) || num_leb percent (of_Z 0)
    then Throw ("Invalid size: " +++ sz)
    else Ok (SizePercent percent)
  else
    let parts := split "x" sz in
    match nth_error parts 0, nth_error parts 1 with
    | Some widthStr, Some heightStr =>
        if negb (str_truthy widthStr) || negb (str_truthy heightStr)
        then Throw ("Invalid size: " +++ sz)
        else
          let width :=
            if String.eqb widthStr question_mark then None
            else Some (parseInt widthStr) in
          let height :=
            if String.eqb heightStr question_mark then None
            else Some (parseInt heightStr) in
          if bad_dimension width then Throw ("Invalid width: " +++ widthStr)
          else if bad_dimension height
          then Throw ("Invalid height: " +++ heightStr)
          else if dimension_truthy width
          then Ok (SizeWH width height)
          else if dimension_truthy height
          then Ok (SizeWH None height)
          else Throw "Width and height can't both be unknown"
    | _, _ => Throw ("Invalid size: " +++ sz)
    end.

Definition size (sz : string) (c : FFmpegCommand) : result FFmpegCommand :=
  spec <- parse_size sz ;;
  setVideoProps (set_size (Some spec)) c.

Definition videoFilters (filters : list (OneOrMany Filter))
  (c : FFmpegCommand) : result FFmpegCommand :=
  o <- _getLastOutput c ;;
  match video o with
  | None => Throw "Video disabled"
  | Some v =>
      let v' := set_v_filters (Some (or_empty (v_filters v) ++ flat filters)) v in
      Ok (set_outputs (update_last (set_video (Some v')) (_outputs c)) c)
  end.

Definition duration (dur : Time) := on_last_output (set_duration (Some dur)).
Definition seek (start : Time) := on_last_output (set_out_startTime (Some start)).
Definition format (f : string) := on_last_output (set_out_format (Some f)).

(** [processStderr(line)]. *)
Definition processStderr (line : string) (c : FFmpegCommand) : FFmpegCommand :=
  let c := emit (NStderr line) c in
  let c := set_stderrLines (_stderrLines c ++ [line]) c in
  match stdoutLines (_options c) with
  | Some max =>
      let len := of_nat (List.length (_stderrLines c)) in
      if num_truthy max && num_gtb len max
      then set_stderrLines (slice (_stderrLines c) (num_sub len max)) c
      else c
  | None => c
  end.

(** ** [run]

    [args] grows by [push]; a guarded push tests the truthiness of the
    stored value. *)
Definition push (args items : list string) : list string := args ++ items.

Definition push_if {A} (o : option A) (test : A -> bool)
  (items : A -> list string) (args : list string) : list string :=
  match o with
  | Some a => if test a then push args (items a) else args
  | None => args
  end.

Definition always {A} (_ : A) : bool := true.
Definition is_true (b : bool) : bool := b.

(** The body of the loop over [this._inputs]. *)
Definition run_input (st : list string * Bridge.World) (input : InputSettings)
  : list string * Bridge.World :=
  let '(args, w) := st in
  let args := push_if (in_extraOpts input) always (fun e => e) args in
  let args := push_if (in_format input) str_truthy (fun f => ["-f"; f]) args in
  let args := push_if (in_fps input) num_truthy
                (fun n => ["-r"; num_toString n]) args in
  let args := push_if (readrateNative input) is_true (fun _ => ["-re"]) args in
  let args := push_if (in_startTime input) truthy
                (fun t => ["-ss"; toString t]) args in
  let args := push_if (loop_ input) is_true (fun _ => ["-loop"; "-1"]) args in
  match src input with
  | SrcPath path => (push args ["-i"; path], w)
  | SrcStream r =>
      let '(stream, w) := Bridge.StreamInput r w in
      (push args ["-i"; Bridge.url stream], w)
  end.

(** The audio part of the loop over [this._outputs]. *)
Definition run_audio (a : option AudioSettings) (args : list string)
  : list string :=
  match a with
  | None => push args ["-an"]
  | Some a =>
      let args := push_if (a_codec a) str_truthy (fun c => ["-c:a"; c]) args in
      let args := push_if (a_bitrate a) truthy
                    (fun b => ["-b:a"; toString b]) args in
      let args := push_if (channels a) num_truthy
                    (fun n => ["-ac"; num_toString n]) args in
      let args := push_if (freq a) num_truthy
                    (fun n => ["-ar"; num_toString n]) args in
      let args := push_if (quality a) num_truthy
                    (fun n => ["-q:a"; num_toString n]) args in
      push_if (a_filters a) always (fun f => ["-af"; filtersToString f]) args
  end.

(** [w: width ? width : "-2"]. *)
Definition dimension_option (d : option number) : unknown :=
  match d with
  | Some n => if num_truthy n then UNum n else UStr "-2"
  | None => UStr "-2"
  end.

(** The video part of the loop over [this._outputs]. *)
Definition run_video (v : option VideoSettings) (args : list string)
  : list string :=
  match v with
  | None => push args ["-vn"]
  | Some v =>
      let args := push_if (v_codec v) str_truthy (fun c => ["-c:v"; c]) args in
      let args := push_if (v_bitrate v) truthy
                    (fun b => ["-b:v"; toString b]) args in
      let args := push_if (v_fps v) num_truthy
                    (fun n => ["-r"; num_toString n]) args in
      let args := push_if (frames_ v) num_truthy
                    (fun n => ["-frames:v"; num_toString n]) args in
      let resolvedFilters := or_empty (v_filters v) in
      let resolvedFilters :=
        match size_ v with
        | Some (SizePercent percent) =>
            let factor := num_toString (num_div100 percent) in
            resolvedFilters ++
              [FilterObject "scale"
                 (OptRecord
                    [("w", UStr ("trunc(iw*" +++ factor +++ "/2)*2"));
                     ("h", UStr ("trunc(ih*" +++ factor +++ "/2)*2"))])]
        | Some (SizeWH width height) =>
            resolvedFilters ++
              [FilterObject "scale"
                 (OptRecord [("w", dimension_option width);
                             ("h", dimension_option height)])]
        | None => resolvedFilters
        end in
      match resolvedFilters with
      | [] => args
      | _ => push args ["-vf"; filtersToString resolvedFilters]
      end
  end.

(** The body of the loop over [this._outputs]. *)
Definition run_output (st : list string * Bridge.World)
  (output : OutputSettings) : list string * Bridge.World :=
  let '(args, w) := st in
  let args := push_if (out_format output) str_truthy (fun f => ["-f"; f]) args in
  let args := push_if (out_startTime output) truthy
                (fun t => ["-ss"; toString t]) args in
  let args := push_if (duration_ output) truthy
                (fun t => ["-t"; toString t]) args in
  let args := run_audio (audio output) args in
  let args := run_video (video output) args in
  let args := push_if (out_extraOpts output) always (fun e => e) args in
  match dst output with
  | DstPath path => (push args [path], w)
  | DstStream stream pipeArgs =>
      let '(b, w) := Bridge.StreamOutput stream pipeArgs w in
      (push args [Bridge.url b], w)
  end.

(** The two loops of [run]: the argument vector, and the world with the
    bridges opened on the way. *)
Definition build_args (c : FFmpegCommand) (w : Bridge.World)
  : list string * Bridge.World :=
  fold_left run_output (_outputs c) (fold_left run_input (_inputs c) ([], w)).

(** [run(cancelSignal?)].  The process is handed to the execution facility
    and kept in [_proc]; what the process does afterwards reaches the
    builder as calls of [processStderr]. *)
Definition run (signal : option nat) (exe : Executable) (c : FFmpegCommand)
  (w : Bridge.World) : result (ResultPromise * FFmpegCommand * Bridge.World) :=
  match _proc c with
  | Some _ => Throw "This instance is already run"
  | None =>
      match _inputs c with
      | [] => Throw "No inputs specified"
      | _ =>
          match _outputs c with
          | [] => Throw "No outputs specified"
          | _ =>
              let '(args, w) := build_args c w in
              let proc := execa (ffmpegPath exe) args signal in
              Ok (proc, set_proc (Some proc) c, w)
          end
      end
  end.

(** The callbacks [run] registers on the process: [spawn] publishes
    [start]; each line of the standard error goes through [processStderr];
    the settlement of the promise publishes [end] or [error]. *)
Definition newline : string := String (ascii_of_nat 10) EmptyString.

Inductive process_event : Type :=
| Spawned
| StderrLine (line : string)
| Settled (success : bool).

Definition notify (e : process_event) (c : FFmpegCommand) : FFmpegCommand :=
  match e with
  | Spawned =>
      match _proc c with
      | Some proc => emit (NStart (join " " (spawnargs proc))) c
      | None => c
      end
  | StderrLine line => processStderr line c
  | Settled true => emit (NEnd EmptyString (join newline (_stderrLines c))) c
  | Settled false => emit (NError EmptyString (join newline (_stderrLines c))) c
  end.

(** ** Calls on a builder, one after the other *)
Inductive call : Type :=
| Cinput (s : Source)
| CinputFormat (f : string)
| CinputFPS (n : number)
| Cnative
| CseekInput (t : Time)
| Cloop (length : option value)
| CinputOptions (options : list (OneOrMany string))
| Coutput (d : Destination)
| CoutputOptions (options : list (OneOrMany string))
| CnoAudio
| CaudioCodec (codec : string)
| CaudioBitrate (b : Bitrate)
| CaudioChannels (n : number)
| CaudioFrequency (n : number)
| CaudioQuality (n : number)
| CaudioFilters (filters : list (OneOrMany Filter))
| CnoVideo
| CvideoCodec (codec : string)
| CvideoBitrate (b : Bitrate)
| Cfps (n : number)
| Cframes (n : number)
| Csize (sz : string)
| CvideoFilters (filters : list (OneOrMany Filter))
| Cduration (t : Time)
| Cseek (t : Time)
| Cformat (f : string)
| Crun (signal : option nat) (exe : Executable).

Definition state : Type := FFmpegCommand * Bridge.World.

Definition chain (m : FFmpegCommand -> result FFmpegCommand) (st : state)
  : result state :=
  c <- m (fst st) ;; Ok (c, snd st).

Definition exec (k : call) (st : state) : result state :=
  match k with
  | Cinput s => chain (input s) st
  | CinputFormat f => chain (inputFormat f) st
  | CinputFPS n => chain (inputFPS n) st
  | Cnative => chain native st
  | CseekInput t => chain (seekInput t) st
  | Cloop l => chain (loop l) st
  | CinputOptions o => chain (inputOptions o) st
  | Coutput d => chain (output d) st
  | CoutputOptions o => chain (outputOptions o) st
  | CnoAudio => chain noAudio st
  | CaudioCodec x => chain (audioCodec x) st
  | CaudioBitrate x => chain (audioBitrate x) st
  | CaudioChannels x => chain (audioChannels x) st
  | CaudioFrequency x => chain (audioFrequency x) st
  | CaudioQuality x => chain (audioQuality x) st
  | CaudioFilters x => chain (audioFilters x) st
  | CnoVideo => chain noVideo st
  | CvideoCodec x => chain (videoCodec x) st
  | CvideoBitrate x => chain (videoBitrate x) st
  | Cfps x => chain (fps x) st
  | Cframes x => chain (frames x) st
  | Csize x => chain (size x) st
  | CvideoFilters x => chain (videoFilters x) st
  | Cduration x => chain (duration x) st
  | Cseek x => chain (seek x) st
  | Cformat x => chain (format x) st
  | Crun signal exe =>
      r <- run signal exe (fst st) (snd st) ;;
      Ok (snd (fst r), snd r)
  end.

(** A call that throws leaves the builder as it was: every method throws
    before it assigns. *)
Definition after (k : call) (st : state) : state :=
  match exec k st with
  | Ok st' => st'
  | Throw _ => st
  end.

Definition after_all (ks : list call) (st : state) : state :=
  fold_left (fun s k => after k s) ks st.

(** What happens to a builder over time: calls of its methods and, once
    it has run, the events of its process. *)
Inductive step : Type :=
| Call (k : call)
| Process (e : process_event).

Definition after_step (s : step) (st : state) : state :=
  match s with
  | Call k => after k st
  | Process e => (notify e (fst st), snd st)
  end.

Definition after_steps (ss : list step) (st : state) : state :=
  fold_left (fun st s => after_step s st) ss st.

End Builder.

(** The calls that set an audio property, those that set a video
    property, and [output]. *)
Definition audio_call (k : call) : bool :=
  match k with
  | CaudioCodec _ | CaudioBitrate _ | CaudioChannels _ | CaudioFrequency _
  | CaudioQuality _ | CaudioFilters _ => true
  | _ => false
  end.

Definition video_call (k : call) : bool :=
  match k with
  | CvideoCodec _ | CvideoBitrate _ | Cfps _ | Cframes _ | Csize _
  | CvideoFilters _ => true
  | _ => false
  end.

Definition output_call (k : call) : bool :=
  match k with
  | Coutput _ => true
  | _ => false
  end.

Definition output_step (s : step) : bool :=
  match s with
  | Call k => output_call k
  | Process _ => false
  end.

(** A call whose argument passes the validation of the method; only
    [size] validates. *)
Definition valid_argument (k : call) : bool :=
  match k with
  | Csize sz => match parse_size sz with Ok _ => true | Throw _ => false end
  | _ => true
  end.

(** A builder with a property of its last input, of the audio settings
    of its last output, or of the video settings of its last output
    reassigned. *)
Definition with_last_input (f : InputSettings -> InputSettings)
  (c : FFmpegCommand) : FFmpegCommand :=
  set_inputs (update_last f (_inputs c)) c.

Definition with_last_output (f : OutputSettings -> OutputSettings)
  (c : FFmpegCommand) : FFmpegCommand :=
  set_outputs (update_last f (_outputs c)) c.

Definition in_audio (f : AudioSettings -> AudioSettings)
  (o : OutputSettings) : OutputSettings :=
  set_audio (option_map f (audio o)) o.

Definition in_video (f : VideoSettings -> VideoSettings)
  (o : OutputSettings) : OutputSettings :=
  set_video (option_map f (video o)) o.

(** The sizes [size] stores: a dimension that is set is neither 0 nor
    NaN. *)
Definition size_valid (sz : SizeSpec) : Prop :=
  match sz with
  | SizeWH width height =>
      match width with Some n => num_truthy n = true | None => True end
      /\ match height with Some n => num_truthy n = true | None => True end
  | SizePercent _ => True
  end.

(** The audio settings and the video settings of the last output:
    [None] without an output, [Some None] when disabled. *)
Definition last_audio (c : FFmpegCommand) : option (option AudioSettings) :=
  option_map audio (at_last (_outputs c)).

Definition last_video (c : FFmpegCommand) : option (option VideoSettings) :=
  option_map video (at_last (_outputs c)).

(** The size held by the video settings of the last output. *)
Definition stored_size (c : FFmpegCommand) : option SizeSpec :=
  match at_last (_outputs c) with
  | Some o => match video o with
              | Some v => size_ v
              | None => None
              end
  | None => None
  end.

(** A token that is empty or starts with a character that cannot start
    a number: not a digit, not a sign, not white space. *)
Definition no_numeric_prefix (t : string) : bool :=
  match t with
  | EmptyString => true
  | String ch _ =>
      negb (is_digit ch) && negb (is_space ch)
      && negb (Ascii.eqb ch "+") && negb (Ascii.eqb ch "-")
  end.

(** A token written in decimal digits only. *)
Definition decimal_numeral (t : string) : bool :=
  str_truthy t && str_forall is_digit t.

(** The text of one entry of an option mapping. *)
Definition entry_text (kv : string * unknown) : string :=
  fst kv +++ "=" +++ String_of (snd kv).

(** The diagnostic lines of a process, delivered one by one. *)
Definition feed (lines : list string) (c : FFmpegCommand) : FFmpegCommand :=
  fold_left (fun c line => processStderr line c) lines c.

(** A builder constructed with [{ stdoutLines: max }]. *)
Definition with_stdoutLines (max : option number) : FFmpegCommand :=
  new_FFmpegCommand
    (Some {| arg_timeout := None; arg_niceness := None; arg_priority := None;
             arg_stdoutLines := Some max |}).

(** The buffer after one line, as a function of the buffer before. *)
Definition buffer_step (max : option number) (buf : list string)
  (line : string) : list string :=
  let l := buf ++ [line] in
  match max with
  | Some M =>
      if num_truthy M && num_gtb (of_nat (List.length l)) M
      then slice l (num_sub (of_nat (List.length l)) M)
      else l
  | None => l
  end.

(** The last [n] elements of a list. *)
Definition last_n {A} (n : nat) (l : list A) : list A :=
  skipn (List.length l - n) l.

(** The least integer not below [m * 10^e]. *)
Definition ceiling (m e : Z) : Z :=
  if 0 <=? e then m * 10 ^ e else - ((- m) / 10 ^ (- e)).

End FFmpeg.

(** * The token groups, in the words of the specification

    Each group is the concatenation of its parts in the order the
    specification lists them; [run] is compared with these. *)
Module Lowering.
Import JS FFmpeg.

(** A flag followed by its value, emitted when the setting is set to a
    value the guard lets through. *)
Definition flag {A} (name : string) (setting : option A) (guard : A -> bool)
  (show : A -> string) : list string :=
  match setting with
  | Some a => if guard a then [name; show a] else []
  | None => []
  end.

(** Tokens without a value, emitted when the switch is on. *)
Definition switch (tokens : list string) (setting : option bool)
  : list string :=
  match setting with
  | Some true => tokens
  | _ => []
  end.

Definition same (s : string) : string := s.

(** Per input: extra raw options, format flag, frame-rate flag,
    native-read-rate flag, start-time flag, loop flag, source flag. *)
Definition input_group (i : InputSettings) (address : string) : list string :=
  or_empty (in_extraOpts i)
  ++ flag "-f" (in_format i) str_truthy same
  ++ flag "-r" (in_fps i) num_truthy num_toString
  ++ switch ["-re"] (readrateNative i)
  ++ flag "-ss" (in_startTime i) truthy toString
  ++ switch ["-loop"; "-1"] (loop_ i)
  ++ ["-i"; address].

(** Audio block: the "no audio" flag, or the codec, bitrate, channels,
    frequency and quality flags followed by the filter graph of the filter
    list, when one is set. *)
Definition audio_block (a : option AudioSettings) : list string :=
  match a with
  | None => ["-an"]
  | Some a =>
      flag "-c:a" (a_codec a) str_truthy same
      ++ flag "-b:a" (a_bitrate a) truthy toString
      ++ flag "-ac" (channels a) num_truthy num_toString
      ++ flag "-ar" (freq a) num_truthy num_toString
      ++ flag "-q:a" (quality a) num_truthy num_toString
      ++ flag "-af" (a_filters a) always filtersToString
  end.

(** The scale filter a size is lowered into: a percentage scales both
    dimensions by [percent / 100] and rounds them to even; an explicit size
    uses the given value and [-2] for the dimension that is not set. *)
Definition scale_dimension (d : option number) : unknown :=
  match d with
  | Some n => UNum n
  | None => UStr "-2"
  end.

Definition scale_filter (sz : SizeSpec) : Filter :=
  match sz with
  | SizePercent percent =>
      let factor := num_toString (num_div100 percent) in
      FilterObject "scale"
        (OptRecord [("w", UStr ("trunc(iw*" +++ factor +++ "/2)*2"));
                    ("h", UStr ("trunc(ih*" +++ factor +++ "/2)*2"))])
  | SizeWH width height =>
      FilterObject "scale"
        (OptRecord [("w", scale_dimension width);
                    ("h", scale_dimension height)])
  end.

(** The flags of the video block that come before the filter graph. *)
Definition video_flags (v : VideoSettings) : list string :=
  flag "-c:v" (v_codec v) str_truthy same
  ++ flag "-b:v" (v_bitrate v) truthy toString
  ++ flag "-r" (v_fps v) num_truthy num_toString
  ++ flag "-frames:v" (frames_ v) num_truthy num_toString.

(** The explicit filters followed by the derived scale filter. *)
Definition combined_filters (v : VideoSettings) : list Filter :=
  or_empty (v_filters v)
  ++ match size_ v with
     | Some sz => [scale_filter sz]
     | None => []
     end.

(** One flag for the filter graph, only when there is a filter. *)
Definition filter_graph (name : string) (filters : list Filter)
  : list string :=
  match filters with
  | [] => []
  | _ => [name; filtersToString filters]
  end.

Definition video_block (v : option VideoSettings) : list string :=
  match v with
  | None => ["-vn"]
  | Some v => video_flags v ++ filter_graph "-vf" (combined_filters v)
  end.

(** Per output: format flag, start-time flag, duration flag, audio block,
    video block, extra raw options, destination.  The two blocks are the
    tokens the audio part and the video part of [run] append. *)
Definition output_group (o : OutputSettings) (address : string)
  : list string :=
  flag "-f" (out_format o) str_truthy same
  ++ flag "-ss" (out_startTime o) truthy toString
  ++ flag "-t" (duration_ o) truthy toString
  ++ run_audio (audio o) []
  ++ run_video (video o) []
  ++ or_empty (out_extraOpts o)
  ++ [address].

(** The address of a source or destination: the path, or the address of
    a bridge opened for the stream. *)
Definition input_address (s : Source) (w : Bridge.World)
  : string * Bridge.World :=
  match s with
  | SrcPath path => (path, w)
  | SrcStream stream =>
      let '(b, w) := Bridge.StreamInput stream w in (Bridge.url b, w)
  end.

Definition output_address (d : Destination) (w : Bridge.World)
  : string * Bridge.World :=
  match d with
  | DstPath path => (path, w)
  | DstStream stream pipeArgs =>
      let '(b, w) := Bridge.StreamOutput stream pipeArgs w in
      (Bridge.url b, w)
  end.

(** The groups of a list of inputs or outputs, in the order of the list,
    bridges being opened in that order. *)
Fixpoint input_groups (l : list InputSettings) (w : Bridge.World)
  : list (list string) * Bridge.World :=
  match l with
  | [] => ([], w)
  | i :: r =>
      let '(address, w) := input_address (src i) w in
      let '(groups, w) := input_groups r w in
      (input_group i address :: groups, w)
  end.

Fixpoint output_groups (l : list OutputSettings) (w : Bridge.World)
  : list (list string) * Bridge.World :=
  match l with
  | [] => ([], w)
  | o :: r =>
      let '(address, w) := output_address (dst o) w in
      let '(groups, w) := output_groups r w in
      (output_group o address :: groups, w)
  end.


End Lowering.

(** * Predicates on calls and builders used by further properties *)
Module Predicates.
Import JS FFmpeg.

(** The methods that go through [_getLastInput], and those that go
    through [_getLastOutput]. *)
Definition input_scoped (k : call) : bool :=
  match k with
  | CinputFormat _ | CinputFPS _ | Cnative | CseekInput _ | Cloop _
  | CinputOptions _ => true
  | _ => false
  end.

Definition output_scoped (k : call) : bool :=
  match k with
  | CoutputOptions _ | CnoAudio | CaudioCodec _ | CaudioBitrate _
  | CaudioChannels _ | CaudioFrequency _ | CaudioQuality _ | CaudioFilters _
  | CnoVideo | CvideoCodec _ | CvideoBitrate _ | Cfps _ | Cframes _ | Csize _
  | CvideoFilters _ | Cduration _ | Cseek _ | Cformat _ => true
  | _ => false
  end.

Definition input_call (k : call) : bool :=
  match k with
  | Cinput _ => true
  | _ => false
  end.

(** Whether the argument of [loop] is truthy. *)
Definition loop_argument_truthy (k : call) : bool :=
  match k with
  | Cloop (Some v) => truthy v
  | _ => false
  end.

(** The bridges [run] opens: one per stream-backed input, then one per
    stream-backed output, in the order of the lists. *)
Definition input_bridge (i : InputSettings) : list Bridge.action :=
  match src i with
  | SrcPath _ => []
  | SrcStream stream => [Bridge.NewInput stream]
  end.

Definition output_bridge (o : OutputSettings) : list Bridge.action :=
  match dst o with
  | DstPath _ => []
  | DstStream stream pipeArgs => [Bridge.NewOutput stream pipeArgs]
  end.

Definition bridge_actions (c : FFmpegCommand) : list Bridge.action :=
  flat_map input_bridge (_inputs c) ++ flat_map output_bridge (_outputs c).

(** Two calls of the same method among those that assign one
    property. *)
Definition same_setter (k1 k2 : call) : bool :=
  match k1, k2 with
  | CinputFormat _, CinputFormat _ | CinputFPS _, CinputFPS _
  | Cnative, Cnative | CseekInput _, CseekInput _
  | CnoAudio, CnoAudio | CaudioCodec _, CaudioCodec _
  | CaudioBitrate _, CaudioBitrate _ | CaudioChannels _, CaudioChannels _
  | CaudioFrequency _, CaudioFrequency _ | CaudioQuality _, CaudioQuality _
  | CnoVideo, CnoVideo | CvideoCodec _, CvideoCodec _
  | CvideoBitrate _, CvideoBitrate _ | Cfps _, Cfps _ | Cframes _, Cframes _
  | Cduration _, Cduration _ | Cseek _, Cseek _ | Cformat _, Cformat _ => true
  | _, _ => false
  end.

(** A string of decimal digits and its value. *)
Definition digit_string (s : string) : bool :=
  str_truthy s && str_forall is_digit s.

Definition decimal_value (s : string) : Z := digits_value 10 0 s.

(** An assignment inside the audio or the video settings of an output
    whose track is enabled; a disabled track is left alone. *)
Definition assign_audio (g : AudioSettings -> AudioSettings)
  (o : OutputSettings) : OutputSettings :=
  match audio o with
  | Some a => set_audio (Some (g a)) o
  | None => o
  end.

Definition assign_video (g : VideoSettings -> VideoSettings)
  (o : OutputSettings) : OutputSettings :=
  match video o with
  | Some v => set_video (Some (g v)) o
  | None => o
  end.

Definition add_audio_filters (fs : list Filter) (a : AudioSettings)
  : AudioSettings :=
  set_a_filters (Some (or_empty (a_filters a) ++ fs)) a.

Definition add_video_filters (fs : list Filter) (v : VideoSettings)
  : VideoSettings :=
  set_v_filters (Some (or_empty (v_filters v) ++ fs)) v.

Definition add_input_options (opts : list string) (i : InputSettings)
  : InputSettings :=
  set_in_extraOpts (Some (or_empty (in_extraOpts i) ++ opts)) i.

Definition add_output_options (opts : list string) (o : OutputSettings)
  : OutputSettings :=
  set_out_extraOpts (Some (or_empty (out_extraOpts o) ++ opts)) o.

(** The builder a call leaves behind, whether the call returned or
    threw, written as one reassignment of the last input or of the last
    output.  [run] is not among these calls. *)
Definition effect (tok : string -> list string) (k : call)
  (c : FFmpegCommand) : FFmpegCommand :=
  match k with
  | Cinput s => set_inputs (_inputs c ++ [new_input s]) c
  | CinputFormat f => with_last_input (set_in_format (Some f)) c
  | CinputFPS n => with_last_input (set_in_fps (Some n)) c
  | Cnative => with_last_input (set_readrateNative (Some true)) c
  | CseekInput t => with_last_input (set_in_startTime (Some t)) c
  | Cloop l =>
      if loop_argument_truthy k then c
      else with_last_input (set_loop (Some true)) c
  | CinputOptions o =>
      with_last_input (add_input_options (flat_map tok (flat o))) c
  | Coutput d => set_outputs (_outputs c ++ [new_output d]) c
  | CoutputOptions o =>
      with_last_output (add_output_options (flat_map tok (flat o))) c
  | CnoAudio => with_last_output (set_audio None) c
  | CaudioCodec x => with_last_output (assign_audio (set_a_codec (Some x))) c
  | CaudioBitrate x => with_last_output (assign_audio (set_a_bitrate (Some x))) c
  | CaudioChannels x => with_last_output (assign_audio (set_channels (Some x))) c
  | CaudioFrequency x => with_last_output (assign_audio (set_freq (Some x))) c
  | CaudioQuality x => with_last_output (assign_audio (set_quality (Some x))) c
  | CaudioFilters fs =>
      with_last_output (assign_audio (add_audio_filters (flat fs))) c
  | CnoVideo => with_last_output (set_video None) c
  | CvideoCodec x => with_last_output (assign_video (set_v_codec (Some x))) c
  | CvideoBitrate x => with_last_output (assign_video (set_v_bitrate (Some x))) c
  | Cfps x => with_last_output (assign_video (set_v_fps (Some x))) c
  | Cframes x => with_last_output (assign_video (set_frames (Some x))) c
  | Csize sz =>
      match parse_size sz with
      | Ok spec => with_last_output (assign_video (set_size (Some spec))) c
      | Throw _ => c
      end
  | CvideoFilters fs =>
      with_last_output (assign_video (add_video_filters (flat fs))) c
  | Cduration t => with_last_output (set_duration (Some t)) c
  | Cseek t => with_last_output (set_out_startTime (Some t)) c
  | Cformat f => with_last_output (set_out_format (Some f)) c
  | Crun _ _ => c
  end.

(** The actions that construct a bridge. *)
Definition opens_bridge (a : Bridge.action) : bool :=
  match a with
  | Bridge.NewInput _ | Bridge.NewOutput _ _ => true
  | _ => false
  end.

Definition run_call (k : call) : bool :=
  match k with
  | Crun _ _ => true
  | _ => false
  end.

(** The setting a call assigns, numbered; [input], [output] and [run]
    assign none. *)
Definition setting_slot (k : call) : option nat :=
  match k with
  | Cinput _ | Coutput _ | Crun _ _ => None
  | CinputFormat _ => Some 1%nat
  | CinputFPS _ => Some 2%nat
  | Cnative => Some 3%nat
  | CseekInput _ => Some 4%nat
  | Cloop _ => Some 5%nat
  | CinputOptions _ => Some 6%nat
  | CoutputOptions _ => Some 7%nat
  | CnoAudio => Some 8%nat
  | CaudioCodec _ => Some 9%nat
  | CaudioBitrate _ => Some 10%nat
  | CaudioChannels _ => Some 11%nat
  | CaudioFrequency _ => Some 12%nat
  | CaudioQuality _ => Some 13%nat
  | CaudioFilters _ => Some 14%nat
  | CnoVideo => Some 15%nat
  | CvideoCodec _ => Some 16%nat
  | CvideoBitrate _ => Some 17%nat
  | Cfps _ => Some 18%nat
  | Cframes _ => Some 19%nat
  | Csize _ => Some 20%nat
  | CvideoFilters _ => Some 21%nat
  | Cduration _ => Some 22%nat
  | Cseek _ => Some 23%nat
  | Cformat _ => Some 24%nat
  end.

(** Two calls that assign different settings. *)
Definition different_settings (k1 k2 : call) : bool :=
  match setting_slot k1, setting_slot k2 with
  | Some a, Some b => negb (Nat.eqb a b)
  | _, _ => false
  end.

(** The calls that add the inputs and the outputs of a list of paths. *)
Definition path_calls (ins outs : list string) : list call :=
  map (fun p => Cinput (SrcPath p)) ins
  ++ map (fun p => Coutput (DstPath p)) outs.

End Predicates.

(** * Properties *)

Import JS FFmpeg.

(** ** Rounding *)

Module NumberFacts.

Lemma pow_pos (b k : Z) : 0 < b -> 0 <= k -> 0 < b ^ k.
Proof. intros Hb Hk. now apply Z.pow_pos_nonneg. Qed.

Lemma round_half_even_floor n d : n / d <= round_half_even n d.
Proof. unfold round_half_even. destruct (_ || _); lia. Qed.

Lemma round_half_even_one n : round_half_even n 1 = n.
Proof.
  unfold round_half_even. rewrite Z.div_1_r, Z.mod_1_r. reflexivity.
Qed.

Lemma trailing_zeros_nonneg p : 0 <= trailing_zeros p.
Proof. induction p; cbn [trailing_zeros]; lia. Qed.

Lemma ctz_nonneg z : 0 <= ctz z.
Proof. destruct z; cbn [ctz]; try lia. apply trailing_zeros_nonneg. Qed.

Lemma ctz_double z : 0 < z -> ctz (2 * z) = 1 + ctz z.
Proof. destruct z; try lia. reflexivity. Qed.

Lemma ctz_shift v k : 0 < v -> 0 <= k -> k <= ctz (v * 2 ^ k).
Proof.
  intros Hv Hk. revert k Hk. apply natlike_ind.
  - rewrite Z.mul_1_r. apply ctz_nonneg.
  - intros k Hk IH. rewrite Z.pow_succ_r by exact Hk.
    replace (v * (2 * 2 ^ k)) with (2 * (v * 2 ^ k)) by ring.
    pose proof (pow_pos 2 k ltac:(lia) Hk).
    rewrite ctz_double by nia. lia.
Qed.

(** An integer times a power of two, as a decimal. *)
Lemma dyadic_integer s v k :
  0 < v -> 0 <= k ->
  dyadic s (v * 2 ^ k) (- k) = Fin (if s then - v else v) 0.
Proof.
  intros Hv Hk. unfold dyadic.
  pose proof (ctz_shift v k Hv Hk) as Hc.
  pose proof (pow_pos 2 k ltac:(lia) Hk) as Hp.
  destruct (Z.ltb_spec (- k) 0) as [Hlt|Hge].
  - rewrite Z.min_r by lia. rewrite Z.opp_involutive.
    rewrite Z.div_mul by lia.
    replace (- k + k) with 0 by lia.
    change (0 <=? 0) with true. cbv iota.
    change (2 ^ 0) with 1. rewrite Z.mul_1_r. reflexivity.
  - assert (k = 0) by lia. subst k.
    change (2 ^ 0) with 1. rewrite Z.mul_1_r, Z.div_1_r.
    change (- 0 + 0) with 0. change (0 <=? 0) with true. cbv iota.
    change (2 ^ 0) with 1. rewrite Z.mul_1_r. reflexivity.
Qed.

Lemma log2_ratio_integer v : 0 < v -> log2_ratio v 1 = Z.log2 v.
Proof.
  intros Hv. unfold log2_ratio. change (Z.log2 1) with 0.
  rewrite Z.sub_0_r.
  pose proof (Z.log2_nonneg v) as Hl.
  destruct (Z.leb_spec 0 (Z.log2 v)) as [_|]; [|lia].
  pose proof (Z.log2_spec v Hv) as [Hlow _].
  destruct (Z.leb_spec (1 * 2 ^ Z.log2 v) v); [reflexivity|lia].
Qed.

(** An integer below [2^53] is a binary64 value. *)
Lemma binary64_integer v : 0 < v < 2 ^ 53 -> binary64 v 0 = Fin v 0.
Proof.
  intros [Hv Hb]. unfold binary64.
  destruct (Z.eqb_spec v 0) as [|_]; [lia|].
  rewrite Z.abs_eq by lia.
  change (0 <=? 0) with true. cbv iota.
  change (10 ^ 0) with 1. rewrite Z.mul_1_r.
  rewrite log2_ratio_integer by exact Hv.
  pose proof (Z.log2_nonneg v) as Hl.
  assert (Hl52 : Z.log2 v < 53) by (apply Z.log2_lt_pow2; lia).
  rewrite Z.max_l by lia.
  set (k := 52 - Z.log2 v).
  replace (Z.log2 v - 52) with (- k) by (unfold k; lia).
  assert (Hk : 0 <= k) by (unfold k; lia).
  pose proof (pow_pos 2 k ltac:(lia) Hk) as Hp.
  destruct (Z.ltb_spec v 0) as [|_]; [lia|].
  destruct (Z.leb_spec 0 (- k)) as [H0|H0].
  - assert (k = 0) by lia.
    replace (- k) with 0 by lia.
    change (2 ^ 0) with 1. rewrite Z.mul_1_r, round_half_even_one.
    destruct (Z.eqb_spec v 0) as [|_]; [lia|].
    set (B := 2 ^ 1024).
    assert (HB : 2 ^ 53 <= B) by (subst B; apply Z.pow_le_mono_r; lia).
    destruct (Z.leb_spec B (v * 1)) as [|_]; [lia|].
    cbn [andb].
    replace v with (v * 2 ^ 0) at 1 by (change (2 ^ 0) with 1; lia).
    change 0 with (- 0) at 2.
    now rewrite dyadic_integer by lia.
  - rewrite Z.opp_involutive, round_half_even_one.
    destruct (Z.eqb_spec (v * 2 ^ k) 0) as [|_]; [nia|].
    cbn [andb]. now rewrite dyadic_integer by lia.
Qed.

Lemma log2_ratio_low n d :
  0 < d -> d <= n -> 0 <= log2_ratio n d /\ d * 2 ^ log2_ratio n d <= n.
Proof.
  intros Hd Hn. unfold log2_ratio.
  assert (Hmono : Z.log2 d <= Z.log2 n) by (apply Z.log2_le_mono; lia).
  set (l := Z.log2 n - Z.log2 d).
  assert (Hl : 0 <= l) by (unfold l; lia).
  destruct (Z.leb_spec 0 l) as [_|]; [|lia].
  destruct (Z.leb_spec (d * 2 ^ l) n) as [Hle|Hgt]; [now split|].
  assert (Hl1 : 1 <= l).
  { destruct (Z.eq_dec l 0) as [E|]; [|lia].
    rewrite E in Hgt. change (2 ^ 0) with 1 in Hgt. lia. }
  split; [lia|].
  pose proof (Z.log2_spec d Hd) as [_ Hup].
  pose proof (Z.log2_spec n ltac:(lia)) as [Hlow _].
  pose proof (Z.log2_nonneg d) as Hld.
  assert (Hpow : 2 ^ Z.log2 n = 2 ^ Z.succ (Z.log2 d) * 2 ^ (l - 1)).
  { rewrite <- Z.pow_add_r by lia. f_equal. unfold l. lia. }
  pose proof (pow_pos 2 (l - 1) ltac:(lia) ltac:(lia)) as Hp.
  nia.
Qed.

(** A decimal that is at least 1 rounds to a binary64 value that is at
    least 1, so its integer part is at least 1. *)
Lemma binary64_at_least_one m e :
  0 < m -> (e < 0 -> 10 ^ (- e) <= m) ->
  match ToIntegerOrInfinity (binary64 m e) with
  | IInf negative => negative = false
  | IInt r => 1 <= r
  end.
Proof.
  intros Hm He. unfold binary64.
  destruct (Z.eqb_spec m 0) as [|_]; [lia|].
  rewrite Z.abs_eq by lia.
  destruct (Z.ltb_spec m 0) as [|_]; [lia|].
  set (n := if 0 <=? e then m * 10 ^ e else m).
  set (d := if 0 <=? e then 1 else 10 ^ (- e)).
  assert (Hnd : 0 < d /\ d <= n).
  { unfold n, d. destruct (Z.leb_spec 0 e) as [H0|H0].
    - pose proof (pow_pos 10 e ltac:(lia) H0). nia.
    - pose proof (pow_pos 10 (- e) ltac:(lia) ltac:(lia)).
      specialize (He H0). lia. }
  destruct Hnd as [Hd Hn].
  destruct (log2_ratio_low n d Hd Hn) as [Hl Hlow].
  set (lg := log2_ratio n d) in *.
  rewrite Z.max_l by lia.
  set (x := lg - 52).
  destruct (Z.leb_spec 0 x) as [Hx|Hx].
  - set (q := round_half_even n (d * 2 ^ x)).
    assert (Hq : 1 <= q).
    { pose proof (round_half_even_floor n (d * 2 ^ x)) as Hf. fold q in Hf.
      pose proof (pow_pos 2 x ltac:(lia) Hx) as Hp.
      assert (Hle : 2 ^ x <= 2 ^ lg) by (apply Z.pow_le_mono_r; lia).
      assert (1 <= n / (d * 2 ^ x)); [|lia].
      apply Z.div_le_lower_bound; nia. }
    destruct (Z.eqb_spec q 0) as [|_]; [lia|].
    cbn [andb].
    destruct (2 ^ 1024 <=? q * 2 ^ x); [reflexivity|].
    unfold dyadic.
    destruct (Z.ltb_spec x 0) as [|_]; [lia|].
    change (2 ^ 0) with 1. rewrite Z.div_1_r, Z.add_0_r.
    destruct (Z.leb_spec 0 x) as [_|]; [|lia].
    rewrite Z.min_r by lia. simpl.
    pose proof (pow_pos 2 x ltac:(lia) Hx) as Hp.
    rewrite Z.mul_1_r. nia.
  - set (q := round_half_even (n * 2 ^ (- x)) d).
    pose proof (pow_pos 2 (- x) ltac:(lia) ltac:(lia)) as Hp.
    assert (Hq : 2 ^ (- x) <= q).
    { pose proof (round_half_even_floor (n * 2 ^ (- x)) d) as Hf.
      fold q in Hf.
      assert (2 ^ (- x) <= (n * 2 ^ (- x)) / d); [|lia].
      apply Z.div_le_lower_bound; nia. }
    destruct (Z.eqb_spec q 0) as [|_]; [lia|].
    cbn [andb]. unfold dyadic.
    destruct (Z.ltb_spec x 0) as [_|]; [|lia].
    pose proof (ctz_nonneg q) as Hc.
    set (t := Z.min (ctz q) (- x)).
    assert (Ht : 0 <= t <= - x) by (unfold t; lia).
    pose proof (pow_pos 2 t ltac:(lia) ltac:(lia)) as Hpt.
    set (k := - (x + t)).
    assert (Hk : 0 <= k) by (unfold k; lia).
    pose proof (pow_pos 2 k ltac:(lia) Hk) as Hpk.
    assert (Hq1 : 2 ^ k <= q / 2 ^ t).
    { apply Z.div_le_lower_bound; [lia|].
      rewrite <- Z.pow_add_r by lia.
      replace (t + k) with (- x) by (unfold k; lia). exact Hq. }
    destruct (Z.leb_spec 0 (x + t)) as [H0|H0].
    + replace (x + t) with 0 by lia.
      change (2 ^ 0) with 1. rewrite Z.mul_1_r.
      assert (k = 0) by (unfold k; lia).
      replace k with 0 in Hq1 by lia. change (2 ^ 0) with 1 in Hq1.
      simpl. rewrite Z.mul_1_r. lia.
    + rewrite Z.min_l by lia. simpl.
      destruct (Z.leb_spec 0 (x + t)) as [|_]; [lia|].
      fold k.
      pose proof (pow_pos 5 k ltac:(lia) Hk) as Hp5.
      pose proof (pow_pos 10 k ltac:(lia) Hk) as Hp10.
      assert (H10 : 10 ^ k = 2 ^ k * 5 ^ k).
      { change 10 with (2 * 5). apply Z.pow_mul_l. }
      rewrite Z.quot_div_nonneg by nia.
      apply Z.div_le_lower_bound; nia.
Qed.

End NumberFacts.

(** ** The diagnostic buffer *)

Module StderrFacts.
Import NumberFacts.

Lemma pow10_pos (k : Z) : 0 <= k -> 0 < 10 ^ k.
Proof. intros H. apply Z.pow_pos_nonneg; lia. Qed.

Lemma skipn_skipn_add {A} (a b : nat) (l : list A) :
  skipn a (skipn b l) = skipn (b + a) l.
Proof.
  revert l; induction b as [|b IH]; intros l; simpl.
  - reflexivity.
  - destruct l as [|x l]; simpl.
    + now rewrite skipn_nil.
    + apply IH.
Qed.

Lemma skipn_app_le {A} (n : nat) (l r : list A) :
  (n <= List.length l)%nat -> skipn n (l ++ r) = skipn n l ++ r.
Proof.
  intros H. rewrite skipn_app.
  replace (n - List.length l)%nat with O by lia. reflexivity.
Qed.

Lemma processStderr_buffer line c :
  _stderrLines (processStderr line c)
  = buffer_step (stdoutLines (_options c)) (_stderrLines c) line.
Proof.
  unfold processStderr, buffer_step; simpl.
  destruct (stdoutLines (_options c)) as [M|]; [|reflexivity].
  destruct (num_truthy M && _); reflexivity.
Qed.

Lemma processStderr_options line c :
  _options (processStderr line c) = _options c.
Proof.
  unfold processStderr; simpl.
  destruct (stdoutLines (_options c)) as [M|]; [|reflexivity].
  destruct (num_truthy M && _); reflexivity.
Qed.

Lemma feed_buffer lines : forall c,
  _stderrLines (feed lines c)
  = fold_left (buffer_step (stdoutLines (_options c))) lines (_stderrLines c).
Proof.
  induction lines as [|line lines IH]; intros c; simpl.
  - reflexivity.
  - unfold feed in *; simpl. rewrite IH.
    now rewrite processStderr_options, processStderr_buffer.
Qed.

(** A negative number: below zero, finite or not. *)
Lemma negative_cases (M : number) :
  num_ltb M (of_Z 0) = true ->
  M = Infinity true \/ exists m e, M = Fin m e /\ m < 0.
Proof.
  destruct M as [|[|]|m e]; simpl; try discriminate; intros H.
  - now left.
  - right. exists m, e. split; [reflexivity|].
    unfold scale in H. apply Z.ltb_lt in H.
    assert (0 < 10 ^ (e - Z.min e 0)) by (apply pow10_pos; lia).
    nia.
Qed.

(** [slice] drops a prefix. *)
Lemma slice_skipn {A} (l : list A) (start : number) :
  exists k, slice l start = skipn k l.
Proof. unfold slice. eexists. reflexivity. Qed.

(** A start whose integer part is at least 1 drops at least one
    element. *)
Lemma slice_at_least_one {A} (l : list A) (start : number) :
  match ToIntegerOrInfinity start with
  | IInf negative => negative = false
  | IInt r => 1 <= r
  end ->
  exists k, (1 <= k)%nat /\ slice l start = skipn k l.
Proof.
  unfold slice. destruct (ToIntegerOrInfinity start) as [neg|r]; intros H.
  - subst neg. destruct l as [|x l].
    + exists 1%nat. split; [lia|reflexivity].
    + eexists. split; [|reflexivity]. simpl List.length. lia.
  - destruct (Z.ltb_spec r 0) as [|_]; [lia|].
    destruct l as [|x l].
    + exists 1%nat. split; [lia|]. now rewrite !skipn_nil.
    + eexists. split; [|reflexivity]. simpl List.length. lia.
Qed.

(** With a negative maximum and an empty buffer the trim fires and the
    slice starts at or beyond the end: the difference between the length
    1 and the maximum is at least 1, and so is its binary64 value. *)
Lemma buffer_step_negative M line :
  num_ltb M (of_Z 0) = true -> buffer_step (Some M) [] line = [].
Proof.
  intros H. unfold buffer_step. cbn [app List.length].
  destruct (negative_cases M H) as [->|(m & e & -> & Hm)].
  - reflexivity.
  - assert (Ht : num_truthy (Fin m e) = true).
    { simpl. apply negb_true_iff, Z.eqb_neq. lia. }
    assert (Hg : num_gtb (of_nat 1) (Fin m e) = true).
    { unfold num_gtb, of_nat, num_ltb. apply Z.ltb_lt. unfold scale.
      assert (0 < 10 ^ (e - Z.min e 0)) by (apply pow10_pos; lia).
      assert (0 < 10 ^ (0 - Z.min e 0)) by (apply pow10_pos; lia).
      change (Z.of_nat 1) with 1. nia. }
    rewrite Ht, Hg. cbn [andb].
    destruct (slice_at_least_one [line] (num_sub (of_nat 1) (Fin m e)))
      as (k & Hk & ->).
    + unfold num_sub, of_nat. change (Z.of_nat 1) with 1.
      apply binary64_at_least_one; unfold scale.
      * assert (0 < 10 ^ (0 - Z.min 0 e)) by (apply pow10_pos; lia).
        assert (0 < 10 ^ (e - Z.min 0 e)) by (apply pow10_pos; lia).
        nia.
      * intros He.
        replace (0 - Z.min 0 e) with (- Z.min 0 e) by lia.
        assert (0 < 10 ^ (e - Z.min 0 e)) by (apply pow10_pos; lia).
        nia.
    + destruct k as [|k]; [lia|]. simpl. apply skipn_nil.
Qed.

Lemma ceiling_positive m e : 0 < m -> 1 <= ceiling m e.
Proof.
  intros Hm. unfold ceiling. destruct (Z.leb_spec 0 e) as [He|He].
  - assert (0 < 10 ^ e) by (apply pow10_pos; lia). nia.
  - assert (HP : 0 < 10 ^ (- e)) by (apply pow10_pos; lia).
    assert ((- m) / 10 ^ (- e) < 0); [|lia].
    apply Z.div_lt_upper_bound; [exact HP|]. lia.
Qed.

(** With a positive finite maximum: when the trim does not fire the
    array is no longer than the ceiling of the maximum; when it fires,
    either that holds as well or the slice drops at least one element. *)
Lemma trim_positive {A} m e (l : list A) :
  0 < m ->
  let len := Z.of_nat (List.length l) in
  if num_gtb (of_nat (List.length l)) (Fin m e)
  then exists k,
         slice l (num_sub (of_nat (List.length l)) (Fin m e)) = skipn k l
         /\ (len <= ceiling m e \/ (1 <= k)%nat)
  else len <= ceiling m e.
Proof.
  intros Hm len.
  destruct (num_gtb (of_nat (List.length l)) (Fin m e)) eqn:Hg.
  - set (e0 := Z.min 0 e).
    set (mm := scale len 0 e0 - scale m e e0).
    assert (Hsub : num_sub (of_nat (List.length l)) (Fin m e)
                   = binary64 mm e0) by reflexivity.
    assert (Hpos : 0 < mm).
    { unfold num_gtb, of_nat, num_ltb in Hg. apply Z.ltb_lt in Hg.
      unfold mm, e0. fold len in Hg.
      replace (Z.min 0 e) with (Z.min e 0) by lia. lia. }
    destruct (Z_lt_le_dec mm (10 ^ (- e0))) as [Hsmall|Hbig].
    + destruct (slice_skipn l (num_sub (of_nat (List.length l)) (Fin m e)))
        as [k Hk].
      exists k. split; [exact Hk|]. left.
      unfold mm, scale, ceiling, e0 in *.
      destruct (Z.leb_spec 0 e) as [He|He].
      * replace (Z.min 0 e) with 0 in * by lia.
        replace (0 - 0) with 0 in * by lia. rewrite Z.sub_0_r in *.
        change (- 0) with 0 in Hsmall. change (10 ^ 0) with 1 in *.
        lia.
      * replace (Z.min 0 e) with e in * by lia.
        replace (e - e) with 0 in * by lia.
        replace (0 - e) with (- e) in * by lia.
        change (10 ^ 0) with 1 in *.
        assert (HP : 0 < 10 ^ (- e)) by (apply pow10_pos; lia).
        assert ((- m) / 10 ^ (- e) <= - len); [|lia].
        assert ((- m) / 10 ^ (- e) < - len + 1); [|lia].
        apply Z.div_lt_upper_bound; [exact HP|]. nia.
    + destruct (slice_at_least_one l
                  (num_sub (of_nat (List.length l)) (Fin m e)))
        as (k & Hk & Hs).
      * rewrite Hsub. apply binary64_at_least_one; [exact Hpos|].
        intros _. exact Hbig.
      * exists k. split; [exact Hs|]. now right.
  - unfold num_gtb, of_nat, num_ltb, scale, ceiling in *. fold len in Hg.
    apply Z.ltb_ge in Hg.
    destruct (Z.leb_spec 0 e) as [He|He].
    + replace (Z.min e 0) with 0 in Hg by lia.
      replace (0 - 0) with 0 in Hg by lia. rewrite Z.sub_0_r in Hg.
      change (10 ^ 0) with 1 in Hg. lia.
    + replace (Z.min e 0) with e in Hg by lia.
      replace (e - e) with 0 in Hg by lia.
      replace (0 - e) with (- e) in Hg by lia.
      change (10 ^ 0) with 1 in Hg.
      assert (HP : 0 < 10 ^ (- e)) by (apply pow10_pos; lia).
      assert ((- m) / 10 ^ (- e) <= - len); [|lia].
      apply Z.div_le_upper_bound; [exact HP|]. nia.
Qed.

Lemma last_n_length {A} (n : nat) (l : list A) :
  List.length (last_n n l) = Nat.min n (List.length l).
Proof. unfold last_n. rewrite length_skipn. lia. Qed.

Lemma last_n_suffix {A} (l : list A) (j : nat) :
  skipn j l = last_n (List.length (skipn j l)) l.
Proof.
  unfold last_n. rewrite length_skipn.
  destruct (Nat.le_gt_cases j (List.length l)) as [H|H].
  - f_equal. lia.
  - rewrite skipn_all2 by lia.
    replace (List.length l - (List.length l - j))%nat
      with (List.length l) by lia.
    now rewrite skipn_all.
Qed.

(** One line more with a positive finite maximum: the buffer stays a
    suffix of what was delivered, no longer than the ceiling of the
    maximum. *)
Lemma buffer_step_bounded m e (ls buf : list string) line :
  0 < m ->
  buf = last_n (List.length buf) ls ->
  Z.of_nat (List.length buf) <= ceiling m e ->
  let buf' := buffer_step (Some (Fin m e)) buf line in
  buf' = last_n (List.length buf') (ls ++ [line])
  /\ Z.of_nat (List.length buf') <= ceiling m e.
Proof.
  intros Hm Hsuf Hlen buf'.
  assert (Hl : buf ++ [line]
               = skipn (List.length ls - List.length buf) (ls ++ [line])).
  { rewrite Hsuf at 1. unfold last_n. rewrite skipn_app_le by lia.
    reflexivity. }
  assert (Hall : forall k, skipn k (buf ++ [line])
                           = last_n (List.length (skipn k (buf ++ [line])))
                                    (ls ++ [line])).
  { intros k. rewrite Hl, skipn_skipn_add. apply last_n_suffix. }
  subst buf'. unfold buffer_step.
  assert (Ht : num_truthy (Fin m e) = true).
  { simpl. apply negb_true_iff, Z.eqb_neq. lia. }
  rewrite Ht, andb_true_l.
  pose proof (trim_positive m e (buf ++ [line]) Hm) as Htrim.
  cbv zeta in Htrim.
  destruct (num_gtb (of_nat (List.length (buf ++ [line]))) (Fin m e)).
  - destruct Htrim as (k & -> & Hk). split; [apply Hall|].
    rewrite length_skipn.
    rewrite length_app in *. simpl List.length in *. lia.
  - split; [apply (Hall 0%nat)|exact Htrim].
Qed.

Lemma fold_buffer_bounded m e lines : forall ls buf : list string,
  0 < m ->
  buf = last_n (List.length buf) ls ->
  Z.of_nat (List.length buf) <= ceiling m e ->
  let buf' := fold_left (buffer_step (Some (Fin m e))) lines buf in
  buf' = last_n (List.length buf') (ls ++ lines)
  /\ Z.of_nat (List.length buf') <= ceiling m e.
Proof.
  induction lines as [|line lines IH]; intros ls buf Hm Hsuf Hlen;
    cbn [fold_left].
  - rewrite app_nil_r. now split.
  - destruct (buffer_step_bounded m e ls buf line Hm Hsuf Hlen) as [H1 H2].
    destruct (IH (ls ++ [line]) _ Hm H1 H2) as [H3 H4].
    rewrite <- app_assoc in H3. now split.
Qed.

(** The difference between a length and an integer maximum one below it
    is 1, which is a binary64 value. *)
Lemma trim_integer {A} (M : Z) (l : list A) :
  0 < M -> Z.of_nat (List.length l) = M + 1 ->
  slice l (num_sub (of_nat (List.length l)) (of_Z M)) = skipn 1 l.
Proof.
  intros HM Hlen. unfold num_sub, of_nat, of_Z, scale.
  rewrite Hlen. change (Z.min 0 0) with 0. change (0 - 0) with 0.
  change (10 ^ 0) with 1. rewrite !Z.mul_1_r.
  replace (M + 1 - M) with 1 by lia.
  rewrite binary64_integer by (split; [lia|reflexivity]).
  unfold slice, ToIntegerOrInfinity. rewrite Hlen.
  change (0 <=? 0) with true. cbv iota.
  change (1 * 10 ^ 0) with 1. change (1 <? 0) with false. cbv iota.
  now rewrite Z.min_l by lia.
Qed.

(** One line more with a positive integer maximum: the buffer holds the
    last [M] lines of everything delivered so far. *)
Lemma buffer_step_integer (M : Z) (ls : list string) line :
  0 < M ->
  let C := Z.to_nat M in
  buffer_step (Some (of_Z M)) (last_n C ls) line = last_n C (ls ++ [line]).
Proof.
  intros HM C. unfold buffer_step.
  assert (Ht : num_truthy (of_Z M) = true).
  { simpl. apply negb_true_iff, Z.eqb_neq. lia. }
  rewrite Ht, andb_true_l.
  assert (Hl : last_n C ls ++ [line]
               = skipn (List.length ls - C) (ls ++ [line])).
  { unfold last_n. rewrite skipn_app_le by lia. reflexivity. }
  assert (Hlen : List.length (last_n C ls ++ [line])
                 = S (Nat.min C (List.length ls))).
  { rewrite length_app, last_n_length. simpl. lia. }
  destruct (num_gtb (of_nat (List.length (last_n C ls ++ [line]))) (of_Z M))
    eqn:Hg.
  - assert (Hfull : Z.of_nat (List.length (last_n C ls ++ [line])) = M + 1).
    { unfold num_gtb, of_nat, of_Z, num_ltb, scale in Hg.
      apply Z.ltb_lt in Hg. change (Z.min 0 0) with 0 in Hg.
      change (0 - 0) with 0 in Hg. change (10 ^ 0) with 1 in Hg.
      rewrite Hlen in *. lia. }
    rewrite trim_integer by assumption.
    rewrite Hl, skipn_skipn_add.
    unfold last_n. rewrite length_app. simpl List.length.
    f_equal. rewrite Hlen in Hfull. lia.
  - unfold num_gtb, of_nat, of_Z, num_ltb, scale in Hg.
    apply Z.ltb_ge in Hg. change (Z.min 0 0) with 0 in Hg.
    change (0 - 0) with 0 in Hg. change (10 ^ 0) with 1 in Hg.
    rewrite Hlen in Hg.
    rewrite Hl. unfold last_n. rewrite length_app. simpl List.length.
    f_equal. lia.
Qed.

Lemma fold_buffer_integer (M : Z) lines : forall ls : list string,
  0 < M ->
  let C := Z.to_nat M in
  fold_left (buffer_step (Some (of_Z M))) lines (last_n C ls)
  = last_n C (ls ++ lines).
Proof.
  induction lines as [|line lines IH]; intros ls HM C; subst C;
    cbn [fold_left].
  - now rewrite app_nil_r.
  - rewrite buffer_step_integer by exact HM.
    rewrite (IH (ls ++ [line]) HM).
    now rewrite <- app_assoc.
Qed.

(** Without a trim every line is kept: a maximum that is falsy, or one
    that no length exceeds. *)
Lemma fold_buffer_untrimmed max lines : forall buf : list string,
  match max with
  | Some M => num_truthy M = false \/ M = Infinity false
  | None => True
  end ->
  fold_left (buffer_step max) lines buf = buf ++ lines.
Proof.
  induction lines as [|line lines IH]; intros buf H; cbn [fold_left].
  - now rewrite app_nil_r.
  - rewrite IH by exact H.
    unfold buffer_step. destruct max as [M|].
    + destruct H as [H| ->].
      * rewrite H. simpl. now rewrite <- app_assoc.
      * simpl. now rewrite <- app_assoc.
    + now rewrite <- app_assoc.
Qed.

Lemma fold_buffer_negative M lines :
  num_ltb M (of_Z 0) = true ->
  fold_left (buffer_step (Some M)) lines [] = [].
Proof.
  intros H. induction lines as [|line lines IH]; cbn [fold_left].
  - reflexivity.
  - now rewrite buffer_step_negative.
Qed.

Lemma feed_positive_max M lines c :
  0 < M ->
  stdoutLines (_options c) = Some (of_Z M) ->
  _stderrLines c = [] ->
  _stderrLines (feed lines c) = last_n (Z.to_nat M) lines.
Proof.
  intros Hm Ho Hb. rewrite feed_buffer, Ho, Hb.
  change (@nil string) with (last_n (Z.to_nat M) (@nil string)).
  now rewrite fold_buffer_integer.
Qed.

(** C3, as stated, fails: with the maximum configured to -1, two lines
    are delivered and neither is retained. *)
Lemma stderr_negative_max_not_retained :
  num_ltb (of_Z (-1)) (of_Z 0) = true /\
  _stderrLines (feed ["frame=1"; "frame=2"] (with_stdoutLines (Some (of_Z (-1)))))
  <> ["frame=1"; "frame=2"].
Proof. split; [reflexivity|]. vm_compute. discriminate. Qed.

(** C3 (amended): with the maximum configured to a negative number the
    trim condition holds after every line (a length is greater than any
    negative number) and the slice starts at or beyond the end, so the
    buffer is empty after every delivered line. *)
Theorem stderr_negative_max_empties_buffer :
  forall (M : number) (lines : list string),
    num_ltb M (of_Z 0) = true ->
    _stderrLines (feed lines (with_stdoutLines (Some M))) = [].
Proof.
  intros M lines H. rewrite feed_buffer. simpl.
  now apply fold_buffer_negative.
Qed.

Lemma stderr_negative_max_empties_buffer_witness :
  num_ltb (Fin (-25) (-1)) (of_Z 0) = true /\
  _stderrLines (feed ["frame=1"; "frame=2"; "frame=3"]
                  (with_stdoutLines (Some (Fin (-25) (-1))))) = [].
Proof.
  split; [reflexivity|].
  apply (stderr_negative_max_empties_buffer (Fin (-25) (-1))).
  reflexivity.
Defined.

(** C8, as stated, fails: 2.5 is a positive maximum, and after four lines
    the buffer holds three, which is more than 2.5. *)
Lemma stderr_fractional_max_exceeded :
  num_ltb (of_Z 0) (Fin 25 (-1)) = true
  /\ _stderrLines (feed ["a"; "b"; "c"; "d"]
                     (with_stdoutLines (Some (Fin 25 (-1)))))
     = ["b"; "c"; "d"]%string
  /\ num_gtb
       (of_nat (List.length
                  (_stderrLines (feed ["a"; "b"; "c"; "d"]
                                   (with_stdoutLines (Some (Fin 25 (-1))))))))
       (Fin 25 (-1)) = true.
Proof. vm_compute. repeat split. Qed.

(** C8 (amended): with the default configuration 150 lines leave the last
    100 in their order; with a positive integer maximum [M] the buffer
    holds the last [M] lines delivered (all of them while there are
    fewer), so never more than [M]; with any positive finite maximum the
    buffer holds the most recent lines and never more of them than the
    least integer that is not below the maximum; with a maximum that is
    0, NaN, undefined or [Infinity] every line is kept. *)
Theorem stderr_buffer_keeps_last_lines :
  (forall lines : list string,
     List.length lines = 150%nat ->
     _stderrLines (feed lines (new_FFmpegCommand None)) = skipn 50 lines
     /\ List.length (_stderrLines (feed lines (new_FFmpegCommand None)))
        = 100%nat)
  /\
  (forall (M : Z) (lines : list string),
     0 < M ->
     _stderrLines (feed lines (with_stdoutLines (Some (of_Z M))))
     = last_n (Z.to_nat M) lines
     /\ Z.of_nat (List.length
                    (_stderrLines (feed lines (with_stdoutLines (Some (of_Z M))))))
        <= M)
  /\
  (forall (m e : Z) (lines : list string),
     0 < m ->
     let buf := _stderrLines (feed lines (with_stdoutLines (Some (Fin m e)))) in
     buf = last_n (List.length buf) lines
     /\ Z.of_nat (List.length buf) <= ceiling m e)
  /\
  (forall (max : option number) (lines : list string),
     match max with
     | Some M => num_truthy M = false \/ M = Infinity false
     | None => True
     end ->
     _stderrLines (feed lines (with_stdoutLines max)) = lines).
Proof.
  split; [|split; [|split]].
  - intros lines Hlen.
    rewrite (feed_positive_max 100) by (reflexivity || lia).
    change (Z.to_nat 100) with 100%nat.
    unfold last_n. rewrite Hlen. change (150 - 100)%nat with 50%nat.
    split; [reflexivity|]. rewrite length_skipn. lia.
  - intros M lines HM.
    rewrite (feed_positive_max M) by (reflexivity || lia).
    split; [reflexivity|].
    rewrite last_n_length. lia.
  - intros m e lines Hm buf. subst buf. rewrite feed_buffer.
    change (stdoutLines (_options (with_stdoutLines (Some (Fin m e)))))
      with (Some (Fin m e)).
    change (_stderrLines (with_stdoutLines (Some (Fin m e))))
      with (@nil string).
    apply (fold_buffer_bounded m e lines [] [] Hm); [reflexivity|].
    pose proof (ceiling_positive m e Hm). simpl. lia.
  - intros max lines H. rewrite feed_buffer. simpl.
    now rewrite fold_buffer_untrimmed.
Qed.

Lemma stderr_buffer_keeps_last_lines_witness :
  _stderrLines (feed ["a"; "b"; "c"; "d"; "e"] (with_stdoutLines (Some (of_Z 2))))
  = ["d"; "e"]
  /\ Z.of_nat (List.length
                 (_stderrLines (feed ["a"; "b"; "c"; "d"]
                                  (with_stdoutLines (Some (Fin 25 (-1)))))))
     <= ceiling 25 (-1)
  /\ _stderrLines (feed ["a"; "b"; "c"] (with_stdoutLines (Some (of_Z 0))))
     = ["a"; "b"; "c"]
  /\ List.length (_stderrLines (feed (repeat "x"%string 150) (new_FFmpegCommand None)))
     = 100%nat.
Proof.
  destruct stderr_buffer_keeps_last_lines as (H150 & Hint & Hpos & Hkeep).
  split; [|split; [|split]].
  - destruct (Hint 2 ["a"; "b"; "c"; "d"; "e"]%string) as [-> _]; [lia|].
    reflexivity.
  - apply (Hpos 25 (-1) ["a"; "b"; "c"; "d"]%string). lia.
  - apply (Hkeep (Some (of_Z 0))). left. reflexivity.
  - apply (H150 (repeat "x"%string 150)). reflexivity.
Defined.

(** A maximum so small that the difference to the length rounds to the
    length itself keeps no line at all: [1 - 1e-17] is 1. *)
Example tiny_max_empties_buffer :
  _stderrLines (feed ["a"; "b"] (with_stdoutLines (Some (parseFloat "1e-17"))))
  = [].
Proof. vm_compute. reflexivity. Qed.

End StderrFacts.

(** ** The stream bridge *)

Module BridgeFacts.
Import Bridge.

Lemma nth_error_update_nth_eq {A} (f : A -> A) : forall (l : list A) n,
  nth_error (update_nth n f l) n = option_map f (nth_error l n).
Proof.
  induction l as [|x l IH]; intros [|n]; simpl; try reflexivity. apply IH.
Qed.

Lemma nth_error_update_nth_neq {A} (f : A -> A) : forall (l : list A) n k,
  n <> k -> nth_error (update_nth n f l) k = nth_error l k.
Proof.
  induction l as [|x l IH]; intros [|n] [|k] H; simpl; try reflexivity.
  - congruence.
  - apply IH. congruence.
Qed.

Lemma length_update_nth {A} (f : A -> A) : forall (l : list A) n,
  List.length (update_nth n f l) = List.length l.
Proof.
  induction l as [|x l IH]; intros [|n]; simpl; try reflexivity.
  now rewrite IH.
Qed.

Lemma update_nth_id {A} (f : A -> A) : forall (l : list A) n,
  (forall x, nth_error l n = Some x -> f x = x) -> update_nth n f l = l.
Proof.
  induction l as [|x l IH]; intros [|n] H; simpl; try reflexivity.
  - now rewrite (H x eq_refl).
  - f_equal. apply IH. exact H.
Qed.

Lemma set_servers_same w : set_servers (servers w) w = w.
Proof. destruct w; reflexivity. Qed.

Lemma listening_server_at k w :
  listening k w
  = match server_at k w with
    | Some s => match handle s with Some _ => true | None => false end
    | None => false
    end.
Proof. reflexivity. Qed.

Lemma Server_close_at k' k w :
  server_at k (Server_close k' w)
  = if Nat.eqb k' k then option_map closed_server (server_at k w)
    else server_at k w.
Proof.
  unfold server_at, Server_close.
  destruct (nth_error (servers w) k') as [[l [path|]]|] eqn:E; cbn [servers set_files set_servers].
  - destruct (Nat.eqb_spec k' k) as [->|Hne].
    + rewrite nth_error_update_nth_eq, E. reflexivity.
    + now apply nth_error_update_nth_neq.
  - destruct (Nat.eqb_spec k' k) as [->|Hne]; [|reflexivity].
    now rewrite E.
  - destruct (Nat.eqb_spec k' k) as [->|Hne]; [|reflexivity].
    now rewrite E.
Qed.

Lemma Server_close_closed k w :
  listening k w = false -> Server_close k w = w.
Proof.
  intros H. unfold Server_close. unfold listening in H.
  destruct (nth_error (servers w) k) as [[l [path|]]|]; simpl in H;
    [discriminate|reflexivity|reflexivity].
Qed.

Lemma Server_close_servers_length k w :
  List.length (servers (Server_close k w)) = List.length (servers w).
Proof.
  unfold Server_close.
  destruct (nth_error (servers w) k) as [[l [path|]]|];
    cbn [servers set_files set_servers]; [|reflexivity|reflexivity].
  apply length_update_nth.
Qed.

Lemma Server_close_frame k w :
  closeListeners (Server_close k w) = closeListeners w
  /\ accepted (Server_close k w) = accepted w
  /\ pipes (Server_close k w) = pipes w
  /\ platform (Server_close k w) = platform w
  /\ uuids (Server_close k w) = uuids w
  /\ uuid_next (Server_close k w) = uuid_next w.
Proof.
  unfold Server_close.
  destruct (nth_error (servers w) k) as [[l [path|]]|]; repeat split.
Qed.

Lemma Server_close_listening k' k w :
  listening k (Server_close k' w)
  = if Nat.eqb k' k then false else listening k w.
Proof.
  rewrite !listening_server_at, Server_close_at.
  destruct (Nat.eqb k' k); [|reflexivity].
  destruct (server_at k w) as [s|]; simpl; [|reflexivity].
  unfold closed_server. destruct (handle s) eqn:Hh; simpl; [reflexivity|].
  now rewrite Hh.
Qed.

Lemma stream_close_unfold stream w :
  stream_close stream w = close_listeners stream (closeListeners w) w.
Proof. reflexivity. Qed.

Lemma close_listeners_frame stream ls : forall w,
  closeListeners (close_listeners stream ls w) = closeListeners w
  /\ accepted (close_listeners stream ls w) = accepted w
  /\ pipes (close_listeners stream ls w) = pipes w
  /\ List.length (servers (close_listeners stream ls w))
     = List.length (servers w).
Proof.
  induction ls as [|[s [k]] ls IH]; intros w; simpl.
  - repeat split.
  - destruct (Nat.eqb s stream); [|apply IH].
    destruct (IH (Server_close k w)) as (H1 & H2 & H3 & H4).
    destruct (Server_close_frame k w) as (F1 & F2 & F3 & _).
    unfold close_listeners in *. simpl.
    rewrite H1, H2, H3, H4, F1, F2, F3, Server_close_servers_length.
    repeat split.
Qed.

(** A server listens after the listeners ran iff it listened before and
    none of them closes it. *)
Lemma close_listeners_listening stream k ls : forall w,
  listening k (close_listeners stream ls w)
  = listening k w
    && negb (existsb (fun '(s, CloseServer k') =>
                        Nat.eqb s stream && Nat.eqb k' k) ls).
Proof.
  induction ls as [|[s [k']] ls IH]; intros w; simpl.
  - now rewrite andb_true_r.
  - unfold close_listeners in *. simpl.
    destruct (Nat.eqb s stream); simpl.
    + rewrite IH, Server_close_listening.
      destruct (Nat.eqb k' k); simpl; [|reflexivity].
      now rewrite andb_false_r.
    + apply IH.
Qed.

Lemma close_listeners_onConnection stream k ls : forall w,
  option_map onConnection (server_at k (close_listeners stream ls w))
  = option_map onConnection (server_at k w).
Proof.
  induction ls as [|[s [k']] ls IH]; intros w; simpl.
  - reflexivity.
  - unfold close_listeners in *. simpl.
    destruct (Nat.eqb s stream); [|apply IH].
    rewrite IH, Server_close_at.
    destruct (Nat.eqb k' k); [|reflexivity].
    destruct (server_at k w) as [x|]; simpl; [|reflexivity].
    unfold closed_server. destruct (handle x); reflexivity.
Qed.

Lemma update_nth_app_last {A} (f : A -> A) (x : A) : forall l : list A,
  update_nth (List.length l) f (l ++ [x]) = l ++ [f x].
Proof.
  induction l as [|y l IH]; simpl; [reflexivity|]. now rewrite IH.
Qed.

(** The world after the constructor. *)
Lemma new_NamedPipeStream_facts stream l w :
  let b := fst (new_NamedPipeStream stream l w) in
  let w1 := snd (new_NamedPipeStream stream l w) in
  _server b = List.length (servers w)
  /\ servers w1
     = servers w ++ [{| onConnection := l; handle := Some (_socketPath b) |}]
  /\ closeListeners w1
     = closeListeners w ++ [(stream, CloseServer (List.length (servers w)))]
  /\ accepted w1 = accepted w
  /\ pipes w1 = pipes w.
Proof.
  unfold new_NamedPipeStream, randomUUID, statSync, unlinkSync, createServer,
    on_close, listen; simpl.
  destruct (platform w); simpl;
    match goal with
    | |- context [path_exists ?p ?x] => destruct (path_exists p x)
    end; simpl;
    rewrite ?update_nth_app_last; repeat split.
Qed.

Lemma server_at_lt k w srv :
  server_at k w = Some srv -> (k < List.length (servers w))%nat.
Proof.
  unfold server_at. intros H. apply nth_error_Some. congruence.
Qed.

(** A bridge constructed later leaves an existing server as it is. *)
Lemma new_NamedPipeStream_server_at stream l w k :
  (k < List.length (servers w))%nat ->
  server_at k (snd (new_NamedPipeStream stream l w)) = server_at k w.
Proof.
  intros Hk.
  destruct (new_NamedPipeStream_facts stream l w) as (_ & Hs & _).
  unfold server_at. rewrite Hs. now apply nth_error_app1.
Qed.

Lemma new_NamedPipeStream_inv stream l w :
  well_formed w ->
  let b := fst (new_NamedPipeStream stream l w) in
  let w1 := snd (new_NamedPipeStream stream l w) in
  bridge_inv (_server b) stream l w1
  /\ listening (_server b) w1 = true
  /\ serviced (_server b) w1 = [].
Proof.
  intros [Hwl Hwa] b w1.
  destruct (new_NamedPipeStream_facts stream l w) as (Hk & Hs & Hc & Ha & _).
  fold b in Hk, Hs. fold w1 in Hs, Hc, Ha.
  assert (Hat : server_at (_server b) w1
                = Some {| onConnection := l; handle := Some (_socketPath b) |}).
  { unfold server_at. rewrite Hs, Hk, nth_error_app2 by lia.
    now rewrite Nat.sub_diag. }
  split; [|split].
  - split; [|split].
    + eexists; split; [exact Hat|reflexivity].
    + rewrite Hc, Hk. apply in_or_app. right. now left.
    + intros s Hin. rewrite Hc, Hk in Hin.
      apply in_app_or in Hin. destruct Hin as [Hin|[Heq|[]]].
      * apply Hwl in Hin. lia.
      * congruence.
  - rewrite listening_server_at, Hat. reflexivity.
  - unfold serviced. rewrite Ha.
    assert (Hnone : forall c, In c (accepted w) ->
                              Nat.eqb (fst c) (_server b) = false).
    { intros [k sock] Hin. apply Hwa in Hin. simpl.
      apply Nat.eqb_neq. lia. }
    clear - Hnone. induction (accepted w) as [|c acc IH]; simpl.
    + reflexivity.
    + rewrite (Hnone c) by now left.
      apply IH. intros c' Hc'. apply Hnone. now right.
Qed.

(** *** One action *)

Lemma connection_servers k sock w : servers (connection k sock w) = servers w.
Proof.
  unfold connection. destruct (listening k w); [|reflexivity]. simpl.
  destruct (nth_error (servers w) k) as [[[[?|? ?]|] ?]|]; reflexivity.
Qed.

Lemma connection_closeListeners k sock w :
  closeListeners (connection k sock w) = closeListeners w.
Proof.
  unfold connection. destruct (listening k w); [|reflexivity]. simpl.
  destruct (nth_error (servers w) k) as [[[[?|? ?]|] ?]|]; reflexivity.
Qed.

Lemma connection_accepted k sock w :
  accepted (connection k sock w)
  = accepted w ++ (if listening k w then [(k, sock)] else []).
Proof.
  unfold connection. destruct (listening k w); [|now rewrite app_nil_r].
  simpl.
  destruct (nth_error (servers w) k) as [[[[?|? ?]|] ?]|]; reflexivity.
Qed.

Lemma connection_pipes k sock w :
  pipes (connection k sock w)
  = pipes w ++
    (if listening k w
     then match option_map onConnection (server_at k w) with
          | Some (Some l) => [relay_of l sock]
          | _ => []
          end
     else []).
Proof.
  unfold connection, server_at.
  destruct (listening k w); [|now rewrite app_nil_r]. simpl.
  destruct (nth_error (servers w) k) as [[[[?|? ?]|] ?]|]; simpl;
    try reflexivity; now rewrite app_nil_r.
Qed.

Lemma perform_listening w a k :
  (k < List.length (servers w))%nat ->
  listening k (perform w a) = listening k w && negb (closes_in w k a).
Proof.
  intros Hk. destruct a as [k' sock|stream|b|stream|stream args]; simpl.
  - rewrite andb_true_r. unfold listening. now rewrite connection_servers.
  - rewrite stream_close_unfold. apply close_listeners_listening.
  - unfold close. rewrite Server_close_listening.
    destruct (Nat.eqb (_server b) k); simpl;
      [now rewrite andb_false_r|now rewrite andb_true_r].
  - rewrite andb_true_r, !listening_server_at. unfold StreamInput.
    now rewrite new_NamedPipeStream_server_at.
  - rewrite andb_true_r, !listening_server_at. unfold StreamOutput.
    now rewrite new_NamedPipeStream_server_at.
Qed.

Lemma perform_onConnection w a k :
  (k < List.length (servers w))%nat ->
  option_map onConnection (server_at k (perform w a))
  = option_map onConnection (server_at k w).
Proof.
  intros Hk. destruct a as [k' sock|stream|b|stream|stream args]; simpl.
  - unfold server_at. now rewrite connection_servers.
  - rewrite stream_close_unfold. apply close_listeners_onConnection.
  - unfold close. rewrite Server_close_at.
    destruct (Nat.eqb (_server b) k); [|reflexivity].
    destruct (server_at k w) as [x|]; simpl; [|reflexivity].
    unfold closed_server. destruct (handle x); reflexivity.
  - unfold StreamInput. now rewrite new_NamedPipeStream_server_at.
  - unfold StreamOutput. now rewrite new_NamedPipeStream_server_at.
Qed.

Lemma perform_closeListeners w a :
  exists extra,
    closeListeners (perform w a) = closeListeners w ++ extra
    /\ forall s k, In (s, CloseServer k) extra ->
                   (List.length (servers w) <= k)%nat.
Proof.
  destruct a as [k' sock|stream|b|stream|stream args]; simpl.
  - exists []. rewrite connection_closeListeners, app_nil_r.
    split; [reflexivity|intros ? ? []].
  - exists []. rewrite stream_close_unfold, app_nil_r.
    split; [apply close_listeners_frame|intros ? ? []].
  - exists []. rewrite app_nil_r.
    split; [apply Server_close_frame|intros ? ? []].
  - destruct (new_NamedPipeStream_facts stream (Some (StreamToSocket stream)) w)
      as (_ & _ & Hc & _).
    eexists; split; [exact Hc|].
    intros s k [Heq|[]]. injection Heq as _ <-. lia.
  - destruct (new_NamedPipeStream_facts stream
                (Some (SocketToStream stream args)) w) as (_ & _ & Hc & _).
    eexists; split; [exact Hc|].
    intros s k [Heq|[]]. injection Heq as _ <-. lia.
Qed.

Lemma perform_accepted w a :
  accepted (perform w a)
  = accepted w ++
    match a with
    | Connect k sock => if listening k w then [(k, sock)] else []
    | _ => []
    end.
Proof.
  destruct a as [k' sock|stream|b|stream|stream args]; simpl;
    rewrite ?app_nil_r.
  - apply connection_accepted.
  - rewrite stream_close_unfold. apply close_listeners_frame.
  - apply Server_close_frame.
  - apply new_NamedPipeStream_facts.
  - apply new_NamedPipeStream_facts.
Qed.

Lemma perform_pipes w a :
  pipes (perform w a)
  = pipes w ++
    match a with
    | Connect k sock =>
        if listening k w
        then match option_map onConnection (server_at k w) with
             | Some (Some l) => [relay_of l sock]
             | _ => []
             end
        else []
    | _ => []
    end.
Proof.
  destruct a as [k' sock|stream|b|stream|stream args]; simpl;
    rewrite ?app_nil_r.
  - apply connection_pipes.
  - rewrite stream_close_unfold. apply close_listeners_frame.
  - apply Server_close_frame.
  - apply new_NamedPipeStream_facts.
  - apply new_NamedPipeStream_facts.
Qed.

Lemma perform_servers_length w a :
  (List.length (servers w) <= List.length (servers (perform w a)))%nat.
Proof.
  destruct a as [k' sock|stream|b|stream|stream args]; simpl.
  - now rewrite connection_servers.
  - rewrite stream_close_unfold.
    destruct (close_listeners_frame stream (closeListeners w) w)
      as (_ & _ & _ & ->). lia.
  - unfold close. rewrite Server_close_servers_length. lia.
  - destruct (new_NamedPipeStream_facts stream (Some (StreamToSocket stream)) w)
      as (_ & Hs & _).
    unfold StreamInput. rewrite Hs, length_app. lia.
  - destruct (new_NamedPipeStream_facts stream
                (Some (SocketToStream stream args)) w) as (_ & Hs & _).
    unfold StreamOutput. rewrite Hs, length_app. lia.
Qed.

(** *** The invariant along a trace *)

Lemma bridge_inv_lt k stream l w :
  bridge_inv k stream l w -> (k < List.length (servers w))%nat.
Proof. intros [(srv & Hs & _) _]. eapply server_at_lt; eassumption. Qed.

Lemma bridge_inv_closes_in k stream l w a :
  bridge_inv k stream l w -> closes_in w k a = closes k stream a.
Proof.
  intros (_ & Hin & Huniq).
  destruct a as [k' sock|s|b|s|s args]; simpl; try reflexivity.
  destruct (Nat.eqb_spec s stream) as [->|Hne].
  - apply existsb_exists. exists (stream, CloseServer k).
    split; [exact Hin|]. simpl. now rewrite !Nat.eqb_refl.
  - match goal with |- ?e = false => destruct e eqn:He end; [|reflexivity].
    apply existsb_exists in He. destruct He as ([s' [k']] & Hin' & Hb).
    apply andb_true_iff in Hb. destruct Hb as [Hs Hk].
    apply Nat.eqb_eq in Hs, Hk. subst s' k'.
    apply Huniq in Hin'. congruence.
Qed.

Lemma bridge_inv_perform k stream l w a :
  bridge_inv k stream l w -> bridge_inv k stream l (perform w a).
Proof.
  intros Hinv. pose proof (bridge_inv_lt _ _ _ _ Hinv) as Hlt.
  destruct Hinv as ((srv & Hs & Hl) & Hin & Huniq).
  destruct (perform_closeListeners w a) as (extra & Hc & Hextra).
  split; [|split].
  - pose proof (perform_onConnection w a k Hlt) as Ho.
    rewrite Hs in Ho. simpl in Ho.
    destruct (server_at k (perform w a)) as [srv'|]; [|discriminate].
    exists srv'. split; [reflexivity|]. simpl in Ho. congruence.
  - rewrite Hc. apply in_or_app. now left.
  - intros s Hs'. rewrite Hc in Hs'. apply in_app_or in Hs'.
    destruct Hs' as [Hold|Hnew]; [now apply Huniq|].
    apply Hextra in Hnew. lia.
Qed.

Lemma bridge_inv_perform_all k stream l t : forall w,
  bridge_inv k stream l w -> bridge_inv k stream l (perform_all w t).
Proof.
  induction t as [|a t IH]; intros w H; simpl; [exact H|].
  apply IH. now apply bridge_inv_perform.
Qed.

Lemma bridge_listening_perform k stream l w a :
  bridge_inv k stream l w ->
  listening k (perform w a) = listening k w && negb (closes k stream a).
Proof.
  intros H. rewrite perform_listening by (eapply bridge_inv_lt; eassumption).
  now rewrite (bridge_inv_closes_in k stream l).
Qed.

Lemma serviced_perform k w a :
  serviced k (perform w a)
  = serviced k w ++ (if listening k w then connects k a else []).
Proof.
  unfold serviced. rewrite perform_accepted, filter_app, map_app. f_equal.
  destruct a as [k' sock|s|b|s|s args]; simpl;
    try (now destruct (listening k w)).
  destruct (Nat.eqb_spec k' k) as [->|Hne].
  - destruct (listening k w); simpl; [|reflexivity].
    now rewrite Nat.eqb_refl.
  - destruct (listening k' w); simpl.
    + apply Nat.eqb_neq in Hne. rewrite Hne. now destruct (listening k w).
    + now destruct (listening k w).
Qed.

Lemma closes_connects k stream a :
  closes k stream a = true -> connects k a = [].
Proof. destruct a; simpl; try reflexivity; discriminate. Qed.

(** The connections a server services along a trace are those that
    arrive while its acceptor is open. *)
Lemma serviced_perform_all k stream l t : forall w,
  bridge_inv k stream l w ->
  serviced k (perform_all w t)
  = serviced k w
    ++ (if listening k w then connected_while_open k stream t else []).
Proof.
  induction t as [|a t IH]; intros w Hinv; simpl.
  - destruct (listening k w); now rewrite app_nil_r.
  - rewrite IH by now apply bridge_inv_perform.
    rewrite serviced_perform, (bridge_listening_perform k stream l) by exact Hinv.
    rewrite <- app_assoc. f_equal.
    destruct (listening k w); simpl; [|reflexivity].
    destruct (closes k stream a) eqn:Hc; simpl.
    + now rewrite (closes_connects k stream).
    + destruct a as [k' sock|s|b|s|s args]; simpl; try reflexivity.
      now destruct (Nat.eqb k' k).
Qed.

Lemma pipes_perform_all_mono p t : forall w,
  In p (pipes w) -> In p (pipes (perform_all w t)).
Proof.
  induction t as [|a t IH]; intros w H; simpl; [exact H|].
  apply IH. rewrite perform_pipes. apply in_or_app. now left.
Qed.

(** Each of them has its relay set up by the listener of the bridge. *)
Lemma relays_perform_all k stream l t : forall w sock,
  bridge_inv k stream (Some l) w ->
  listening k w = true ->
  In sock (connected_while_open k stream t) ->
  In (relay_of l sock) (pipes (perform_all w t)).
Proof.
  induction t as [|a t IH]; intros w sock Hinv Hopen Hin; simpl in *.
  - destruct Hin.
  - destruct (closes k stream a) eqn:Hc; [destruct Hin|].
    assert (Hopen' : listening k (perform w a) = true).
    { rewrite (bridge_listening_perform k stream (Some l)) by exact Hinv.
      now rewrite Hopen, Hc. }
    pose proof (bridge_inv_perform k stream (Some l) w a Hinv) as Hinv'.
    destruct a as [k' sock'|s|b|s|s args];
      try (now apply IH).
    destruct (Nat.eqb_spec k' k) as [->|Hne]; [|now apply IH].
    destruct Hin as [->|Hin]; [|now apply IH].
    apply pipes_perform_all_mono. rewrite perform_pipes, Hopen.
    destruct Hinv as ((srv & Hs & Hl) & _). rewrite Hs. simpl. rewrite Hl.
    apply in_or_app. right. now left.
Qed.

Lemma closed_perform_all k stream l t : forall w,
  bridge_inv k stream l w ->
  listening k w = false -> listening k (perform_all w t) = false.
Proof.
  induction t as [|a t IH]; intros w Hinv Hc; simpl; [exact Hc|].
  apply IH; [now apply bridge_inv_perform|].
  rewrite (bridge_listening_perform k stream l) by exact Hinv.
  now rewrite Hc.
Qed.

Lemma closed_after_closing k stream l t1 a t2 w :
  bridge_inv k stream l w ->
  closes k stream a = true ->
  listening k (perform_all w (t1 ++ a :: t2)) = false.
Proof.
  intros Hinv Hc. unfold perform_all. rewrite fold_left_app. simpl.
  fold (perform_all w t1).
  pose proof (bridge_inv_perform_all k stream l t1 w Hinv) as Hinv1.
  apply (closed_perform_all k stream l).
  - now apply bridge_inv_perform.
  - rewrite (bridge_listening_perform k stream l) by exact Hinv1.
    rewrite Hc. now rewrite andb_false_r.
Qed.

(** The listeners of a stream leave an acceptor that is already closed as
    it is. *)
Lemma close_listeners_closed stream k ls : forall w,
  listening k w = false ->
  server_at k (close_listeners stream ls w) = server_at k w.
Proof.
  induction ls as [|[s [k']] ls IH]; intros w Hc; simpl; [reflexivity|].
  unfold close_listeners in *. simpl.
  destruct (Nat.eqb s stream); [|now apply IH].
  rewrite IH.
  - destruct (Nat.eqb_spec k' k) as [->|Hne].
    + now rewrite Server_close_closed.
    + rewrite Server_close_at. apply Nat.eqb_neq in Hne. now rewrite Hne.
  - rewrite Server_close_listening. now destruct (Nat.eqb k' k).
Qed.

Local Open Scope nat_scope.

Lemma empty_world_well_formed p ids : well_formed (empty_world p ids).
Proof. split; intros ? ? []. Qed.

(** *** The claims about the bridge *)

(** C2, as stated, fails: two peers connect to the endpoint of a stream
    input, one after the other, and both are serviced. *)
Lemma bridge_services_second_connection :
  serviced 0
    (perform_all (snd (StreamInput 7 (empty_world Posix (fun _ => "5f0c"%string))))
       [Connect 0 1; Connect 0 2])
  = [1; 2]%nat
  /\ ~ (List.length
          (serviced 0
             (perform_all
                (snd (StreamInput 7 (empty_world Posix (fun _ => "5f0c"%string))))
                [Connect 0 1; Connect 0 2])) <= 1)%nat.
Proof. vm_compute. split; [reflexivity|lia]. Qed.

(** C2 (amended): the endpoint services every connection that arrives
    while its acceptor listens, in order of arrival and without a limit of
    one, and sets up for each the relay of its role (stream to connection
    for an input, connection to stream with the given pipe options for an
    output); a connection that arrives after the acceptor was closed is not
    serviced. *)
Theorem bridge_services_connections_while_open :
  forall (w : World) (stream : stream_id) (pipeArgs : option PipeOptions)
         (t : list action),
    well_formed w ->
    (let b := fst (StreamInput stream w) in
     let w1 := snd (StreamInput stream w) in
     serviced (_server b) (perform_all w1 t)
     = connected_while_open (_server b) stream t
     /\ forall sock,
          In sock (connected_while_open (_server b) stream t) ->
          In (FromStream stream sock) (pipes (perform_all w1 t)))
    /\
    (let b := fst (StreamOutput stream pipeArgs w) in
     let w1 := snd (StreamOutput stream pipeArgs w) in
     serviced (_server b) (perform_all w1 t)
     = connected_while_open (_server b) stream t
     /\ forall sock,
          In sock (connected_while_open (_server b) stream t) ->
          In (FromSocket sock stream pipeArgs) (pipes (perform_all w1 t))).
Proof.
  intros w stream pipeArgs t Hwf.
  assert (Hgen : forall l,
    let b := fst (new_NamedPipeStream stream (Some l) w) in
    let w1 := snd (new_NamedPipeStream stream (Some l) w) in
    serviced (_server b) (perform_all w1 t)
    = connected_while_open (_server b) stream t
    /\ forall sock,
         In sock (connected_while_open (_server b) stream t) ->
         In (relay_of l sock) (pipes (perform_all w1 t))).
  { intros l b w1.
    destruct (new_NamedPipeStream_inv stream (Some l) w Hwf)
      as (Hinv & Hopen & Hnone).
    fold b in Hinv, Hopen, Hnone. fold w1 in Hinv, Hopen, Hnone.
    split.
    - rewrite (serviced_perform_all _ stream (Some l)) by exact Hinv.
      now rewrite Hnone, Hopen.
    - intros sock Hin.
      now apply (relays_perform_all (_server b) stream l). }
  split.
  - apply (Hgen (StreamToSocket stream)).
  - apply (Hgen (SocketToStream stream pipeArgs)).
Qed.

Lemma bridge_services_connections_while_open_witness :
  serviced 0
    (perform_all (snd (StreamInput 7 (empty_world Posix (fun _ => "5f0c"%string))))
       [Connect 0 1; Connect 0 2; StreamClosed 7; Connect 0 3])
  = [1; 2]%nat.
Proof.
  destruct (bridge_services_connections_while_open
              (empty_world Posix (fun _ => "5f0c"%string)) 7%nat None
              [Connect 0 1; Connect 0 2; StreamClosed 7; Connect 0 3]
              (empty_world_well_formed _ _)) as [[H _] _].
  exact H.
Defined.

(** C9: once the bridged stream has closed, the acceptor of the endpoint is
    closed, whether or not [close()] was ever called; after an explicit
    [close()] it is closed as well; and on an acceptor that is already
    closed both ways of closing change nothing. *)
Theorem acceptor_closed_with_stream :
  forall (w : World) (stream : stream_id) (l : option connectionListener)
         (t1 t2 : list action),
    well_formed w ->
    let b := fst (new_NamedPipeStream stream l w) in
    let w1 := snd (new_NamedPipeStream stream l w) in
    listening (_server b) w1 = true
    /\ listening (_server b) (perform_all w1 (t1 ++ StreamClosed stream :: t2))
       = false
    /\ listening (_server b) (perform_all w1 (t1 ++ CallClose b :: t2)) = false
    /\ (forall w', listening (_server b) w' = false ->
                   close b w' = w'
                   /\ server_at (_server b) (stream_close stream w')
                      = server_at (_server b) w').
Proof.
  intros w stream l t1 t2 Hwf b w1.
  destruct (new_NamedPipeStream_inv stream l w Hwf) as (Hinv & Hopen & _).
  fold b in Hinv, Hopen. fold w1 in Hinv, Hopen.
  split; [exact Hopen|]. split; [|split].
  - apply (closed_after_closing _ stream l); [exact Hinv|].
    simpl. apply Nat.eqb_refl.
  - apply (closed_after_closing _ stream l); [exact Hinv|].
    simpl. apply Nat.eqb_refl.
  - intros w' Hc. split.
    + now apply Server_close_closed.
    + rewrite stream_close_unfold. now apply close_listeners_closed.
Qed.

Lemma acceptor_closed_with_stream_witness :
  listening 0
    (perform_all (snd (StreamInput 7 (empty_world Posix (fun _ => "5f0c"%string))))
       ([Connect 0 1] ++ StreamClosed 7 :: [StreamClosed 7; Connect 0 2]))
  = false.
Proof.
  destruct (acceptor_closed_with_stream
              (empty_world Posix (fun _ => "5f0c"%string)) 7%nat
              (Some (StreamToSocket 7)) [Connect 0 1]
              [StreamClosed 7; Connect 0 2]
              (empty_world_well_formed _ _)) as (_ & H & _).
  exact H.
Defined.

End BridgeFacts.

(** ** Argument lowering *)

Module LoweringFacts.
Import Lowering.

Lemma push_if_flag {A} name (o : option A) guard show args :
  push_if o guard (fun a => [name; show a]) args
  = args ++ flag name o guard show.
Proof.
  unfold push_if, flag, push. destruct o as [a|]; [|now rewrite app_nil_r].
  destruct (guard a); [reflexivity|now rewrite app_nil_r].
Qed.

Lemma push_if_flag_same name (o : option string) guard args :
  push_if o guard (fun a => [name; a]) args = args ++ flag name o guard same.
Proof. apply (push_if_flag name o guard same). Qed.

Lemma push_if_switch tokens (o : option bool) args :
  push_if o is_true (fun _ => tokens) args = args ++ switch tokens o.
Proof.
  unfold push_if, switch, push, is_true.
  destruct o as [[|]|]; [reflexivity| |]; now rewrite app_nil_r.
Qed.

Lemma push_if_extra (o : option (list string)) args :
  push_if o always (fun e => e) args = args ++ or_empty o.
Proof.
  unfold push_if, or_empty, push, always.
  destruct o; [reflexivity|now rewrite app_nil_r].
Qed.

Lemma run_audio_block a args : run_audio a args = args ++ audio_block a.
Proof.
  unfold run_audio, audio_block. destruct a as [a|]; [|reflexivity].
  rewrite !push_if_flag_same, !push_if_flag.
  now rewrite <- !app_assoc.
Qed.

(** What the video part appends does not depend on what is already
    there. *)
Lemma run_video_append v args : run_video v args = args ++ run_video v [].
Proof.
  unfold run_video. destruct v as [v|]; [|reflexivity].
  rewrite !push_if_flag_same, !push_if_flag. simpl app at 1.
  match goal with
  | |- match ?fs with _ => _ end = _ => destruct fs
  end.
  - simpl. now rewrite <- !app_assoc.
  - unfold push. simpl. now rewrite <- !app_assoc.
Qed.

Lemma run_input_group args w i :
  run_input (args, w) i
  = (args ++ input_group i (fst (input_address (src i) w)),
     snd (input_address (src i) w)).
Proof.
  unfold run_input, input_group, input_address.
  rewrite !push_if_switch, push_if_extra, push_if_flag_same, !push_if_flag.
  unfold push.
  destruct (src i) as [path|stream].
  - simpl. now rewrite <- !app_assoc.
  - destruct (Bridge.StreamInput stream w) as [b w']. simpl.
    now rewrite <- !app_assoc.
Qed.

Lemma run_output_group args w o :
  run_output (args, w) o
  = (args ++ output_group o (fst (output_address (dst o) w)),
     snd (output_address (dst o) w)).
Proof.
  unfold run_output, output_group, output_address.
  rewrite push_if_flag_same, !push_if_flag, push_if_extra.
  rewrite run_video_append, (run_audio_block (audio o) []), run_audio_block.
  unfold push.
  destruct (dst o) as [path|stream pipeArgs].
  - simpl. now rewrite <- !app_assoc.
  - destruct (Bridge.StreamOutput stream pipeArgs w) as [b w']. simpl.
    now rewrite <- !app_assoc.
Qed.

Lemma fold_run_input l : forall args w,
  fold_left run_input l (args, w)
  = (args ++ List.concat (fst (input_groups l w)), snd (input_groups l w)).
Proof.
  induction l as [|i l IH]; intros args w; cbn [fold_left input_groups].
  - simpl. now rewrite app_nil_r.
  - rewrite run_input_group, IH.
    destruct (input_address (src i) w) as [address w1]. cbn [fst snd].
    destruct (input_groups l w1) as [groups w2]. simpl.
    now rewrite <- app_assoc.
Qed.

Lemma fold_run_output l : forall args w,
  fold_left run_output l (args, w)
  = (args ++ List.concat (fst (output_groups l w)), snd (output_groups l w)).
Proof.
  induction l as [|o l IH]; intros args w; cbn [fold_left output_groups].
  - simpl. now rewrite app_nil_r.
  - rewrite run_output_group, IH.
    destruct (output_address (dst o) w) as [address w1]. cbn [fst snd].
    destruct (output_groups l w1) as [groups w2]. simpl.
    now rewrite <- app_assoc.
Qed.




(** *** The scale filter *)

Lemma bad_dimension_truthy n :
  bad_dimension (Some n) = false -> num_truthy n = true.
Proof.
  unfold bad_dimension. destruct n as [|[|]|m e]; simpl; try discriminate;
    try reflexivity.
  intros H. apply negb_false_iff, Z.ltb_lt in H.
  apply negb_true_iff, Z.eqb_neq. unfold scale in H.
  intros ->. simpl in H. lia.
Qed.

Lemma parse_size_valid sz spec : parse_size sz = Ok spec -> size_valid spec.
Proof.
  unfold parse_size. destruct (endsWith sz "%").
  - destruct (negb _ || _); [discriminate|]. now intros [= <-].
  - destruct (nth_error (split "x" sz) 0) as [ws|]; [|discriminate].
    destruct (nth_error (split "x" sz) 1) as [hs|]; [|discriminate].
    destruct (negb _ || negb _); [discriminate|].
    set (width := if String.eqb ws question_mark then None else Some (parseInt ws)).
    set (height := if String.eqb hs question_mark then None else Some (parseInt hs)).
    destruct (bad_dimension width) eqn:Hw; [discriminate|].
    destruct (bad_dimension height) eqn:Hh; [discriminate|].
    destruct (dimension_truthy width) eqn:Htw.
    + intros [= <-]. simpl. split.
      * destruct width; [exact Htw|exact I].
      * destruct height; [now apply bad_dimension_truthy|exact I].
    + destruct (dimension_truthy height) eqn:Hth; [|discriminate].
      intros [= <-]. simpl. split; [exact I|].
      destruct height; [exact Hth|exact I].
Qed.

Lemma dimension_option_valid d :
  match d with Some n => num_truthy n = true | None => True end ->
  dimension_option d = scale_dimension d.
Proof. destruct d as [n|]; simpl; [|reflexivity]. now intros ->. Qed.

Lemma run_video_block v args :
  match size_ v with Some sz => size_valid sz | None => True end ->
  run_video (Some v) args = args ++ video_block (Some v).
Proof.
  intros Hv. unfold run_video, video_block, video_flags, combined_filters.
  rewrite !push_if_flag_same, !push_if_flag.
  assert (Hf :
    match size_ v with
    | Some (SizePercent percent) =>
        or_empty (v_filters v) ++
        [FilterObject "scale"
           (OptRecord
              [("w"%string,
                UStr ("trunc(iw*" +++ num_toString (num_div100 percent) +++ "/2)*2"));
               ("h"%string,
                UStr ("trunc(ih*" +++ num_toString (num_div100 percent) +++ "/2)*2"))])]
    | Some (SizeWH width height) =>
        or_empty (v_filters v) ++
        [FilterObject "scale"
           (OptRecord [("w"%string, dimension_option width);
                       ("h"%string, dimension_option height)])]
    | None => or_empty (v_filters v)
    end
    = or_empty (v_filters v)
      ++ match size_ v with Some sz => [scale_filter sz] | None => [] end).
  { destruct (size_ v) as [[width height|percent]|]; cbn [scale_filter].
    - destruct Hv as [Hw Hh].
      now rewrite !dimension_option_valid.
    - reflexivity.
    - now rewrite app_nil_r. }
  cbv zeta. rewrite Hf. unfold filter_graph, push.
  destruct (or_empty (v_filters v) ++ _).
  - now rewrite app_nil_r, <- !app_assoc.
  - now rewrite <- !app_assoc.
Qed.

Lemma append_assoc (a b c : string) : (a +++ b) +++ c = a +++ (b +++ c).
Proof. induction a as [|x a IH]; simpl; [reflexivity|now rewrite IH]. Qed.

Lemma at_last_update_last {A} (f : A -> A) : forall l : list A,
  at_last (update_last f l) = option_map f (at_last l).
Proof.
  induction l as [|x [|y l] IH]; try reflexivity.
  change (at_last (x :: update_last f (y :: l))
          = option_map f (at_last (y :: l))).
  rewrite <- IH. simpl. destruct l; reflexivity.
Qed.

Lemma setVideoProps_ok f c c' :
  setVideoProps f c = Ok c' ->
  exists o v,
    at_last (_outputs c) = Some o /\ video o = Some v
    /\ at_last (_outputs c') = Some (set_video (Some (f v)) o).
Proof.
  unfold setVideoProps, _getLastOutput.
  destruct (at_last (_outputs c)) as [o|] eqn:Ho; simpl; [|discriminate].
  destruct (video o) as [v|] eqn:Hv; [|discriminate].
  intros [= <-]. exists o, v. repeat split; try assumption.
  simpl. now rewrite at_last_update_last, Ho.
Qed.

(** [size] on a builder whose last output has its video enabled: the
    parsed size is what the video settings of that output hold
    afterwards. *)
Lemma size_stores sz spec c o v :
  parse_size sz = Ok spec ->
  at_last (_outputs c) = Some o -> video o = Some v ->
  exists c', size sz c = Ok c' /\ stored_size c' = Some spec.
Proof.
  intros Hp Ho Hv. unfold size, setVideoProps, _getLastOutput.
  rewrite Hp. cbn [bind]. rewrite Ho. cbn [bind]. rewrite Hv.
  eexists. split; [reflexivity|].
  unfold stored_size. cbn [_outputs set_outputs].
  rewrite at_last_update_last, Ho. reflexivity.
Qed.

(** *** The entries of an option mapping *)

Lemma define_property_fresh k v : forall o : list (string * unknown),
  ~ In k (map fst o) -> define_property k v o = o ++ [(k, v)].
Proof.
  induction o as [|[k' v'] o IH]; intros Hk; [reflexivity|].
  cbn [define_property]. simpl in Hk.
  destruct (String.eqb_spec k k') as [->|_]; [tauto|].
  rewrite IH by tauto. reflexivity.
Qed.

Lemma fold_define_property props : forall o : list (string * unknown),
  NoDup (map fst (o ++ props)) ->
  fold_left (fun o kv => define_property (fst kv) (snd kv) o) props o
  = o ++ props.
Proof.
  induction props as [|[k v] props IH]; intros o Hnd; cbn [fold_left].
  - now rewrite app_nil_r.
  - cbn [fst snd]. rewrite define_property_fresh.
    + rewrite IH; rewrite <- app_assoc; [reflexivity|exact Hnd].
    + rewrite map_app in Hnd. apply NoDup_app_remove_r in Hnd as Hnd'.
      intros Hin. rewrite <- map_app in Hnd.
      clear - Hnd Hin. induction o as [|[k' v'] o IH]; [easy|].
      simpl in *. inversion Hnd as [|? ? Hx Hrest]; subst.
      destruct Hin as [->|Hin].
      * apply Hx. rewrite map_app. apply in_or_app. right. now left.
      * now apply IH.
Qed.

(** A literal that defines no key twice keeps its properties in source
    order. *)
Lemma object_literal_distinct props :
  NoDup (map fst props) -> object_literal props = props.
Proof. intros H. unfold object_literal. now rewrite fold_define_property. Qed.

Lemma fold_indexed_named (o : list (string * unknown)) : forall acc,
  (forall kv, In kv o -> named_key kv = true) ->
  fold_left
    (fun acc kv =>
       match array_index (fst kv) with
       | Some i => insert_index i kv acc
       | None => acc
       end) o acc = acc.
Proof.
  induction o as [|kv o IH]; intros acc H; cbn [fold_left]; [reflexivity|].
  assert (Hkv : named_key kv = true) by (apply H; now left).
  unfold named_key in Hkv. destruct (array_index (fst kv)); [discriminate|].
  apply IH. intros kv' Hin. apply H. now right.
Qed.

(** Without an array index among the keys the entries are the properties
    in the order of their creation. *)
Lemma Object_entries_named (o : list (string * unknown)) :
  (forall kv, In kv o -> named_key kv = true) -> Object_entries o = o.
Proof.
  intros H. unfold Object_entries. rewrite fold_indexed_named by exact H.
  cbn [map app]. clear - H. induction o as [|kv o IH]; [reflexivity|].
  cbn [filter]. rewrite (H kv) by now left.
  f_equal. apply IH. intros kv' Hin. apply H. now right.
Qed.

Lemma insert_index_sorted i kv : forall l,
  Sorted Z.le (map fst l) -> Sorted Z.le (map fst (insert_index i kv l)).
Proof.
  induction l as [|[j x] l IH]; intros Hs; cbn [insert_index map fst].
  - repeat constructor.
  - destruct (Z.ltb_spec i j) as [Hlt|Hge]; cbn [map fst].
    + constructor; [exact Hs|]. constructor. lia.
    + inversion Hs as [|? ? Hrest Hhd]; subst.
      constructor; [now apply IH|].
      destruct l as [|[j' x'] l]; cbn [insert_index map fst] in *.
      * constructor. exact Hge.
      * destruct (Z.ltb_spec i j'); cbn [map fst]; constructor;
          [exact Hge|now inversion Hhd].
Qed.

Lemma insert_index_permutation i kv : forall l,
  Permutation (insert_index i kv l) ((i, kv) :: l).
Proof.
  induction l as [|[j x] l IH]; cbn [insert_index]; [reflexivity|].
  destruct (i <? j); [reflexivity|].
  rewrite IH. apply perm_swap.
Qed.

Lemma insert_index_keys i kv l :
  (forall j x, In (j, x) l -> array_index (fst x) = Some j) ->
  array_index (fst kv) = Some i ->
  forall j x, In (j, x) (insert_index i kv l) -> array_index (fst x) = Some j.
Proof.
  intros Hl Hkv j x Hin.
  apply (Permutation_in _ (insert_index_permutation i kv l)) in Hin.
  destruct Hin as [[= <- <-]|Hin]; [exact Hkv|now apply Hl].
Qed.

Lemma fold_indexed (o : list (string * unknown)) : forall acc,
  Sorted Z.le (map fst acc) ->
  (forall j x, In (j, x) acc -> array_index (fst x) = Some j) ->
  let idx :=
    fold_left
      (fun acc kv =>
         match array_index (fst kv) with
         | Some i => insert_index i kv acc
         | None => acc
         end) o acc in
  Sorted Z.le (map fst idx)
  /\ (forall j x, In (j, x) idx -> array_index (fst x) = Some j)
  /\ Permutation (map snd idx)
       (map snd acc ++ filter (fun kv => negb (named_key kv)) o).
Proof.
  induction o as [|kv o IH]; intros acc Hs Hk; cbn [fold_left filter].
  - rewrite app_nil_r. now repeat split.
  - unfold named_key at 1. destruct (array_index (fst kv)) as [i|] eqn:Hi.
    + destruct (IH (insert_index i kv acc)) as (H1 & H2 & H3).
      * now apply insert_index_sorted.
      * now apply insert_index_keys.
      * repeat split; [exact H1|exact H2|].
        cbv zeta in H3. rewrite H3. cbn [negb].
        rewrite (Permutation_map snd (insert_index_permutation i kv acc)).
        cbn [map snd]. apply Permutation_middle.
    + now apply IH.
Qed.

Lemma filterToString_record name props :
  filterToString (FilterObject name (OptRecord props))
  = name +++ "="
    +++ join ":" (map entry_text (Object_entries (object_literal props))).
Proof.
  cbn [filterToString]. do 3 f_equal. apply map_ext. now intros [k v].
Qed.

(** The option mapping of the scale filter: [w], then [h]. *)
Lemma scale_entries (a b : unknown) :
  Object_entries (object_literal [("w"%string, a); ("h"%string, b)])
  = [("w"%string, a); ("h"%string, b)].
Proof. vm_compute. reflexivity. Qed.

Lemma scale_filter_text (a b : unknown) :
  filterToString (FilterObject "scale" (OptRecord [("w"%string, a); ("h"%string, b)]))
  = "scale=w=" +++ String_of a +++ ":h=" +++ String_of b.
Proof.
  rewrite filterToString_record, scale_entries.
  unfold entry_text. cbn [map fst snd join].
  cbn [String.append]. reflexivity.
Qed.

(** *** The claim about the scale filter *)

(** C5, as stated, fails: an option mapping with the keys [b], [2] and
    [1], defined in that order, is serialized with [1] and [2] first. *)
Lemma mapping_options_not_in_insertion_order :
  NoDup (map fst [("b", UNum (of_Z 1)); ("2", UStr "x"); ("1", UStr "y")])
  /\ filtersToString
       [FilterObject "f"
          (OptRecord [("b", UNum (of_Z 1)); ("2", UStr "x"); ("1", UStr "y")])]
     = "f=1=y:2=x:b=1"%string
  /\ filtersToString
       [FilterObject "f"
          (OptRecord [("b", UNum (of_Z 1)); ("2", UStr "x"); ("1", UStr "y")])]
     <> "f=" +++ join ":" (map entry_text
                             [("b", UNum (of_Z 1)); ("2", UStr "x");
                              ("1", UStr "y")]).
Proof.
  split; [|split].
  - repeat constructor; simpl; intuition discriminate.
  - vm_compute. reflexivity.
  - vm_compute. discriminate.
Qed.

(** C5 (amended): the video part of [run] appends the video flags and
    then one [-vf] flag for the explicit filters followed by the scale
    filter of the size, and no [-vf] flag when that list is empty; a
    percentage [P] gives [w=trunc(iw*F/2)*2] and [h=trunc(ih*F/2)*2] with
    [F] the binary64 quotient [P / 100] as [toString] prints it, so 50
    gives 0.5 and 33.3 gives 0.33299999999999996; an explicit size gives
    the stored value and [-2] for the dimension that is not set; filters
    are joined by commas, list options by colons, mapping options as
    [key=value] joined by colons in the order of [Object.entries]: the
    keys that are array indices first, in ascending order, then the other
    keys in the order of their creation, which for a mapping without
    array indices is the order of the literal; and every size that [size]
    stores is one for which this holds. *)
Theorem size_lowered_to_scale_filter :
  (forall (v : VideoSettings) (args : list string),
     match size_ v with Some sz => size_valid sz | None => True end ->
     run_video (Some v) args
     = args ++ video_flags v ++ filter_graph "-vf" (combined_filters v))
  /\ (forall (v : VideoSettings) (sz : SizeSpec),
        size_ v = Some sz ->
        filter_graph "-vf" (combined_filters v)
        = ["-vf"%string;
           filtersToString (or_empty (v_filters v) ++ [scale_filter sz])])
  /\ (forall v : VideoSettings,
        size_ v = None ->
        filter_graph "-vf" (combined_filters v)
        = match or_empty (v_filters v) with
          | [] => []
          | fs => ["-vf"%string; filtersToString fs]
          end)
  /\ (forall P : number,
        filterToString (scale_filter (SizePercent P))
        = "scale=w=trunc(iw*" +++ num_toString (num_div100 P)
          +++ "/2)*2:h=trunc(ih*" +++ num_toString (num_div100 P) +++ "/2)*2")
  /\ filterToString (scale_filter (SizePercent (of_Z 50)))
     = "scale=w=trunc(iw*0.5/2)*2:h=trunc(ih*0.5/2)*2"%string
  /\ filterToString (scale_filter (SizePercent (parseFloat "33.3")))
     = ("scale=w=trunc(iw*0.33299999999999996/2)*2"
        +++ ":h=trunc(ih*0.33299999999999996/2)*2")%string
  /\ (forall width height : option number,
        filterToString (scale_filter (SizeWH width height))
        = "scale=w=" +++ String_of (scale_dimension width)
          +++ ":h=" +++ String_of (scale_dimension height))
  /\ (forall fs, filtersToString fs = join "," (map filterToString fs))
  /\ (forall name, filterToString (FilterString name) = name)
  /\ (forall name opts,
        filterToString (FilterObject name (OptString opts))
        = name +++ "=" +++ opts)
  /\ (forall name opts,
        filterToString (FilterObject name (OptArray opts))
        = name +++ "=" +++ join ":" opts)
  /\ (forall name props,
        filterToString (FilterObject name (OptRecord props))
        = name +++ "="
          +++ join ":" (map entry_text (Object_entries (object_literal props))))
  /\ (forall o : list (string * unknown),
        exists idx : list (Z * (string * unknown)),
          Object_entries o = map snd idx ++ filter named_key o
          /\ Sorted Z.le (map fst idx)
          /\ (forall j x, In (j, x) idx -> array_index (fst x) = Some j)
          /\ Permutation (map snd idx)
               (filter (fun kv => negb (named_key kv)) o))
  /\ (forall props : list (string * unknown),
        NoDup (map fst props) ->
        (forall kv, In kv props -> array_index (fst kv) = None) ->
        Object_entries (object_literal props) = props)
  /\ (forall (sz : string) (c c' : FFmpegCommand),
        size sz c = Ok c' ->
        exists spec, stored_size c' = Some spec /\ size_valid spec).
Proof.
  repeat match goal with |- _ /\ _ => split end.
  - intros v args Hv. now rewrite run_video_block.
  - intros v sz Hs. unfold combined_filters, filter_graph. rewrite Hs.
    destruct (or_empty (v_filters v)); reflexivity.
  - intros v Hs. unfold combined_filters, filter_graph. rewrite Hs.
    rewrite app_nil_r. destruct (or_empty (v_filters v)); reflexivity.
  - intros P. unfold scale_filter. rewrite scale_filter_text.
    cbn [String_of]. now rewrite !append_assoc.
  - vm_compute. reflexivity.
  - vm_compute. reflexivity.
  - intros width height. unfold scale_filter. apply scale_filter_text.
  - reflexivity.
  - reflexivity.
  - reflexivity.
  - reflexivity.
  - apply filterToString_record.
  - intros o.
    destruct (fold_indexed o []) as (H1 & H2 & H3).
    + constructor.
    + intros j x [].
    + eexists. split; [reflexivity|]. repeat split; assumption.
  - intros props Hnd Hnamed. rewrite object_literal_distinct by exact Hnd.
    apply Object_entries_named. intros kv Hin. unfold named_key.
    now rewrite (Hnamed kv Hin).
  - intros sz c c' H. unfold size in H.
    destruct (parse_size sz) as [spec|] eqn:Hp; simpl in H; [|discriminate].
    destruct (setVideoProps_ok _ _ _ H) as (o & v & _ & _ & Hlast).
    exists spec. split; [|now apply (parse_size_valid sz)].
    unfold stored_size. now rewrite Hlast.
Qed.

Lemma size_lowered_to_scale_filter_witness :
  run_video
    (Some (set_size (Some (SizeWH (Some (of_Z 1280)) None))
             (set_v_filters (Some [FilterString "hflip"]) empty_video)))
    ["-y"%string]
  = ["-y"; "-vf"; "hflip,scale=w=1280:h=-2"]%string
  /\ Object_entries
       (object_literal [("w", UStr "iw/2"); ("flags", UStr "lanczos")])
     = [("w", UStr "iw/2"); ("flags", UStr "lanczos")]
  /\ (exists spec,
        stored_size
          (set_outputs
             [set_video
                (Some (set_size (Some (SizePercent (of_Z 50))) empty_video))
                (new_output (DstPath "out.mp4"))]
             (new_FFmpegCommand None))
        = Some spec /\ size_valid spec).
Proof.
  destruct size_lowered_to_scale_filter
    as (Hrun & _ & _ & _ & _ & _ & _ & _ & _ & _ & _ & _ & _ & Hord & Hsize).
  split; [|split].
  - rewrite Hrun; [vm_compute; reflexivity|].
    simpl. split; [reflexivity|exact I].
  - apply Hord.
    + repeat constructor; simpl; intuition discriminate.
    + intros kv [<-|[<-|[]]]; reflexivity.
  - apply (Hsize "50%"%string
             (set_outputs [new_output (DstPath "out.mp4")]
                          (new_FFmpegCommand None))).
    vm_compute. reflexivity.
Defined.

End LoweringFacts.

(** ** The builder *)

Module BuilderFacts.
Import LoweringFacts.

(** A token that cannot start a number has no numeric prefix. *)
Lemma parseInt_no_prefix t : no_numeric_prefix t = true -> parseInt t = NaN.
Proof.
  destruct t as [|ch r]; [reflexivity|].
  destruct ch as [[] [] [] [] [] [] [] []]; intros H;
    try discriminate H; reflexivity.
Qed.

(** C4, as stated, fails: the width [12abc] is not a number, yet [size]
    accepts ["12abcx720"] and stores the width 12 and the height 720. *)
Lemma size_accepts_numeric_prefix :
  decimal_numeral "12abc" = false
  /\ exists c',
       size "12abcx720"
         (set_outputs [new_output (DstPath "out.mp4")] (new_FFmpegCommand None))
       = Ok c'
       /\ stored_size c' = Some (SizeWH (Some (of_Z 12)) (Some (of_Z 720))).
Proof.
  split; [reflexivity|].
  eexists. split; vm_compute; reflexivity.
Qed.

(** C4 (amended): on a builder whose last output has its video enabled,
    [size] returns and the video settings of that output then hold width
    1280 and height 720 for ["1280x720"], width 1280 alone for
    ["1280x?"], height 720 alone for ["?x720"] and percent 50 for
    ["50%"].  On every builder it throws for ["0%"], ["abc"], ["?x?"] and
    ["0x100"]; for every percentage whose numeric prefix, as [parseFloat]
    reads it, is missing, not finite or not positive; for every dimension
    other than ["?"] whose numeric prefix, as [parseInt] reads it, is
    missing or not positive; so for every dimension other than ["?"] that
    is empty or starts with a character that is neither a digit, a sign
    nor white space.  Text that follows a numeric prefix is ignored.  The
    error is thrown by the call itself, whatever the builder holds. *)
Theorem size_parser_cases :
  (forall (c : FFmpegCommand) (o : OutputSettings) (v : VideoSettings),
     at_last (_outputs c) = Some o -> video o = Some v ->
     (exists c',
        size "1280x720" c = Ok c'
        /\ stored_size c'
           = Some (SizeWH (Some (of_Z 1280)) (Some (of_Z 720))))
     /\ (exists c',
           size "1280x?" c = Ok c'
           /\ stored_size c' = Some (SizeWH (Some (of_Z 1280)) None))
     /\ (exists c',
           size "?x720" c = Ok c'
           /\ stored_size c' = Some (SizeWH None (Some (of_Z 720))))
     /\ (exists c',
           size "50%" c = Ok c'
           /\ stored_size c' = Some (SizePercent (of_Z 50))))
  /\ (forall c : FFmpegCommand,
        size "0%" c = Throw "Invalid size: 0%"
        /\ size "abc" c = Throw "Invalid size: abc"
        /\ size "?x?" c = Throw "Width and height can't both be unknown"
        /\ size "0x100" c = Throw "Invalid width: 0")
  /\ (forall (c : FFmpegCommand) (sz : string),
        endsWith sz "%" = true ->
        isFinite (parseFloat (substring_but_last sz)) = false
        \/ num_leb (parseFloat (substring_but_last sz)) (of_Z 0) = true ->
        size sz c = Throw ("Invalid size: " +++ sz))
  /\ (forall (c : FFmpegCommand) (sz widthStr heightStr : string),
        endsWith sz "%" = false ->
        nth_error (split "x" sz) 0 = Some widthStr ->
        nth_error (split "x" sz) 1 = Some heightStr ->
        (widthStr <> "?"%string
         /\ (isNaN (parseInt widthStr) = true
             \/ num_leb (parseInt widthStr) (of_Z 0) = true))
        \/ (heightStr <> "?"%string
            /\ (isNaN (parseInt heightStr) = true
                \/ num_leb (parseInt heightStr) (of_Z 0) = true)) ->
        exists msg, size sz c = Throw msg)
  /\ (forall (c : FFmpegCommand) (sz widthStr heightStr : string),
        endsWith sz "%" = false ->
        nth_error (split "x" sz) 0 = Some widthStr ->
        nth_error (split "x" sz) 1 = Some heightStr ->
        (widthStr <> "?"%string /\ no_numeric_prefix widthStr = true)
        \/ (heightStr <> "?"%string /\ no_numeric_prefix heightStr = true) ->
        exists msg, size sz c = Throw msg).
Proof.
  assert (Hdims : forall (c : FFmpegCommand) (sz ws hs : string),
    endsWith sz "%" = false ->
    nth_error (split "x" sz) 0 = Some ws ->
    nth_error (split "x" sz) 1 = Some hs ->
    (ws <> "?"%string
     /\ (isNaN (parseInt ws) = true \/ num_leb (parseInt ws) (of_Z 0) = true))
    \/ (hs <> "?"%string
        /\ (isNaN (parseInt hs) = true
            \/ num_leb (parseInt hs) (of_Z 0) = true)) ->
    exists msg, size sz c = Throw msg).
  { intros c sz ws hs Hpct Hw Hh Hbad. unfold size, parse_size.
    rewrite Hpct, Hw, Hh.
    destruct (negb (str_truthy ws) || negb (str_truthy hs));
      [eexists; reflexivity|].
    assert (Hdim : forall t, t <> "?"%string ->
              isNaN (parseInt t) = true \/ num_leb (parseInt t) (of_Z 0) = true ->
              bad_dimension
                (if String.eqb t question_mark then None else Some (parseInt t))
              = true).
    { intros t Ht Hb. destruct (String.eqb_spec t question_mark) as [->|_].
      - now elim Ht.
      - cbn [bad_dimension].
        destruct Hb as [-> | ->]; [reflexivity|apply orb_true_r]. }
    destruct Hbad as [[Hq Hb]|[Hq Hb]].
    + rewrite (Hdim ws Hq Hb). eexists; reflexivity.
    + destruct (bad_dimension
                  (if String.eqb ws question_mark then None
                   else Some (parseInt ws)));
        [eexists; reflexivity|].
      rewrite (Hdim hs Hq Hb). eexists; reflexivity. }
  split; [|split; [|split; [|split]]].
  - intros c o v Ho Hv. repeat split.
    + apply (size_stores _ _ c o v); [vm_compute; reflexivity| |]; assumption.
    + apply (size_stores _ _ c o v); [vm_compute; reflexivity| |]; assumption.
    + apply (size_stores _ _ c o v); [vm_compute; reflexivity| |]; assumption.
    + apply (size_stores _ _ c o v); [vm_compute; reflexivity| |]; assumption.
  - intros c. unfold size.
    change (parse_size "0%") with (@Throw SizeSpec "Invalid size: 0%").
    change (parse_size "abc") with (@Throw SizeSpec "Invalid size: abc").
    change (parse_size "?x?")
      with (@Throw SizeSpec "Width and height can't both be unknown").
    change (parse_size "0x100") with (@Throw SizeSpec "Invalid width: 0").
    repeat split.
  - intros c sz Hpct Hbad. unfold size, parse_size. rewrite Hpct.
    assert (Hb : negb (isFinite (parseFloat (substring_but_last sz)))
                 || num_leb (parseFloat (substring_but_last sz)) (of_Z 0)
                 = true).
    { destruct Hbad as [-> | ->]; [reflexivity|apply orb_true_r]. }
    now rewrite Hb.
  - exact Hdims.
  - intros c sz ws hs Hpct Hw Hh Hbad.
    apply (Hdims c sz ws hs Hpct Hw Hh).
    destruct Hbad as [[Hq Hb]|[Hq Hb]]; [left|right]; (split; [exact Hq|]);
      left; now rewrite parseInt_no_prefix.
Qed.

Lemma size_parser_cases_witness :
  (exists c',
     size "1280x720"
       (set_outputs [new_output (DstPath "out.mp4")] (new_FFmpegCommand None))
     = Ok c'
     /\ stored_size c' = Some (SizeWH (Some (of_Z 1280)) (Some (of_Z 720))))
  /\ size "Infinity%" (new_FFmpegCommand None) = Throw "Invalid size: Infinity%"
  /\ size "-5%" (new_FFmpegCommand None) = Throw "Invalid size: -5%"
  /\ (exists msg, size "1280x-720" (new_FFmpegCommand None) = Throw msg)
  /\ (exists msg, size "widex720" (new_FFmpegCommand None) = Throw msg).
Proof.
  destruct size_parser_cases as (Hok & _ & Hpct & Hdim & Hsyn).
  split; [|split; [|split; [|split]]].
  - destruct (Hok (set_outputs [new_output (DstPath "out.mp4")]
                     (new_FFmpegCommand None))
                  (new_output (DstPath "out.mp4")) empty_video
                  eq_refl eq_refl) as [H _].
    exact H.
  - apply Hpct; [reflexivity|]. left. reflexivity.
  - apply Hpct; [reflexivity|]. right. vm_compute. reflexivity.
  - apply (Hdim _ "1280x-720" "1280" "-720")%string; try reflexivity.
    right. split; [discriminate|]. right. vm_compute. reflexivity.
  - apply (Hsyn _ "widex720" "wide" "720")%string; try reflexivity.
    left. split; [discriminate|reflexivity].
Defined.

Section Calls.

Variable tok : string -> list string.

(** Case analysis on a method that returned. *)
Ltac method_cases H :=
  unfold chain, inputFormat, inputFPS, native, seekInput, loop, inputOptions,
    outputOptions, noAudio, noVideo, audioCodec, audioBitrate, audioChannels,
    audioFrequency, audioQuality, audioFilters, videoCodec, videoBitrate,
    fps, frames, size, videoFilters, duration, seek, format, input, output,
    on_last_input, on_last_output, setAudioProps, setVideoProps,
    _getLastInput, _getLastOutput, bind in H;
  simpl in H;
  repeat match type of H with
         | context [match ?x with _ => _ end] =>
             lazymatch x with
             | context [match _ with _ => _ end] => fail
             | _ => let E := fresh "E" in destruct x eqn:E; simpl in H
             end
         end;
  try discriminate.

(** *** Running once *)

Lemma processStderr_proc line c : _proc (processStderr line c) = _proc c.
Proof.
  unfold processStderr; simpl.
  destruct (stdoutLines (_options c)) as [M|]; [|reflexivity].
  destruct (num_truthy M && _); reflexivity.
Qed.

Lemma notify_proc e c : _proc (notify e c) = _proc c.
Proof.
  destruct e as [|line|[|]]; simpl; try reflexivity.
  - destruct (_proc c) eqn:E; simpl; congruence.
  - apply processStderr_proc.
Qed.

Lemma exec_proc k c w c' w' p :
  _proc c = Some p -> exec tok k (c, w) = Ok (c', w') -> _proc c' = Some p.
Proof.
  intros Hp H.
  destruct k; simpl in H;
    try (method_cases H; injection H as <- <-; exact Hp).
  unfold run in H. simpl in H. rewrite Hp in H. discriminate.
Qed.

Lemma after_step_proc s st p :
  _proc (fst st) = Some p -> _proc (fst (after_step tok s st)) = Some p.
Proof.
  intros Hp. destruct s as [k|e]; simpl.
  - unfold after. destruct st as [c w].
    destruct (exec tok k (c, w)) as [[c' w']|msg] eqn:H; [|exact Hp].
    now apply (exec_proc k c w c' w').
  - now rewrite notify_proc.
Qed.

Lemma after_steps_proc ss : forall st p,
  _proc (fst st) = Some p -> _proc (fst (after_steps tok ss st)) = Some p.
Proof.
  induction ss as [|s ss IH]; intros st p Hp; simpl; [exact Hp|].
  apply IH. now apply after_step_proc.
Qed.

Lemma run_ok_proc signal exe c w proc c1 w1 :
  run signal exe c w = Ok (proc, c1, w1) -> _proc c1 = Some proc.
Proof.
  unfold run. destruct (_proc c); [discriminate|].
  destruct (_inputs c); [discriminate|].
  destruct (_outputs c); [discriminate|].
  destruct (build_args c w) as [args w2]. now intros [= <- <- <-].
Qed.

Lemma notify_inputs e c : _inputs (notify e c) = _inputs c.
Proof.
  destruct e as [|line|[|]]; simpl; try reflexivity.
  - destruct (_proc c); reflexivity.
  - unfold processStderr; simpl.
    destruct (stdoutLines (_options c)) as [M|]; [|reflexivity].
    destruct (num_truthy M && _); reflexivity.
Qed.

Lemma notify_outputs e c : _outputs (notify e c) = _outputs c.
Proof.
  destruct e as [|line|[|]]; simpl; try reflexivity.
  - destruct (_proc c); reflexivity.
  - unfold processStderr; simpl.
    destruct (stdoutLines (_options c)) as [M|]; [|reflexivity].
    destruct (num_truthy M && _); reflexivity.
Qed.

Lemma process_steps_frame events : forall c w,
  let st := after_steps tok (map Process events) (c, w) in
  _proc (fst st) = _proc c /\ _inputs (fst st) = _inputs c
  /\ _outputs (fst st) = _outputs c.
Proof.
  induction events as [|e events IH]; intros c w; simpl.
  - repeat split.
  - destruct (IH (notify e c) w) as (Hp & Hi & Ho).
    unfold after_steps in *. simpl in *.
    rewrite Hp, Hi, Ho, notify_proc, notify_inputs, notify_outputs.
    repeat split.
Qed.

(** Whether [run] throws, and what, depends on the process handle and on
    whether there are inputs and outputs. *)
Lemma run_throw_stable signal signal' exe exe' c c2 w w2 msg :
  run signal exe c w = Throw msg ->
  _proc c2 = _proc c -> _inputs c2 = _inputs c -> _outputs c2 = _outputs c ->
  run signal' exe' c2 w2 = Throw msg.
Proof.
  unfold run. intros H -> -> ->.
  destruct (_proc c); [exact H|].
  destruct (_inputs c); [exact H|].
  destruct (_outputs c); [exact H|].
  destruct (build_args c w). discriminate.
Qed.

(** C6: once [run] has returned the process, every later [run] on the
    same builder throws "This instance is already run", whatever was
    called on the builder in between and whatever the process did (lines
    on its standard error, success, failure); so at most one [run]
    returns.  And whether the first call returned or threw, a second call
    that follows it with no builder call in between throws. *)
Theorem run_at_most_once :
  forall (signal signal' : option nat) (exe exe' : Executable)
         (c : FFmpegCommand) (w : Bridge.World),
    (forall (c1 : FFmpegCommand) (w1 : Bridge.World) (proc : ResultPromise)
            (between : list step),
       run signal exe c w = Ok (proc, c1, w1) ->
       run signal' exe'
           (fst (after_steps tok between (c1, w1)))
           (snd (after_steps tok between (c1, w1)))
       = Throw "This instance is already run")
    /\ (forall events : list process_event,
          let st1 := after tok (Crun signal exe) (c, w) in
          exists msg,
            run signal' exe'
                (fst (after_steps tok (map Process events) st1))
                (snd (after_steps tok (map Process events) st1))
            = Throw msg).
Proof.
  intros signal signal' exe exe' c w. split.
  - intros c1 w1 proc between H.
    pose proof (run_ok_proc _ _ _ _ _ _ _ H) as Hp.
    pose proof (after_steps_proc between (c1, w1) proc Hp) as Hp'.
    unfold run. now rewrite Hp'.
  - intros events st1.
    assert (Hst : st1 = match run signal exe c w with
                        | Ok r => (snd (fst r), snd r)
                        | Throw _ => (c, w)
                        end).
    { unfold st1, after, exec, bind. simpl.
      now destruct (run signal exe c w). }
    clearbody st1. subst st1.
    destruct (run signal exe c w) as [[[proc c1] w1]|msg] eqn:H; simpl.
    + pose proof (run_ok_proc _ _ _ _ _ _ _ H) as Hp.
      pose proof (after_steps_proc (map Process events) (c1, w1) proc Hp)
        as Hp'.
      exists "This instance is already run"%string.
      unfold run. now rewrite Hp'.
    + exists msg.
      destruct (process_steps_frame events c w) as (Hp & Hi & Ho).
      now apply (run_throw_stable signal signal' exe exe' c _ w).
Qed.

(** *** Disabled tracks *)

Lemma at_last_app {A} (x : A) : forall l : list A, at_last (l ++ [x]) = Some x.
Proof.
  induction l as [|y l IH]; [reflexivity|].
  simpl. rewrite IH. destruct (l ++ [x]) eqn:E; [|reflexivity].
  now destruct l.
Qed.

(** A call other than [output] leaves a disabled track of the last output
    disabled. *)
Lemma exec_keeps_disabled k c w c' w' :
  output_call k = false ->
  exec tok k (c, w) = Ok (c', w') ->
  (last_audio c = Some None -> last_audio c' = Some None)
  /\ (last_video c = Some None -> last_video c' = Some None).
Proof.
  intros Hk H. unfold last_audio, last_video.
  destruct k; try discriminate Hk; simpl in H;
    try (method_cases H; injection H as <- <-; simpl;
         rewrite ?at_last_update_last;
         repeat match goal with
                | E : at_last _ = _ |- _ => rewrite E
                end;
         simpl; split; intros Hd; simpl in *; congruence).
  unfold run, bind in H. simpl in H.
  destruct (_proc c); [discriminate|].
  destruct (_inputs c); [discriminate|].
  destruct (_outputs c) eqn:Ho; [discriminate|].
  destruct (build_args c w) as [args w2]. simpl in H.
  injection H as <- <-. simpl. rewrite Ho. split; trivial.
Qed.

Lemma after_steps_keep_disabled between : forall st,
  forallb (fun s => negb (output_step s)) between = true ->
  (last_audio (fst st) = Some None ->
   last_audio (fst (after_steps tok between st)) = Some None)
  /\ (last_video (fst st) = Some None ->
      last_video (fst (after_steps tok between st)) = Some None).
Proof.
  induction between as [|s between IH]; intros st Hb; simpl in *.
  - split; trivial.
  - apply andb_true_iff in Hb. destruct Hb as [Hs Hb].
    destruct (IH (after_step tok s st) Hb) as [IHa IHv].
    assert (Hstep :
      (last_audio (fst st) = Some None ->
       last_audio (fst (after_step tok s st)) = Some None)
      /\ (last_video (fst st) = Some None ->
          last_video (fst (after_step tok s st)) = Some None)).
    { destruct s as [k|e]; simpl.
      - unfold after. destruct st as [c w].
        destruct (exec tok k (c, w)) as [[c' w']|msg] eqn:He.
        + apply (exec_keeps_disabled k c w c' w'); [|exact He].
          simpl in Hs. now apply negb_true_iff in Hs.
        + split; trivial.
      - unfold last_audio, last_video. rewrite notify_outputs.
        split; trivial. }
    destruct Hstep as [Ha Hv]. split; auto.
Qed.

Lemma audio_call_disabled k c w :
  last_audio c = Some None -> audio_call k = true ->
  exec tok k (c, w) = Throw "Audio disabled".
Proof.
  unfold last_audio. intros Hd Hk.
  destruct (at_last (_outputs c)) as [o|] eqn:Ho; [|discriminate].
  injection Hd as Hd.
  destruct k; try discriminate Hk; simpl;
    unfold chain, audioCodec, audioBitrate, audioChannels, audioFrequency,
      audioQuality, audioFilters, setAudioProps, _getLastOutput; simpl;
    now rewrite Ho; simpl; rewrite Hd.
Qed.

Lemma video_call_disabled k c w :
  last_video c = Some None -> video_call k = true ->
  exists msg,
    exec tok k (c, w) = Throw msg
    /\ (valid_argument k = true -> msg = "Video disabled"%string).
Proof.
  unfold last_video. intros Hd Hk.
  destruct (at_last (_outputs c)) as [o|] eqn:Ho; [|discriminate].
  injection Hd as Hd.
  destruct k; try discriminate Hk; simpl;
    unfold chain, videoCodec, videoBitrate, fps, frames, size, videoFilters,
      setVideoProps, _getLastOutput; simpl;
    try (rewrite Ho; simpl; rewrite Hd; eexists; split; reflexivity).
  destruct (parse_size sz) as [spec|msg]; simpl.
  - rewrite Ho; simpl. rewrite Hd. eexists; split; reflexivity.
  - exists msg. split; [reflexivity|discriminate].
Qed.

Lemma setting_call_enabled k c w a v :
  last_audio c = Some (Some a) -> last_video c = Some (Some v) ->
  audio_call k || video_call k = true -> valid_argument k = true ->
  exists st', exec tok k (c, w) = Ok st'.
Proof.
  unfold last_audio, last_video. intros Ha Hv Hk Hvalid.
  destruct (at_last (_outputs c)) as [o|] eqn:Ho; [|discriminate].
  injection Ha as Ha. injection Hv as Hv.
  destruct k; try discriminate Hk; simpl;
    unfold chain, audioCodec, audioBitrate, audioChannels, audioFrequency,
      audioQuality, audioFilters, setAudioProps, videoCodec, videoBitrate,
      fps, frames, size, videoFilters, setVideoProps, _getLastOutput; simpl;
    try (rewrite Ho; simpl; rewrite ?Ha, ?Hv; simpl; eexists; reflexivity).
  simpl in Hvalid. destruct (parse_size sz) as [spec|msg]; [|discriminate].
  simpl. rewrite Ho; simpl. rewrite Hv. simpl. eexists; reflexivity.
Qed.

(** C7: after [noAudio] every audio-setting call on that output throws
    "Audio disabled", and after [noVideo] every video-setting call on that
    output throws ("Video disabled", or the validation error of [size] for
    a malformed size), whatever is called in between short of [output];
    [output] appends an output with empty audio and video settings, and on
    it every audio- and video-setting call with a valid argument
    returns. *)
Theorem disabled_track_rejects_settings :
  forall (st : state) (between : list step) (d : Destination) (k : call),
    forallb (fun s => negb (output_step s)) between = true ->
    (forall st1, exec tok CnoAudio st = Ok st1 -> audio_call k = true ->
       exec tok k (after_steps tok between st1) = Throw "Audio disabled")
    /\ (forall st1, exec tok CnoVideo st = Ok st1 -> video_call k = true ->
          exists msg,
            exec tok k (after_steps tok between st1) = Throw msg
            /\ (valid_argument k = true -> msg = "Video disabled"%string))
    /\ at_last (_outputs (fst (after tok (Coutput d) st))) = Some (new_output d)
    /\ audio (new_output d) = Some empty_audio
    /\ video (new_output d) = Some empty_video
    /\ (audio_call k || video_call k = true -> valid_argument k = true ->
        exists st', exec tok k (after tok (Coutput d) st) = Ok st').
Proof.
  intros [c w] between d k Hb.
  destruct (after_steps_keep_disabled between) with (st := (c, w)) as [_ _];
    [exact Hb|].
  assert (Hout : after tok (Coutput d) (c, w)
                 = (set_outputs (_outputs c ++ [new_output d]) c, w))
    by reflexivity.
  split; [|split; [|split; [|split; [|split]]]].
  - intros [c1 w1] H1 Hk.
    assert (Hd : last_audio c1 = Some None).
    { simpl in H1. method_cases H1. injection H1 as <- <-.
      unfold last_audio. simpl. rewrite at_last_update_last.
      repeat match goal with E : at_last _ = _ |- _ => rewrite E end.
      reflexivity. }
    destruct (after_steps_keep_disabled between (c1, w1) Hb) as [Ha _].
    specialize (Ha Hd).
    destruct (after_steps tok between (c1, w1)) as [c2 w2].
    now apply audio_call_disabled.
  - intros [c1 w1] H1 Hk.
    assert (Hd : last_video c1 = Some None).
    { simpl in H1. method_cases H1. injection H1 as <- <-.
      unfold last_video. simpl. rewrite at_last_update_last.
      repeat match goal with E : at_last _ = _ |- _ => rewrite E end.
      reflexivity. }
    destruct (after_steps_keep_disabled between (c1, w1) Hb) as [_ Hv].
    specialize (Hv Hd).
    destruct (after_steps tok between (c1, w1)) as [c2 w2].
    now apply video_call_disabled.
  - rewrite Hout. simpl. apply at_last_app.
  - reflexivity.
  - reflexivity.
  - intros Hk Hvalid. rewrite Hout.
    apply (setting_call_enabled k _ w empty_audio empty_video);
      try assumption;
      unfold last_audio, last_video; simpl; now rewrite at_last_app.
Qed.

(** *** Settings that are zero or empty *)

Lemma at_last_None {A} : forall l : list A, at_last l = None -> l = [].
Proof.
  induction l as [|x [|y l] IH]; intros H; try reflexivity; try discriminate.
  specialize (IH H). discriminate.
Qed.

Lemma update_last_id {A} (f : A -> A) : forall l : list A,
  (forall x, at_last l = Some x -> f x = x) -> update_last f l = l.
Proof.
  induction l as [|x [|y l] IH]; intros H; try reflexivity.
  - simpl. now rewrite (H x eq_refl).
  - change (x :: update_last f (y :: l) = x :: y :: l).
    f_equal. apply IH. exact H.
Qed.

Lemma fold_update_last_ext {A B} (step : B -> A -> B) (f g : A -> A) :
  (forall x st, step st (f x) = step st (g x)) ->
  forall (l : list A) st,
    fold_left step (update_last f l) st = fold_left step (update_last g l) st.
Proof.
  intros H. induction l as [|x [|y l] IH]; intros st; try reflexivity.
  - simpl. apply H.
  - change (fold_left step (update_last f (y :: l)) (step st x)
            = fold_left step (update_last g (y :: l)) (step st x)).
    apply IH.
Qed.

Lemma build_args_ext c1 c2 w :
  _inputs c1 = _inputs c2 -> _outputs c1 = _outputs c2 ->
  build_args c1 w = build_args c2 w.
Proof. unfold build_args. now intros -> ->. Qed.

Lemma fst_after_chain k m c w :
  exec tok k (c, w) = chain m (c, w) ->
  fst (after tok k (c, w)) = match m c with Ok c' => c' | Throw _ => c end.
Proof.
  intros H. unfold after. rewrite H. unfold chain, bind. simpl.
  destruct (m c); reflexivity.
Qed.

(** The builder after a method that assigns to the last input, to the
    last output, to its audio settings or to its video settings, whether
    the method returned or threw. *)
Lemma after_on_last_input f c :
  let c' := match on_last_input f c with Ok c' => c' | Throw _ => c end in
  _inputs c' = update_last f (_inputs c) /\ _outputs c' = _outputs c.
Proof.
  unfold on_last_input, _getLastInput, bind.
  destruct (at_last (_inputs c)) eqn:E; simpl; [now split|].
  apply at_last_None in E. rewrite E. now split.
Qed.

Lemma after_on_last_output f c :
  let c' := match on_last_output f c with Ok c' => c' | Throw _ => c end in
  _inputs c' = _inputs c /\ _outputs c' = update_last f (_outputs c).
Proof.
  unfold on_last_output, _getLastOutput, bind.
  destruct (at_last (_outputs c)) eqn:E; simpl; [now split|].
  apply at_last_None in E. rewrite E. now split.
Qed.

Lemma update_last_ext {A} (f g : A -> A) : forall l : list A,
  (forall x, at_last l = Some x -> f x = g x) ->
  update_last f l = update_last g l.
Proof.
  induction l as [|x [|y l] IH]; intros H; try reflexivity.
  - simpl. now rewrite (H x eq_refl).
  - change (x :: update_last f (y :: l) = x :: update_last g (y :: l)).
    f_equal. apply IH. exact H.
Qed.

Lemma after_setAudioProps assign c :
  let c' := match setAudioProps assign c with Ok c' => c' | Throw _ => c end in
  _inputs c' = _inputs c
  /\ _outputs c'
     = update_last
         (fun o => match audio o with
                   | Some a => set_audio (Some (assign a)) o
                   | None => o
                   end) (_outputs c).
Proof.
  unfold setAudioProps, _getLastOutput, bind.
  destruct (at_last (_outputs c)) as [o|] eqn:E; simpl.
  - destruct (audio o) as [a|] eqn:Ea; simpl; split; try reflexivity.
    + apply update_last_ext. intros x Hx.
      rewrite E in Hx. injection Hx as <-. now rewrite Ea.
    + symmetry. apply update_last_id. intros x Hx.
      rewrite E in Hx. injection Hx as <-. now rewrite Ea.
  - apply at_last_None in E. rewrite E. now split.
Qed.

Lemma after_setVideoProps assign c :
  let c' := match setVideoProps assign c with Ok c' => c' | Throw _ => c end in
  _inputs c' = _inputs c
  /\ _outputs c'
     = update_last
         (fun o => match video o with
                   | Some v => set_video (Some (assign v)) o
                   | None => o
                   end) (_outputs c).
Proof.
  unfold setVideoProps, _getLastOutput, bind.
  destruct (at_last (_outputs c)) as [o|] eqn:E; simpl.
  - destruct (video o) as [v|] eqn:Ev; simpl; split; try reflexivity.
    + apply update_last_ext. intros x Hx.
      rewrite E in Hx. injection Hx as <-. now rewrite Ev.
    + symmetry. apply update_last_id. intros x Hx.
      rewrite E in Hx. injection Hx as <-. now rewrite Ev.
  - apply at_last_None in E. rewrite E. now split.
Qed.

(** The vector after a call that assigns to the last input equals the
    vector of the builder with another assignment, when the two
    assignments lower to the same tokens. *)
Lemma build_args_input_call k f g c w0 w :
  exec tok k (c, w0) = chain (on_last_input f) (c, w0) ->
  (forall i st, run_input st (f i) = run_input st (g i)) ->
  build_args (fst (after tok k (c, w0))) w
  = build_args (with_last_input g c) w.
Proof.
  intros Hk Hfg. rewrite (fst_after_chain k _ c w0 Hk).
  destruct (after_on_last_input f c) as [Hi Ho].
  unfold build_args, with_last_input. rewrite Hi, Ho. simpl.
  now rewrite (fold_update_last_ext run_input f g Hfg).
Qed.

Lemma build_args_output_call k f g c w0 w :
  exec tok k (c, w0) = chain (on_last_output f) (c, w0) ->
  (forall o st, run_output st (f o) = run_output st (g o)) ->
  build_args (fst (after tok k (c, w0))) w
  = build_args (with_last_output g c) w.
Proof.
  intros Hk Hfg. rewrite (fst_after_chain k _ c w0 Hk).
  destruct (after_on_last_output f c) as [Hi Ho].
  unfold build_args, with_last_output. rewrite Hi, Ho. simpl.
  now rewrite (fold_update_last_ext run_output f g Hfg).
Qed.

Lemma audio_eta o : audio o = None -> set_audio None o = o.
Proof. destruct o; simpl. now intros ->. Qed.

Lemma video_eta o : video o = None -> set_video None o = o.
Proof. destruct o; simpl. now intros ->. Qed.

Lemma build_args_audio_call k f g c w0 w :
  exec tok k (c, w0) = chain (setAudioProps f) (c, w0) ->
  (forall a args, run_audio (Some (f a)) args = run_audio (Some (g a)) args) ->
  build_args (fst (after tok k (c, w0))) w
  = build_args (with_last_output (in_audio g) c) w.
Proof.
  intros Hk Hfg. rewrite (fst_after_chain k _ c w0 Hk).
  destruct (after_setAudioProps f c) as [Hi Ho].
  unfold build_args, with_last_output. rewrite Hi, Ho. simpl.
  apply fold_update_last_ext. intros o [args w1]. unfold in_audio.
  destruct (audio o) as [a|] eqn:Ea; cbn [option_map].
  - rewrite !run_output_group. unfold Lowering.output_group.
    cbn [set_audio audio video dst out_format duration_ out_startTime
         out_extraOpts].
    now rewrite Hfg.
  - now rewrite audio_eta.
Qed.

Lemma build_args_video_call k f g c w0 w :
  exec tok k (c, w0) = chain (setVideoProps f) (c, w0) ->
  (forall v args, run_video (Some (f v)) args = run_video (Some (g v)) args) ->
  build_args (fst (after tok k (c, w0))) w
  = build_args (with_last_output (in_video g) c) w.
Proof.
  intros Hk Hfg. rewrite (fst_after_chain k _ c w0 Hk).
  destruct (after_setVideoProps f c) as [Hi Ho].
  unfold build_args, with_last_output. rewrite Hi, Ho. simpl.
  apply fold_update_last_ext. intros o [args w1]. unfold in_video.
  destruct (video o) as [v|] eqn:Ev; cbn [option_map].
  - rewrite !run_output_group. unfold Lowering.output_group.
    cbn [set_video audio video dst out_format duration_ out_startTime
         out_extraOpts].
    now rewrite Hfg.
  - now rewrite video_eta.
Qed.

(** C10: a numeric setting set to 0, or a format set to the empty string,
    leaves the argument vector as it is with the setting unset: [run]
    emits no flag for it.  This holds for [inputFPS(0)], [seekInput(0)],
    [inputFormat] with the empty string, [audioBitrate(0)], [audioChannels(0)],
    [audioFrequency(0)], [audioQuality(0)], [videoBitrate(0)], [fps(0)],
    [frames(0)], [seek(0)], [duration(0)], [format] with the empty string,
    and for a codec set to the empty string. *)
Theorem zero_settings_emit_no_flag :
  forall (c : FFmpegCommand) (w0 w : Bridge.World),
    build_args (fst (after tok (CinputFPS (of_Z 0)) (c, w0))) w
    = build_args (with_last_input (set_in_fps None) c) w
    /\ build_args (fst (after tok (CseekInput (VNum (of_Z 0))) (c, w0))) w
       = build_args (with_last_input (set_in_startTime None) c) w
    /\ build_args (fst (after tok (CinputFormat EmptyString) (c, w0))) w
       = build_args (with_last_input (set_in_format None) c) w
    /\ build_args (fst (after tok (CaudioBitrate (VNum (of_Z 0))) (c, w0))) w
       = build_args (with_last_output (in_audio (set_a_bitrate None)) c) w
    /\ build_args (fst (after tok (CaudioChannels (of_Z 0)) (c, w0))) w
       = build_args (with_last_output (in_audio (set_channels None)) c) w
    /\ build_args (fst (after tok (CaudioFrequency (of_Z 0)) (c, w0))) w
       = build_args (with_last_output (in_audio (set_freq None)) c) w
    /\ build_args (fst (after tok (CaudioQuality (of_Z 0)) (c, w0))) w
       = build_args (with_last_output (in_audio (set_quality None)) c) w
    /\ build_args (fst (after tok (CvideoBitrate (VNum (of_Z 0))) (c, w0))) w
       = build_args (with_last_output (in_video (set_v_bitrate None)) c) w
    /\ build_args (fst (after tok (Cfps (of_Z 0)) (c, w0))) w
       = build_args (with_last_output (in_video (set_v_fps None)) c) w
    /\ build_args (fst (after tok (Cframes (of_Z 0)) (c, w0))) w
       = build_args (with_last_output (in_video (set_frames None)) c) w
    /\ build_args (fst (after tok (Cseek (VNum (of_Z 0))) (c, w0))) w
       = build_args (with_last_output (set_out_startTime None) c) w
    /\ build_args (fst (after tok (Cduration (VNum (of_Z 0))) (c, w0))) w
       = build_args (with_last_output (set_duration None) c) w
    /\ build_args (fst (after tok (Cformat EmptyString) (c, w0))) w
       = build_args (with_last_output (set_out_format None) c) w
    /\ build_args (fst (after tok (CaudioCodec EmptyString) (c, w0))) w
       = build_args (with_last_output (in_audio (set_a_codec None)) c) w
    /\ build_args (fst (after tok (CvideoCodec EmptyString) (c, w0))) w
       = build_args (with_last_output (in_video (set_v_codec None)) c) w.
Proof.
  intros c w0 w.
  repeat match goal with |- _ /\ _ => split end;
    first
      [ eapply build_args_input_call; [reflexivity|]; intros i [args w1];
        reflexivity
      | eapply build_args_audio_call; [reflexivity|]; intros a args;
        reflexivity
      | eapply build_args_video_call; [reflexivity|]; intros v args;
        reflexivity
      | eapply build_args_output_call; [reflexivity|]; intros o [args w1];
        reflexivity ].
Qed.

End Calls.

Lemma run_at_most_once_witness :
  let tok := fun s : string => [s] in
  let w0 := Bridge.empty_world Bridge.Posix (fun _ => "5f0c"%string) in
  let c0 :=
    fst (after_all tok [Cinput (SrcPath "in.mp4"); Coutput (DstPath "out.mp4")]
           (new_FFmpegCommand None, w0)) in
  let proc := execa "ffmpeg" ["-i"; "in.mp4"; "out.mp4"]%string None in
  let between :=
    [Process Spawned; Process (StderrLine "frame=1"); Process (Settled false);
     Call (Coutput (DstPath "again.mp4"))] in
  run None (default_executable None None)
      (fst (after_steps tok between (set_proc (Some proc) c0, w0)))
      (snd (after_steps tok between (set_proc (Some proc) c0, w0)))
  = Throw "This instance is already run".
Proof.
  intros tok w0 c0 proc between.
  destruct (run_at_most_once tok None None (default_executable None None)
              (default_executable None None) c0 w0) as [Hrun _].
  apply (Hrun (set_proc (Some proc) c0) w0 proc between).
  reflexivity.
Defined.

(** A [run] that threw leaves the builder able to run: the handle is
    assigned only once the process has been handed over. *)
Example run_after_failed_run :
  let tok := fun s : string => [s] in
  let w0 := Bridge.empty_world Bridge.Posix (fun _ => "5f0c"%string) in
  run None (default_executable None None) (new_FFmpegCommand None) w0
  = Throw "No inputs specified"
  /\ exists st',
       exec tok (Crun None (default_executable None None))
         (after_all tok
            [Crun None (default_executable None None);
             Cinput (SrcPath "in.mp4"); Coutput (DstPath "out.mp4")]
            (new_FFmpegCommand None, w0))
       = Ok st'.
Proof. split; [reflexivity|]. eexists. reflexivity. Qed.

Lemma disabled_track_rejects_settings_witness :
  let tok := fun s : string => [s] in
  let st :=
    after_all tok [Cinput (SrcPath "in.mp4"); Coutput (DstPath "a.mp4")]
      (new_FFmpegCommand None,
       Bridge.empty_world Bridge.Posix (fun _ => "5f0c"%string)) in
  let between :=
    [Call (CvideoCodec "libx264"); Call (CaudioBitrate (VStr "128k"));
     Process (StderrLine "frame=1")] in
  exec tok (CaudioCodec "aac") (after_steps tok between (after tok CnoAudio st))
  = Throw "Audio disabled"
  /\ (exists msg,
        exec tok (Csize "640x?")
          (after_steps tok between (after tok CnoVideo st)) = Throw msg
        /\ (valid_argument (Csize "640x?") = true
            -> msg = "Video disabled"%string))
  /\ (exists st',
        exec tok (CaudioCodec "aac")
          (after tok (Coutput (DstPath "b.mp4")) (after tok CnoAudio st))
        = Ok st').
Proof.
  intros tok st between. split; [|split].
  - destruct (disabled_track_rejects_settings tok st between
                (DstPath "b.mp4") (CaudioCodec "aac") eq_refl)
      as (Ha & _).
    apply Ha; reflexivity.
  - destruct (disabled_track_rejects_settings tok st between
                (DstPath "b.mp4") (Csize "640x?") eq_refl)
      as (_ & Hv & _).
    apply Hv; reflexivity.
  - destruct (disabled_track_rejects_settings tok (after tok CnoAudio st)
                between (DstPath "b.mp4") (CaudioCodec "aac") eq_refl)
      as (_ & _ & _ & _ & _ & Hok).
    apply Hok; reflexivity.
Defined.

End BuilderFacts.

(** * Further properties of the stream wrapper *)

Module BridgeCoverage.
Import Bridge BridgeFacts.
Local Open Scope nat_scope.

Lemma well_formed_perform w a : well_formed w -> well_formed (perform w a).
Proof.
  intros [Hl Ha]. destruct a as [k sock|stream|b|stream|stream args]; simpl.
  - split.
    + intros s k'. rewrite connection_closeListeners, connection_servers.
      apply Hl.
    + intros k' sock'. rewrite connection_accepted, connection_servers.
      intros Hin. apply in_app_or in Hin. destruct Hin as [Hin|Hin].
      * now apply (Ha k' sock').
      * destruct (listening k w) eqn:Hk; [|destruct Hin].
        destruct Hin as [[= <- <-]|[]].
        unfold listening in Hk.
        destruct (nth_error (servers w) k) eqn:E; [|discriminate].
        apply nth_error_Some. congruence.
  - rewrite stream_close_unfold.
    destruct (close_listeners_frame stream (closeListeners w) w)
      as (Hc & Hacc & _ & Hlen).
    split; intros x y; rewrite ?Hc, ?Hacc, Hlen; [apply Hl|apply Ha].
  - unfold close.
    destruct (BridgeFacts.Server_close_frame (_server b) w) as (Hc & Hacc & _).
    split; intros x y;
      rewrite ?Hc, ?Hacc, BridgeFacts.Server_close_servers_length;
      [apply Hl|apply Ha].
  - destruct (new_NamedPipeStream_facts stream (Some (StreamToSocket stream)) w)
      as (_ & Hs & Hc & Hacc & _).
    unfold StreamInput.
    split; intros x y; rewrite ?Hc, ?Hacc, Hs, length_app; simpl; intros Hin.
    + apply in_app_or in Hin. destruct Hin as [Hin|[[= _ <-]|[]]].
      * apply Hl in Hin. lia.
      * lia.
    + apply Ha in Hin. lia.
  - destruct (new_NamedPipeStream_facts stream
                (Some (SocketToStream stream args)) w)
      as (_ & Hs & Hc & Hacc & _).
    unfold StreamOutput.
    split; intros x y; rewrite ?Hc, ?Hacc, Hs, length_app; simpl; intros Hin.
    + apply in_app_or in Hin. destruct Hin as [Hin|[[= _ <-]|[]]].
      * apply Hl in Hin. lia.
      * lia.
    + apply Ha in Hin. lia.
Qed.

(** X1: a world stays well formed under every sequence of connections,
    stream closes, [close()] calls and new bridges: close listeners and
    accepted connections always refer to servers that exist. *)
Theorem well_formed_kept :
  forall (w : World) (t : list action),
    well_formed w -> well_formed (perform_all w t).
Proof.
  intros w t. revert w. induction t as [|a t IH]; intros w H; simpl.
  - exact H.
  - apply IH. now apply well_formed_perform.
Qed.

Lemma well_formed_kept_witness :
  well_formed
    (perform_all (empty_world Posix (fun _ => "5f0c"%string))
       [NewInput 7; Connect 0 1; NewOutput 7 None; StreamClosed 7; Connect 1 2]).
Proof.
  apply (well_formed_kept (empty_world Posix (fun _ => "5f0c"%string))).
  apply empty_world_well_formed.
Defined.

(** *** The address and the path *)

Lemma append_cancel_l (p a b : string) : p +++ a = p +++ b -> a = b.
Proof.
  induction p as [|x p IH]; simpl; [trivial|].
  intros [= H]. now apply IH.
Qed.

Lemma append_length (a b : string) :
  String.length (a +++ b) = String.length a + String.length b.
Proof. induction a as [|x a IH]; simpl; [reflexivity|now rewrite IH]. Qed.

Lemma append_cancel_r (s : string) : forall a b : string,
  a +++ s = b +++ s -> a = b.
Proof.
  induction a as [|x a IH]; intros [|y b] H; simpl in *.
  - reflexivity.
  - apply (f_equal String.length) in H. simpl in H.
    rewrite append_length in H. lia.
  - apply (f_equal String.length) in H. simpl in H.
    rewrite append_length in H. lia.
  - injection H as -> H. f_equal. now apply IH.
Qed.

Lemma url_of_id stream l w :
  let b := fst (new_NamedPipeStream stream l w) in
  let id := uuids w (uuid_next w) in
  match platform w with
  | Win32 =>
      _socketPath b
      = backslash +++ backslash +++ "." +++ backslash +++ "pipe"
        +++ backslash +++ id +++ ".sock"
      /\ _url b = _socketPath b
  | Posix =>
      _socketPath b = "/tmp/" +++ id +++ ".sock"
      /\ _url b = "unix:" +++ _socketPath b
  end.
Proof.
  unfold new_NamedPipeStream, randomUUID, statSync, unlinkSync, createServer,
    on_close, listen, path_exists.
  destruct (platform w) eqn:Hp; cbn -[String.eqb String.append existsb filter];
    rewrite ?Hp; cbn -[String.eqb String.append existsb filter];
    try match goal with
        | |- context [existsb ?f (files w)] => destruct (existsb f (files w))
        end; split; reflexivity.
Qed.

(** X3: on one platform two bridges have the same address exactly when
    [randomUUID] gave them the same id; each constructor takes one id, so
    two bridges opened one after the other share an address only if the id
    repeated. *)
Theorem bridge_address_follows_id :
  forall (stream stream' : stream_id) (l l' : option connectionListener)
         (w w' : World),
    platform w = platform w' ->
    (url (fst (new_NamedPipeStream stream l w))
     = url (fst (new_NamedPipeStream stream' l' w'))
     <-> uuids w (uuid_next w) = uuids w' (uuid_next w'))
    /\ uuid_next (snd (new_NamedPipeStream stream l w)) = S (uuid_next w)
    /\ uuids (snd (new_NamedPipeStream stream l w)) = uuids w
    /\ platform (snd (new_NamedPipeStream stream l w)) = platform w.
Proof.
  intros stream stream' l l' w w' Hp.
  pose proof (url_of_id stream l w) as H1.
  pose proof (url_of_id stream' l' w') as H2.
  cbv zeta in H1, H2. rewrite <- Hp in H2. unfold url.
  split; [|].
  - destruct (platform w); destruct H1 as [Hs1 Hu1]; destruct H2 as [Hs2 Hu2];
      rewrite Hu1, Hu2, Hs1, Hs2; split; intros H;
      try (now rewrite H).
    + repeat apply append_cancel_l in H.
      now apply append_cancel_r in H.
    + repeat apply append_cancel_l in H.
      now apply append_cancel_r in H.
  - unfold new_NamedPipeStream, randomUUID, statSync, unlinkSync,
      createServer, on_close, listen, path_exists.
    destruct (platform w) eqn:Hq;
      cbn -[String.eqb String.append existsb filter];
      rewrite ?Hq; cbn -[String.eqb String.append existsb filter];
      try match goal with
          | |- context [existsb ?f (files w)] => destruct (existsb f (files w))
          end; repeat split.
Qed.

Lemma bridge_address_follows_id_witness :
  uuid_next
    (snd (new_NamedPipeStream 7 None (empty_world Posix (fun _ => "5f0c"%string))))
  = 1.
Proof.
  destruct (bridge_address_follows_id 7 7 None None
              (empty_world Posix (fun _ => "5f0c"%string))
              (empty_world Posix (fun _ => "5f0c"%string)) eq_refl)
    as (_ & H & _).
  exact H.
Defined.

(** *** Open until closed *)

Lemma listening_perform_all k stream l t : forall w,
  bridge_inv k stream l w ->
  listening k (perform_all w t)
  = listening k w && negb (existsb (closes k stream) t).
Proof.
  induction t as [|a t IH]; intros w Hinv; simpl.
  - now rewrite andb_true_r.
  - rewrite IH by now apply bridge_inv_perform.
    rewrite (bridge_listening_perform k stream l) by exact Hinv.
    rewrite negb_orb. now rewrite andb_assoc.
Qed.

(** X4: an acceptor that listens once its bridge is constructed listens
    exactly until its own stream closes or its own [close()] is called:
    connections, other streams closing, other bridges being closed or
    opened leave it listening. *)
Theorem acceptor_open_until_closed :
  forall (w : World) (stream : stream_id) (l : option connectionListener)
         (t : list action),
    well_formed w ->
    let b := fst (new_NamedPipeStream stream l w) in
    let w1 := snd (new_NamedPipeStream stream l w) in
    listening (_server b) w1 = true ->
    listening (_server b) (perform_all w1 t)
    = negb (existsb (closes (_server b) stream) t).
Proof.
  intros w stream l t Hwf b w1 Hopen.
  destruct (new_NamedPipeStream_inv stream l w Hwf) as (Hinv & _ & _).
  fold b in Hinv. fold w1 in Hinv.
  rewrite (listening_perform_all _ stream l) by exact Hinv.
  now rewrite Hopen.
Qed.

Lemma acceptor_open_until_closed_witness :
  listening 0
    (perform_all (snd (StreamInput 7 (empty_world Posix (fun _ => "5f0c"%string))))
       [Connect 0 1; NewOutput 8 None; StreamClosed 8;
        CallClose {| _socketPath := "p"; _url := "u"; _server := 1 |}])
  = true.
Proof.
  apply (acceptor_open_until_closed
           (empty_world Posix (fun _ => "5f0c"%string)) 7
           (Some (StreamToSocket 7))
           [Connect 0 1; NewOutput 8 None; StreamClosed 8;
            CallClose {| _socketPath := "p"; _url := "u"; _server := 1 |}]).
  - apply empty_world_well_formed.
  - reflexivity.
Defined.

End BridgeCoverage.

(** * Further properties of the builder *)

Module BuilderCoverage.
Import Predicates LoweringFacts BuilderFacts.

Lemma set_inputs_same c : set_inputs (_inputs c) c = c.
Proof. now destruct c. Qed.

Lemma set_outputs_same c : set_outputs (_outputs c) c = c.
Proof. now destruct c. Qed.

Lemma with_last_input_none f c : _inputs c = [] -> with_last_input f c = c.
Proof.
  intros H. unfold with_last_input. rewrite H. simpl.
  rewrite <- H. apply set_inputs_same.
Qed.

Lemma with_last_output_none f c : _outputs c = [] -> with_last_output f c = c.
Proof.
  intros H. unfold with_last_output. rewrite H. simpl.
  rewrite <- H. apply set_outputs_same.
Qed.

Lemma on_last_input_effect f c :
  match on_last_input f c with Ok c' => c' | Throw _ => c end
  = with_last_input f c.
Proof.
  unfold on_last_input, _getLastInput, bind.
  destruct (at_last (_inputs c)) eqn:E; simpl; [reflexivity|].
  symmetry. apply with_last_input_none. now apply at_last_None.
Qed.

Lemma on_last_output_effect f c :
  match on_last_output f c with Ok c' => c' | Throw _ => c end
  = with_last_output f c.
Proof.
  unfold on_last_output, _getLastOutput, bind.
  destruct (at_last (_outputs c)) eqn:E; simpl; [reflexivity|].
  symmetry. apply with_last_output_none. now apply at_last_None.
Qed.

Lemma with_last_output_ext f g c :
  (forall o, at_last (_outputs c) = Some o -> f o = g o) ->
  with_last_output f c = with_last_output g c.
Proof.
  intros H. unfold with_last_output. f_equal. now apply update_last_ext.
Qed.

Lemma with_last_output_id f c :
  (forall o, at_last (_outputs c) = Some o -> f o = o) ->
  with_last_output f c = c.
Proof.
  intros H. unfold with_last_output. rewrite update_last_id by exact H.
  apply set_outputs_same.
Qed.

(** A method that checks the track and then assigns inside it. *)
Lemma audio_method_effect (g : AudioSettings -> AudioSettings) c :
  match (o <- _getLastOutput c ;;
         match audio o with
         | None => Throw "Audio disabled"
         | Some a =>
             Ok (set_outputs
                   (update_last (set_audio (Some (g a))) (_outputs c)) c)
         end)
  with Ok c' => c' | Throw _ => c end
  = with_last_output (assign_audio g) c.
Proof.
  unfold _getLastOutput, bind.
  destruct (at_last (_outputs c)) as [o|] eqn:E; simpl.
  - destruct (audio o) as [a|] eqn:Ea; simpl.
    + apply with_last_output_ext. intros o' Ho'.
      rewrite E in Ho'. injection Ho' as <-.
      unfold assign_audio. now rewrite Ea.
    + symmetry. apply with_last_output_id. intros o' Ho'.
      rewrite E in Ho'. injection Ho' as <-.
      unfold assign_audio. now rewrite Ea.
  - symmetry. apply with_last_output_none. now apply at_last_None.
Qed.

Lemma video_method_effect (g : VideoSettings -> VideoSettings) c :
  match (o <- _getLastOutput c ;;
         match video o with
         | None => Throw "Video disabled"
         | Some v =>
             Ok (set_outputs
                   (update_last (set_video (Some (g v))) (_outputs c)) c)
         end)
  with Ok c' => c' | Throw _ => c end
  = with_last_output (assign_video g) c.
Proof.
  unfold _getLastOutput, bind.
  destruct (at_last (_outputs c)) as [o|] eqn:E; simpl.
  - destruct (video o) as [v|] eqn:Ev; simpl.
    + apply with_last_output_ext. intros o' Ho'.
      rewrite E in Ho'. injection Ho' as <-.
      unfold assign_video. now rewrite Ev.
    + symmetry. apply with_last_output_id. intros o' Ho'.
      rewrite E in Ho'. injection Ho' as <-.
      unfold assign_video. now rewrite Ev.
  - symmetry. apply with_last_output_none. now apply at_last_None.
Qed.

Section Effects.

Variable tok : string -> list string.

Lemma fst_after_method k m c w :
  exec tok k (c, w) = chain m (c, w) ->
  after tok k (c, w) = (match m c with Ok c' => c' | Throw _ => c end, w).
Proof.
  intros H. unfold after. rewrite H. unfold chain, bind. simpl.
  destruct (m c); reflexivity.
Qed.

(** Every call but [run] leaves the world alone and the builder as
    [effect] says. *)
Lemma after_effect k c w :
  run_call k = false -> after tok k (c, w) = (effect tok k c, w).
Proof.
  intros Hk. destruct k; try discriminate Hk;
    (erewrite fst_after_method by reflexivity); f_equal; simpl;
    try apply on_last_input_effect;
    try apply on_last_output_effect;
    try apply (audio_method_effect _ c);
    try apply (video_method_effect _ c);
    try reflexivity.
  - unfold loop. destruct length as [v|]; simpl.
    + destruct (truthy v); [reflexivity|apply on_last_input_effect].
    + apply on_last_input_effect.
  - unfold size, bind. destruct (parse_size sz) as [spec|msg]; simpl.
    + apply (video_method_effect (set_size (Some spec)) c).
    + reflexivity.
Qed.

(** X6: a method that goes through [_getLastInput] throws "No input
    added. Please add an input" on a builder without input ([loop] does so
    when its argument is falsy), and a method that goes through
    [_getLastOutput] throws "No output added. Please add an output" on a
    builder without output ([size] does so when its argument is valid). *)
Theorem scoped_call_needs_target :
  forall (k : call) (c : FFmpegCommand) (w : Bridge.World),
    (input_scoped k = true -> loop_argument_truthy k = false ->
     _inputs c = [] ->
     exec tok k (c, w) = Throw "No input added. Please add an input")
    /\ (output_scoped k = true -> valid_argument k = true ->
        _outputs c = [] ->
        exec tok k (c, w) = Throw "No output added. Please add an output").
Proof.
  intros k c w. split.
  - intros Hk Hl Hi.
    destruct k; try discriminate Hk; simpl;
      unfold chain, inputFormat, inputFPS, native, seekInput, loop,
        inputOptions, on_last_input, _getLastInput, bind; simpl;
      rewrite ?Hi; try reflexivity.
    simpl in Hl. destruct length as [v|]; simpl;
      rewrite ?Hl, ?Hi; reflexivity.
  - intros Hk Hv Ho.
    destruct k; try discriminate Hk; simpl;
      unfold chain, outputOptions, noAudio, noVideo, audioCodec,
        audioBitrate, audioChannels, audioFrequency, audioQuality,
        audioFilters, videoCodec, videoBitrate, fps, frames, size,
        videoFilters, duration, seek, format, on_last_output, setAudioProps,
        setVideoProps, _getLastOutput, bind; simpl;
      rewrite ?Ho; try reflexivity.
    simpl in Hv. destruct (parse_size sz); [|discriminate].
    rewrite ?Ho. reflexivity.
Qed.

End Effects.

Lemma scoped_call_needs_target_witness :
  exec (fun s => [s]) (CinputFPS (of_Z 25))
    (new_FFmpegCommand None, Bridge.empty_world Bridge.Posix (fun _ => "5f0c"%string))
  = Throw "No input added. Please add an input"
  /\ exec (fun s => [s]) (Csize "640x480")
       (new_FFmpegCommand None,
        Bridge.empty_world Bridge.Posix (fun _ => "5f0c"%string))
     = Throw "No output added. Please add an output".
Proof.
  destruct (scoped_call_needs_target (fun s => [s]) (CinputFPS (of_Z 25))
              (new_FFmpegCommand None)
              (Bridge.empty_world Bridge.Posix (fun _ => "5f0c"%string)))
    as [Hi _].
  destruct (scoped_call_needs_target (fun s => [s]) (Csize "640x480")
              (new_FFmpegCommand None)
              (Bridge.empty_world Bridge.Posix (fun _ => "5f0c"%string)))
    as [_ Ho].
  split; [apply Hi|apply Ho]; reflexivity.
Defined.

(** *** Only the last input and the last output change *)

Lemma removelast_update_last {A} (f : A -> A) : forall l : list A,
  removelast (update_last f l) = removelast l.
Proof.
  induction l as [|x [|y l] IH]; try reflexivity.
  change (removelast (x :: update_last f (y :: l)) = x :: removelast (y :: l)).
  rewrite <- IH. simpl. destruct l; reflexivity.
Qed.

Lemma length_update_last {A} (f : A -> A) : forall l : list A,
  List.length (update_last f l) = List.length l.
Proof.
  induction l as [|x [|y l] IH]; try reflexivity.
  change (S (List.length (update_last f (y :: l))) = S (List.length (y :: l))).
  now rewrite IH.
Qed.

Lemma update_last_compose {A} (f g : A -> A) : forall l : list A,
  update_last g (update_last f l) = update_last (fun x => g (f x)) l.
Proof.
  induction l as [|x [|y l] IH]; try reflexivity.
  change (update_last g (x :: update_last f (y :: l))
          = x :: update_last (fun x => g (f x)) (y :: l)).
  rewrite <- IH. simpl. destruct l; reflexivity.
Qed.

Lemma run_returns signal exe c w proc c' w' :
  run signal exe c w = Ok (proc, c', w') ->
  _proc c = None /\ _inputs c <> [] /\ _outputs c <> []
  /\ proc = execa (ffmpegPath exe) (fst (build_args c w)) signal
  /\ c' = set_proc (Some proc) c /\ w' = snd (build_args c w).
Proof.
  unfold run. destruct (_proc c); [discriminate|].
  destruct (_inputs c) eqn:Hi; [discriminate|].
  destruct (_outputs c) eqn:Ho; [discriminate|].
  destruct (build_args c w) as [args w2]. intros [= <- <- <-].
  repeat split; discriminate.
Qed.

(** X7: no call changes an input other than the last or an output other
    than the last: [input] and [output] append, every other call keeps the
    number of inputs and outputs and all of them but the last; a call on
    inputs leaves the outputs alone and a call on outputs leaves the
    inputs alone; the constructor options are never changed. *)
Theorem calls_touch_last_only :
  forall (tok : string -> list string) (k : call) (c : FFmpegCommand)
         (w : Bridge.World),
    let c' := fst (after tok k (c, w)) in
    (if input_call k then removelast (_inputs c') = _inputs c
     else List.length (_inputs c') = List.length (_inputs c)
          /\ removelast (_inputs c') = removelast (_inputs c))
    /\ (if output_call k then removelast (_outputs c') = _outputs c
        else List.length (_outputs c') = List.length (_outputs c)
             /\ removelast (_outputs c') = removelast (_outputs c))
    /\ (input_scoped k || input_call k = true -> _outputs c' = _outputs c)
    /\ (output_scoped k || output_call k = true -> _inputs c' = _inputs c)
    /\ _options c' = _options c.
Proof.
  intros tok k c w c'. subst c'.
  destruct (run_call k) eqn:Hr.
  - destruct k; try discriminate Hr. unfold after, exec, bind.
    cbn [fst snd].
    destruct (run signal exe c w) as [[[proc c1] w1]|msg] eqn:H; simpl.
    + destruct (run_returns _ _ _ _ _ _ _ H) as (_ & _ & _ & _ & -> & _).
      simpl. repeat split; discriminate.
    + repeat split; discriminate.
  - rewrite after_effect by exact Hr.
    destruct k; try discriminate Hr; cbn [fst effect input_call output_call];
      try (destruct (loop_argument_truthy _));
      try (destruct (parse_size _));
      unfold with_last_input, with_last_output;
      cbn [_inputs _outputs _options set_inputs set_outputs];
      rewrite ?removelast_update_last, ?length_update_last, ?removelast_last;
      repeat split; try reflexivity; try discriminate.
Qed.

(** *** [loop] *)



Lemma calls_touch_last_only_witness :
  let st :=
    after_all (fun s => [s])
      [Cinput (SrcPath "a.mp4"); Cinput (SrcPath "b.mp4");
       Coutput (DstPath "out.mp4")]
      (new_FFmpegCommand None,
       Bridge.empty_world Bridge.Posix (fun _ => "5f0c"%string)) in
  _outputs (fst (after (fun s => [s]) (CinputFPS (of_Z 25)) (fst st, snd st)))
  = _outputs (fst st)
  /\ removelast
       (_inputs (fst (after (fun s => [s]) (CinputFPS (of_Z 25)) (fst st, snd st))))
     = [new_input (SrcPath "a.mp4")].
Proof.
  intros st.
  destruct (calls_touch_last_only (fun s => [s]) (CinputFPS (of_Z 25))
              (fst st) (snd st)) as ([_ Hi] & _ & Ho & _).
  split; [apply Ho; reflexivity|exact Hi].
Defined.

(** *** Composition of calls *)

Lemma with_last_input_compose f g c :
  with_last_input g (with_last_input f c)
  = with_last_input (fun i => g (f i)) c.
Proof.
  unfold with_last_input. simpl. now rewrite update_last_compose.
Qed.

Lemma with_last_output_compose f g c :
  with_last_output g (with_last_output f c)
  = with_last_output (fun o => g (f o)) c.
Proof.
  unfold with_last_output. simpl. now rewrite update_last_compose.
Qed.

Lemma with_last_input_ext f g c :
  (forall i, f i = g i) -> with_last_input f c = with_last_input g c.
Proof.
  intros H. unfold with_last_input. f_equal. apply update_last_ext.
  intros x _. apply H.
Qed.

Lemma with_last_output_ext_all f g c :
  (forall o, f o = g o) -> with_last_output f c = with_last_output g c.
Proof. intros H. apply with_last_output_ext. intros o _. apply H. Qed.

Lemma flat_app {A} (a b : list (OneOrMany A)) : flat (a ++ b) = flat a ++ flat b.
Proof. unfold flat. apply flat_map_app. Qed.

(** X9: options and filters accumulate in call order: two calls of
    [inputOptions], [outputOptions], [audioFilters] or [videoFilters] in a
    row leave the builder as one call with both argument lists in that
    order does, also when the calls throw. *)
Theorem options_and_filters_accumulate :
  forall (tok : string -> list string) (st : state)
         (a b : list (OneOrMany string)) (f g : list (OneOrMany Filter)),
    after tok (CinputOptions b) (after tok (CinputOptions a) st)
    = after tok (CinputOptions (a ++ b)) st
    /\ after tok (CoutputOptions b) (after tok (CoutputOptions a) st)
       = after tok (CoutputOptions (a ++ b)) st
    /\ after tok (CaudioFilters g) (after tok (CaudioFilters f) st)
       = after tok (CaudioFilters (f ++ g)) st
    /\ after tok (CvideoFilters g) (after tok (CvideoFilters f) st)
       = after tok (CvideoFilters (f ++ g)) st.
Proof.
  intros tok [c w] a b f g.
  repeat split; rewrite !after_effect by reflexivity; f_equal; simpl.
  - rewrite with_last_input_compose. apply with_last_input_ext.
    intros i. unfold add_input_options. destruct i; simpl.
    now rewrite flat_app, flat_map_app, app_assoc.
  - rewrite with_last_output_compose. apply with_last_output_ext_all.
    intros o. unfold add_output_options. destruct o; simpl.
    now rewrite flat_app, flat_map_app, app_assoc.
  - rewrite with_last_output_compose. apply with_last_output_ext_all.
    intros o. unfold assign_audio, add_audio_filters.
    destruct o as [d [x|] v fo du stt eo]; simpl; [|reflexivity].
    destruct x; simpl. now rewrite flat_app, app_assoc.
  - rewrite with_last_output_compose. apply with_last_output_ext_all.
    intros o. unfold assign_video, add_video_filters.
    destruct o as [d x [v|] fo du stt eo]; simpl; [|reflexivity].
    destruct v; simpl. now rewrite flat_app, app_assoc.
Qed.

(** X10: the last call of a setter wins: calling the same single-valued
    setter twice in a row leaves the builder as the second call alone
    does. *)
Theorem last_setter_wins :
  forall (tok : string -> list string) (k1 k2 : call) (st : state),
    same_setter k1 k2 = true ->
    after tok k2 (after tok k1 st) = after tok k2 st.
Proof.
  intros tok k1 k2 [c w] H.
  destruct k1, k2; try discriminate H;
    rewrite !after_effect by reflexivity; f_equal; simpl;
    rewrite ?with_last_input_compose, ?with_last_output_compose;
    first
      [ apply with_last_input_ext; intros i; now destruct i
      | apply with_last_output_ext_all; intros o;
        unfold assign_audio, assign_video;
        destruct o as [d [a|] [v|] fo du stt eo]; simpl;
        try reflexivity;
        try (now destruct a); try (now destruct v) ].
Qed.

Lemma last_setter_wins_witness :
  after (fun s => [s]) (CaudioCodec "aac")
    (after (fun s => [s]) (CaudioCodec "mp3")
       (set_outputs [new_output (DstPath "out.mp4")] (new_FFmpegCommand None),
        Bridge.empty_world Bridge.Posix (fun _ => "5f0c"%string)))
  = after (fun s => [s]) (CaudioCodec "aac")
      (set_outputs [new_output (DstPath "out.mp4")] (new_FFmpegCommand None),
       Bridge.empty_world Bridge.Posix (fun _ => "5f0c"%string)).
Proof.
  apply (last_setter_wins (fun s => [s]) (CaudioCodec "mp3") (CaudioCodec "aac")).
  reflexivity.
Defined.

(** *** [run] *)

(** X11: [run] returns exactly when the builder has not run and has at
    least one input and one output; it then hands [execa] the executable
    path, the vector and the signal, and changes nothing in the builder but
    the process handle.  Otherwise it throws, "This instance is already
    run" before "No inputs specified" before "No outputs specified". *)
Theorem run_returns_or_throws :
  forall (signal : option nat) (exe : Executable) (c : FFmpegCommand)
         (w : Bridge.World),
    match run signal exe c w with
    | Ok (proc, c', w') =>
        _proc c = None /\ _inputs c <> [] /\ _outputs c <> []
        /\ proc = execa (ffmpegPath exe) (fst (build_args c w)) signal
        /\ c' = set_proc (Some proc) c
        /\ w' = snd (build_args c w)
    | Throw msg =>
        (_proc c <> None /\ msg = "This instance is already run"%string)
        \/ (_proc c = None /\ _inputs c = []
            /\ msg = "No inputs specified"%string)
        \/ (_proc c = None /\ _inputs c <> [] /\ _outputs c = []
            /\ msg = "No outputs specified"%string)
    end.
Proof.
  intros signal exe c w.
  destruct (run signal exe c w) as [[[proc c'] w']|msg] eqn:H.
  - now apply run_returns.
  - unfold run in H. destruct (_proc c) eqn:Hp.
    + left. split; [discriminate|]. now injection H.
    + destruct (_inputs c) eqn:Hi.
      * right; left. repeat split. now injection H.
      * destruct (_outputs c) eqn:Ho.
        -- right; right. repeat split; [discriminate|]. now injection H.
        -- destruct (build_args c w). discriminate.
Qed.

(** *** The bridges of [run] *)

Lemma perform_all_app w t1 t2 :
  Bridge.perform_all w (t1 ++ t2)
  = Bridge.perform_all (Bridge.perform_all w t1) t2.
Proof. unfold Bridge.perform_all. apply fold_left_app. Qed.

Lemma input_groups_world l : forall w,
  snd (Lowering.input_groups l w)
  = Bridge.perform_all w (flat_map input_bridge l).
Proof.
  induction l as [|i l IH]; intros w; simpl; [reflexivity|].
  rewrite perform_all_app, <- IH.
  unfold Lowering.input_address, input_bridge.
  destruct (src i) as [path|stream]; simpl.
  - now destruct (Lowering.input_groups l w).
  - destruct (Bridge.StreamInput stream w) as [b w1]. simpl.
    now destruct (Lowering.input_groups l w1).
Qed.

Lemma output_groups_world l : forall w,
  snd (Lowering.output_groups l w)
  = Bridge.perform_all w (flat_map output_bridge l).
Proof.
  induction l as [|o l IH]; intros w; simpl; [reflexivity|].
  rewrite perform_all_app, <- IH.
  unfold Lowering.output_address, output_bridge.
  destruct (dst o) as [path|stream pipeArgs]; simpl.
  - now destruct (Lowering.output_groups l w).
  - destruct (Bridge.StreamOutput stream pipeArgs w) as [b w1]. simpl.
    now destruct (Lowering.output_groups l w1).
Qed.

Lemma build_args_world c w :
  snd (build_args c w) = Bridge.perform_all w (bridge_actions c).
Proof.
  unfold build_args, bridge_actions.
  rewrite fold_run_input, fold_run_output. cbn [snd].
  now rewrite output_groups_world, input_groups_world, perform_all_app.
Qed.

Lemma bridge_actions_open c : forallb opens_bridge (bridge_actions c) = true.
Proof.
  unfold bridge_actions. rewrite forallb_app. apply andb_true_iff. split.
  - induction (_inputs c) as [|i l IH]; simpl; [reflexivity|].
    rewrite forallb_app, IH, andb_true_r. unfold input_bridge.
    now destruct (src i).
  - induction (_outputs c) as [|o l IH]; simpl; [reflexivity|].
    rewrite forallb_app, IH, andb_true_r. unfold output_bridge.
    now destruct (dst o).
Qed.

Lemma new_NamedPipeStream_uuid stream l w :
  Bridge.uuid_next (snd (Bridge.new_NamedPipeStream stream l w))
  = S (Bridge.uuid_next w).
Proof.
  unfold Bridge.new_NamedPipeStream, Bridge.randomUUID, Bridge.statSync,
    Bridge.unlinkSync, Bridge.createServer, Bridge.on_close, Bridge.listen,
    Bridge.path_exists.
  destruct (Bridge.platform w) eqn:Hp;
    cbn -[String.eqb String.append existsb filter];
    rewrite ?Hp; cbn -[String.eqb String.append existsb filter];
    try match goal with
        | |- context [existsb ?f (Bridge.files w)] =>
            destruct (existsb f (Bridge.files w))
        end; reflexivity.
Qed.

(** One bridge more: the servers there were are as they were, the new one
    listens, one id is used. *)
Lemma open_bridge_step a w :
  opens_bridge a = true ->
  let w1 := Bridge.perform w a in
  List.length (Bridge.servers w1) = S (List.length (Bridge.servers w))
  /\ (forall k, (k < List.length (Bridge.servers w))%nat ->
                Bridge.server_at k w1 = Bridge.server_at k w)
  /\ Bridge.uuid_next w1 = S (Bridge.uuid_next w).
Proof.
  intros Ha.
  assert (Hgen : forall stream l,
    let w1 := snd (Bridge.new_NamedPipeStream stream l w) in
    List.length (Bridge.servers w1) = S (List.length (Bridge.servers w))
    /\ (forall k, (k < List.length (Bridge.servers w))%nat ->
                  Bridge.server_at k w1 = Bridge.server_at k w)
    /\ Bridge.uuid_next w1 = S (Bridge.uuid_next w)).
  { intros stream l w1.
    destruct (BridgeFacts.new_NamedPipeStream_facts stream l w)
      as (_ & Hs & _).
    fold w1 in Hs. repeat split.
    - rewrite Hs, length_app. simpl. lia.
    - intros k Hk. unfold Bridge.server_at. rewrite Hs.
      now apply nth_error_app1.
    - apply new_NamedPipeStream_uuid. }
  destruct a; try discriminate Ha; simpl; apply Hgen.
Qed.

Lemma open_bridges t : forall w,
  forallb opens_bridge t = true ->
  let w' := Bridge.perform_all w t in
  List.length (Bridge.servers w')
  = (List.length (Bridge.servers w) + List.length t)%nat
  /\ (forall k, (k < List.length (Bridge.servers w))%nat ->
                Bridge.server_at k w' = Bridge.server_at k w)
  /\ Bridge.uuid_next w' = (Bridge.uuid_next w + List.length t)%nat.
Proof.
  induction t as [|a t IH]; intros w Ht; simpl in *.
  - repeat split; intros; try reflexivity; lia.
  - apply andb_true_iff in Ht. destruct Ht as [Ha Ht].
    destruct (open_bridge_step a w Ha) as (Hl1 & Hold1 & Hu1).
    destruct (IH (Bridge.perform w a) Ht) as (Hl & Hold & Hu).
    cbv zeta in *. repeat split.
    + rewrite Hl, Hl1. lia.
    + intros k Hk. rewrite Hold by lia. now apply Hold1.
    + rewrite Hu, Hu1. lia.
Qed.

(** X12: the two loops of [run] construct one bridge for each
    stream-backed input and then for each stream-backed output, in the
    order they were added, and none for a file path; each construction
    creates one server and takes the next id, and servers that existed
    before are as they were. *)
Theorem run_opens_one_bridge_per_stream :
  forall (c : FFmpegCommand) (w : Bridge.World),
    let w' := snd (build_args c w) in
    w' = Bridge.perform_all w (bridge_actions c)
    /\ List.length (Bridge.servers w')
       = (List.length (Bridge.servers w) + List.length (bridge_actions c))%nat
    /\ (forall k, (k < List.length (Bridge.servers w))%nat ->
                  Bridge.server_at k w' = Bridge.server_at k w)
    /\ Bridge.uuid_next w'
       = (Bridge.uuid_next w + List.length (bridge_actions c))%nat.
Proof.
  intros c w w'. subst w'. rewrite build_args_world.
  split; [reflexivity|].
  apply open_bridges. apply bridge_actions_open.
Qed.

Lemma run_opens_one_bridge_per_stream_witness :
  let w0 := Bridge.empty_world Bridge.Posix (fun _ => "5f0c"%string) in
  let c0 :=
    fst (after_all (fun s => [s])
           [Cinput (SrcStream 3%nat); Cinput (SrcPath "b.mp4");
            Coutput (DstStream 4%nat None)]
           (new_FFmpegCommand None, w0)) in
  List.length (Bridge.servers (snd (build_args c0 w0))) = 2%nat.
Proof.
  intros w0 c0.
  destruct (run_opens_one_bridge_per_stream c0 w0) as (_ & H & _).
  exact H.
Defined.

(** *** Diagnostic lines and settlement *)

Lemma processStderr_emitted line c :
  _emitted (processStderr line c) = _emitted c ++ [NStderr line].
Proof.
  unfold processStderr; simpl.
  destruct (stdoutLines (_options c)) as [M|]; [|reflexivity].
  destruct (num_truthy M && _); reflexivity.
Qed.

Lemma processStderr_frame line c :
  _inputs (processStderr line c) = _inputs c
  /\ _outputs (processStderr line c) = _outputs c
  /\ _proc (processStderr line c) = _proc c
  /\ _options (processStderr line c) = _options c.
Proof.
  unfold processStderr; simpl.
  destruct (stdoutLines (_options c)) as [M|]; [|repeat split].
  destruct (num_truthy M && _); repeat split.
Qed.

(** X13: every diagnostic line is published as a [stderr] notification,
    in order, whatever the configured maximum and whether or not the line
    stays in the buffer; delivering lines changes neither the inputs, the
    outputs, the options nor the process handle. *)
Theorem every_line_is_published :
  forall (lines : list string) (c : FFmpegCommand),
    _emitted (feed lines c) = _emitted c ++ map NStderr lines
    /\ _inputs (feed lines c) = _inputs c
    /\ _outputs (feed lines c) = _outputs c
    /\ _proc (feed lines c) = _proc c
    /\ _options (feed lines c) = _options c.
Proof.
  induction lines as [|line lines IH]; intros c.
  - simpl. rewrite app_nil_r. repeat split.
  - unfold feed in *. cbn [fold_left map].
    destruct (IH (processStderr line c)) as (He & Hi & Ho & Hp & Hopt).
    destruct (processStderr_frame line c) as (Hi' & Ho' & Hp' & Hopt').
    rewrite He, Hi, Ho, Hp, Hopt, processStderr_emitted, <- app_assoc.
    repeat split; assumption.
Qed.

Lemma feed_emitted lines c :
  _emitted (feed lines c) = _emitted c ++ map NStderr lines.
Proof.
  revert c. induction lines as [|line lines IH]; intros c.
  - simpl. now rewrite app_nil_r.
  - unfold feed in *. cbn [fold_left map].
    now rewrite IH, processStderr_emitted, <- app_assoc.
Qed.

(** X14: when the process settles, after all the [stderr] notifications
    comes one [end] (on success) or [error] (on failure) notification that
    carries an empty standard output and the retained lines joined by
    newlines: with a positive maximum [M], the last [M] lines. *)
Theorem settlement_publishes_buffer :
  forall (M : Z) (lines : list string) (success : bool),
    0 < M ->
    _emitted (notify (Settled success)
                (feed lines (with_stdoutLines (Some (of_Z M)))))
    = map NStderr lines
      ++ [(if success then NEnd else NError) EmptyString
            (join newline (last_n (Z.to_nat M) lines))].
Proof.
  intros M lines success HM.
  assert (Hbuf : _stderrLines (feed lines (with_stdoutLines (Some (of_Z M))))
                 = last_n (Z.to_nat M) lines).
  { now rewrite (StderrFacts.feed_positive_max M) by (reflexivity || lia). }
  destruct success; simpl; now rewrite Hbuf, feed_emitted.
Qed.

Lemma settlement_publishes_buffer_witness :
  _emitted (notify (Settled false)
              (feed ["a"; "b"; "c"]%string (with_stdoutLines (Some (of_Z 2)))))
  = [NStderr "a"; NStderr "b"; NStderr "c";
     NError EmptyString ("b" +++ newline +++ "c")].
Proof.
  apply (settlement_publishes_buffer 2 ["a"; "b"; "c"]%string false). lia.
Defined.

(** *** Filter lists *)

Lemma join_app sep (a b : list string) :
  a <> [] -> b <> [] ->
  join sep (a ++ b) = join sep a +++ sep +++ join sep b.
Proof.
  intros Ha Hb. induction a as [|x a IH]; [now elim Ha|].
  destruct a as [|y a].
  - simpl. destruct b; [now elim Hb|reflexivity].
  - change (x +++ sep +++ join sep ((y :: a) ++ b)
            = (x +++ sep +++ join sep (y :: a)) +++ sep +++ join sep b).
    rewrite IH by discriminate. now rewrite !append_assoc.
Qed.

(** X15: the serialization of two filter lists one after the other is
    the two serializations joined by a comma, and that of an empty list is
    the empty string, so filters given in several [audioFilters] or
    [videoFilters] calls end up in one comma-joined graph. *)
Theorem filtersToString_append :
  forall a b : list Filter,
    filtersToString (a ++ b)
    = match a, b with
      | [], _ => filtersToString b
      | _, [] => filtersToString a
      | _, _ => filtersToString a +++ "," +++ filtersToString b
      end.
Proof.
  intros a b. unfold filtersToString.
  destruct a as [|x a]; [reflexivity|].
  destruct b as [|y b]; [now rewrite app_nil_r|].
  rewrite map_app. apply join_app; discriminate.
Qed.

(** X16: an empty filter list is lowered differently for the two tracks.
    After [audioFilters()] with no filter on an output that had no audio
    filter, the audio block ends in [-af] with an empty graph; after
    [videoFilters()] with no filter the video block is what it was. *)
Theorem empty_filter_list_lowering :
  forall (tok : string -> list string) (c : FFmpegCommand) (w : Bridge.World)
         (o : OutputSettings) (a : AudioSettings) (v : VideoSettings)
         (args : list string),
    at_last (_outputs c) = Some o ->
    audio o = Some a -> video o = Some v -> a_filters a = None ->
    (exists a',
       last_audio (fst (after tok (CaudioFilters []) (c, w))) = Some (Some a')
       /\ run_audio (Some a') args
          = run_audio (Some a) args ++ ["-af"; EmptyString])
    /\ (exists v',
          last_video (fst (after tok (CvideoFilters []) (c, w)))
          = Some (Some v')
          /\ run_video (Some v') args = run_video (Some v) args).
Proof.
  intros tok c w o a v args Ho Ha Hv Hf. split.
  - rewrite after_effect by reflexivity. cbn [fst effect].
    unfold last_audio, with_last_output. cbn [_outputs set_outputs].
    rewrite at_last_update_last, Ho. cbn [option_map].
    unfold assign_audio. rewrite Ha. cbn [audio set_audio].
    eexists. split; [reflexivity|].
    unfold add_audio_filters. rewrite Hf.
    rewrite !run_audio_block. unfold Lowering.audio_block.
    destruct a; simpl in *. subst. simpl.
    now rewrite !app_nil_r, <- !app_assoc.
  - rewrite after_effect by reflexivity. cbn [fst effect].
    unfold last_video, with_last_output. cbn [_outputs set_outputs].
    rewrite at_last_update_last, Ho. cbn [option_map].
    unfold assign_video. rewrite Hv. cbn [video set_video].
    eexists. split; [reflexivity|].
    unfold add_video_filters. destruct v; simpl.
    now rewrite app_nil_r.
Qed.

Lemma empty_filter_list_lowering_witness :
  exists a',
    last_audio
      (fst (after (fun s => [s]) (CaudioFilters [])
              (set_outputs [new_output (DstPath "out.mp4")] (new_FFmpegCommand None),
               Bridge.empty_world Bridge.Posix (fun _ => "5f0c"%string))))
    = Some (Some a')
    /\ run_audio (Some a') ["-y"%string]
       = run_audio (Some empty_audio) ["-y"%string] ++ ["-af"; EmptyString].
Proof.
  destruct (empty_filter_list_lowering (fun s => [s])
              (set_outputs [new_output (DstPath "out.mp4")] (new_FFmpegCommand None))
              (Bridge.empty_world Bridge.Posix (fun _ => "5f0c"%string))
              (new_output (DstPath "out.mp4")) empty_audio empty_video
              ["-y"%string] eq_refl eq_refl eq_refl eq_refl) as [H _].
  exact H.
Defined.

(** *** Sizes written in digits *)

Lemma digit_cases c :
  is_digit c = true ->
  In c ["0"; "1"; "2"; "3"; "4"; "5"; "6"; "7"; "8"; "9"]%char.
Proof.
  destruct c as [[] [] [] [] [] [] [] []]; intros H;
    try discriminate H; simpl; tauto.
Qed.

Ltac digit_case c H :=
  let Hc := fresh in
  pose proof (digit_cases c H) as Hc; simpl in Hc;
  repeat (destruct Hc as [Hc|Hc]; [subst c|]); [..|destruct Hc].

Lemma str_forall_cons p c r :
  str_forall p (String c r) = true -> p c = true /\ str_forall p r = true.
Proof. simpl. intros H. now apply andb_true_iff in H. Qed.

Lemma take_while_all p : forall s,
  str_forall p s = true -> take_while p s = s.
Proof.
  induction s as [|c r IH]; [reflexivity|].
  intros H. apply str_forall_cons in H. destruct H as [Hc Hr].
  simpl. now rewrite Hc, IH.
Qed.

Lemma drop_while_all p : forall s,
  str_forall p s = true -> drop_while p s = EmptyString.
Proof.
  induction s as [|c r IH]; [reflexivity|].
  intros H. apply str_forall_cons in H. destruct H as [Hc Hr].
  simpl. now rewrite Hc, IH.
Qed.

Lemma append_nil_r : forall s : string, s +++ EmptyString = s.
Proof. induction s as [|c r IH]; simpl; [reflexivity|now rewrite IH]. Qed.

Lemma digit_string_cons s :
  digit_string s = true ->
  exists c r, s = String c r /\ is_digit c = true
              /\ str_forall is_digit r = true.
Proof.
  unfold digit_string. destruct s as [|c r]; [discriminate|].
  simpl. intros H. apply andb_true_iff in H. destruct H as [Hc Hr].
  now exists c, r.
Qed.

Lemma digit_string_all s :
  digit_string s = true -> str_forall is_digit s = true.
Proof.
  unfold digit_string. intros H. apply andb_true_iff in H. apply H.
Qed.

(** A string of digits has no white space, sign or radix prefix in
    front, so [parseInt] and [parseFloat] read all of it. *)
Lemma parseInt_digits s :
  digit_string s = true -> parseInt s = binary64 (decimal_value s) 0.
Proof.
  intros H. pose proof (digit_string_all s H) as Hall.
  destruct (digit_string_cons s H) as (c & r & -> & Hc & Hr).
  unfold parseInt, decimal_value.
  assert (Hpre :
    (let '(neg, t) := read_sign (drop_while is_space (String c r)) in
     let '(radix, t) :=
       match t with
       | String "0" (String "x" r0) | String "0" (String "X" r0) => (16, r0)
       | _ => (10, t)
       end in (neg, radix, t))
    = (false, 10, String c r)).
  { digit_case c Hc; try reflexivity.
    destruct r as [|c2 r2]; [reflexivity|].
    apply str_forall_cons in Hr. destruct Hr as [Hc2 _].
    digit_case c2 Hc2; reflexivity. }
  destruct (read_sign (drop_while is_space (String c r))) as [neg t].
  destruct (match t with
            | String "0" (String "x" r0) | String "0" (String "X" r0) =>
                (16, r0)
            | _ => (10, t)
            end) as [radix t'].
  injection Hpre as -> -> ->.
  change (10 =? 16) with false. cbv iota.
  rewrite take_while_all by exact Hall. reflexivity.
Qed.

Lemma parseFloat_digits s :
  digit_string s = true -> parseFloat s = binary64 (decimal_value s) 0.
Proof.
  intros H. pose proof (digit_string_all s H) as Hall.
  destruct (digit_string_cons s H) as (c & r & -> & Hc & Hr).
  unfold parseFloat, decimal_value.
  assert (Hpre : read_sign (drop_while is_space (String c r))
                 = (false, String c r)
                 /\ starts_with "Infinity" (String c r) = false).
  { digit_case c Hc; split; reflexivity. }
  destruct Hpre as [-> ->].
  rewrite take_while_all, drop_while_all by exact Hall.
  rewrite append_nil_r. reflexivity.
Qed.

Lemma positive_dimension v :
  0 < v ->
  bad_dimension (Some (of_Z v)) = false
  /\ dimension_truthy (Some (of_Z v)) = true
  /\ isFinite (of_Z v) = true /\ num_leb (of_Z v) (of_Z 0) = false.
Proof.
  intros Hv. unfold bad_dimension, dimension_truthy, of_Z. simpl.
  unfold scale. simpl.
  assert (H1 : (0 <? v * 1) = true) by (apply Z.ltb_lt; lia).
  assert (H2 : (v =? 0) = false) by (apply Z.eqb_neq; lia).
  rewrite H1, H2. repeat split.
Qed.

Lemma split_append sep : forall a b : string,
  str_forall (fun c => negb (Ascii.eqb c sep)) a = true ->
  split sep (a +++ String sep b) = a :: split sep b.
Proof.
  induction a as [|c a IH]; intros b H; simpl.
  - now rewrite Ascii.eqb_refl.
  - apply str_forall_cons in H. destruct H as [Hc Ha].
    apply negb_true_iff in Hc. rewrite Hc, IH by exact Ha. reflexivity.
Qed.

Lemma split_none sep : forall a : string,
  str_forall (fun c => negb (Ascii.eqb c sep)) a = true ->
  split sep a = [a].
Proof.
  induction a as [|c a IH]; intros H; simpl; [reflexivity|].
  apply str_forall_cons in H. destruct H as [Hc Ha].
  apply negb_true_iff in Hc. rewrite Hc, IH by exact Ha. reflexivity.
Qed.

Lemma str_forall_impl (p q : ascii -> bool) : forall s,
  (forall c, p c = true -> q c = true) ->
  str_forall p s = true -> str_forall q s = true.
Proof.
  induction s as [|c r IH]; intros Hpq H; [reflexivity|].
  apply str_forall_cons in H. destruct H as [Hc Hr].
  simpl. rewrite (Hpq c Hc). now apply IH.
Qed.

Lemma digits_no_x s :
  str_forall is_digit s = true ->
  str_forall (fun c => negb (Ascii.eqb c "x")) s = true.
Proof.
  apply str_forall_impl. intros c Hc. digit_case c Hc; reflexivity.
Qed.

Lemma endsWith_append c : forall a b : string,
  b <> EmptyString -> endsWith (a +++ b) c = endsWith b c.
Proof.
  induction a as [|x a IH]; intros b Hb; [reflexivity|].
  simpl. rewrite <- (IH b Hb).
  destruct (a +++ b) eqn:E; [|reflexivity].
  destruct a; simpl in E; [now elim Hb|discriminate].
Qed.

Lemma endsWith_digits : forall s,
  str_forall is_digit s = true -> endsWith s "%" = false.
Proof.
  induction s as [|c r IH]; intros H; [reflexivity|].
  apply str_forall_cons in H. destruct H as [Hc Hr].
  simpl. destruct r as [|c2 r2].
  - digit_case c Hc; reflexivity.
  - now apply IH.
Qed.

Lemma str_take_append : forall a b : string,
  str_take (String.length a) (a +++ b) = a.
Proof.
  induction a as [|x a IH]; intros b; simpl.
  - now destruct b.
  - now rewrite IH.
Qed.

Lemma substring_but_last_append a c :
  substring_but_last (a +++ String c EmptyString) = a.
Proof.
  unfold substring_but_last. rewrite BridgeCoverage.append_length. simpl.
  replace (Nat.pred (String.length a + 1)) with (String.length a) by lia.
  apply str_take_append.
Qed.

Lemma digit_string_not_question s :
  digit_string s = true ->
  String.eqb s question_mark = false /\ str_truthy s = true.
Proof.
  intros H. destruct (digit_string_cons s H) as (c & r & -> & Hc & _).
  digit_case c Hc; split; reflexivity.
Qed.

Lemma parse_size_digits (W H : string) :
  digit_string W = true -> digit_string H = true ->
  0 < decimal_value W < 2 ^ 53 -> 0 < decimal_value H < 2 ^ 53 ->
  parse_size (W +++ "x" +++ H)
  = Ok (SizeWH (Some (of_Z (decimal_value W))) (Some (of_Z (decimal_value H))))
  /\ parse_size (W +++ "x?")
     = Ok (SizeWH (Some (of_Z (decimal_value W))) None)
  /\ parse_size ("?x" +++ H)
     = Ok (SizeWH None (Some (of_Z (decimal_value H))))
  /\ parse_size (W +++ "%") = Ok (SizePercent (of_Z (decimal_value W))).
Proof.
  intros HW HH HvW HvH.
  pose proof (digit_string_all W HW) as HallW.
  pose proof (digit_string_all H HH) as HallH.
  destruct (digit_string_not_question W HW) as [HqW HtW].
  destruct (digit_string_not_question H HH) as [HqH HtH].
  destruct (positive_dimension _ (proj1 HvW)) as (HbW & HdW & HfW & HlW).
  destruct (positive_dimension _ (proj1 HvH)) as (HbH & HdH & HfH & HlH).
  assert (HpW : parseInt W = of_Z (decimal_value W)).
  { rewrite parseInt_digits by exact HW.
    now apply NumberFacts.binary64_integer. }
  assert (HpH : parseInt H = of_Z (decimal_value H)).
  { rewrite parseInt_digits by exact HH.
    now apply NumberFacts.binary64_integer. }
  assert (HneH : H <> EmptyString).
  { intros ->. discriminate HH. }
  unfold parse_size. repeat split.
  - change (W +++ "x" +++ H) with (W +++ String "x" H).
    rewrite endsWith_append by discriminate.
    assert (He : endsWith (String "x" H) "%" = false).
    { simpl. destruct H; [now elim HneH|]. now apply endsWith_digits. }
    rewrite He, split_append by now apply digits_no_x.
    rewrite split_none by now apply digits_no_x.
    cbn [nth_error]. rewrite HtW, HtH, HqW, HqH. cbn [negb orb].
    rewrite HpW, HpH, HbW, HbH, HdW. reflexivity.
  - change (W +++ "x?") with (W +++ String "x" "?").
    rewrite endsWith_append by discriminate.
    change (endsWith (String "x" "?") "%") with false. cbv iota.
    rewrite split_append by now apply digits_no_x.
    change (split "x" "?") with ["?"%string].
    cbn [nth_error]. rewrite HtW, HqW.
    change (str_truthy "?") with true.
    change (String.eqb "?" question_mark) with true.
    cbn [negb orb]. cbv iota.
    rewrite HpW, HbW, HdW. reflexivity.
  - change ("?x" +++ H) with (String "?" (String "x" H)).
    assert (He : endsWith (String "?" (String "x" H)) "%" = false).
    { simpl. destruct H; [now elim HneH|]. now apply endsWith_digits. }
    rewrite He.
    change (String "?" (String "x" H)) with ("?" +++ String "x" H).
    rewrite split_append by reflexivity.
    rewrite split_none by now apply digits_no_x.
    cbn [nth_error]. rewrite HtH, HqH.
    change (str_truthy "?") with true.
    change (String.eqb "?" question_mark) with true.
    cbn [negb orb]. cbv iota.
    rewrite HpH, HbH. cbn [bad_dimension dimension_truthy]. cbv iota.
    cbn [dimension_truthy] in HdH. rewrite HdH. reflexivity.
  - change (W +++ "%") with (W +++ String "%" EmptyString).
    rewrite endsWith_append by discriminate.
    change (endsWith (String "%" EmptyString) "%") with true. cbv iota.
    rewrite substring_but_last_append, parseFloat_digits by exact HW.
    rewrite NumberFacts.binary64_integer by exact HvW.
    change (Fin (decimal_value W) 0) with (of_Z (decimal_value W)).
    rewrite HfW, HlW. reflexivity.
Qed.

(** X17: [size] accepts every size written in digits.  For strings of
    decimal digits [W] and [H] with values above 0 and below 2^53, on a
    builder whose last output has its video enabled, [size] returns for
    ["WxH"], ["Wx?"], ["?xH"] and ["W%"], and the video settings of that
    output then hold exactly those values: width and height, width
    alone, height alone, percentage. *)
Theorem size_accepts_digits :
  forall (W H : string) (c : FFmpegCommand) (o : OutputSettings)
         (v : VideoSettings),
    digit_string W = true -> digit_string H = true ->
    0 < decimal_value W < 2 ^ 53 -> 0 < decimal_value H < 2 ^ 53 ->
    at_last (_outputs c) = Some o -> video o = Some v ->
    (exists c',
       size (W +++ "x" +++ H) c = Ok c'
       /\ stored_size c'
          = Some (SizeWH (Some (of_Z (decimal_value W)))
                         (Some (of_Z (decimal_value H)))))
    /\ (exists c',
          size (W +++ "x?") c = Ok c'
          /\ stored_size c'
             = Some (SizeWH (Some (of_Z (decimal_value W))) None))
    /\ (exists c',
          size ("?x" +++ H) c = Ok c'
          /\ stored_size c'
             = Some (SizeWH None (Some (of_Z (decimal_value H)))))
    /\ (exists c',
          size (W +++ "%") c = Ok c'
          /\ stored_size c' = Some (SizePercent (of_Z (decimal_value W)))).
Proof.
  intros W H c o v HW HH HvW HvH Ho Hv.
  destruct (parse_size_digits W H HW HH HvW HvH) as (H1 & H2 & H3 & H4).
  repeat split; eapply size_stores; eassumption.
Qed.

Lemma size_accepts_digits_witness :
  exists c',
    size "1920x1080"
      (set_outputs [new_output (DstPath "out.mp4")] (new_FFmpegCommand None))
    = Ok c'
    /\ stored_size c' = Some (SizeWH (Some (of_Z 1920)) (Some (of_Z 1080))).
Proof.
  destruct (size_accepts_digits "1920" "1080"
              (set_outputs [new_output (DstPath "out.mp4")]
                 (new_FFmpegCommand None))
              (new_output (DstPath "out.mp4")) empty_video
              eq_refl eq_refl) as [H _].
  - vm_compute. split; reflexivity.
  - vm_compute. split; reflexivity.
  - reflexivity.
  - reflexivity.
  - exact H.
Defined.

(** *** The order of calls *)

Ltac commute_last :=
  rewrite ?with_last_input_compose, ?with_last_output_compose;
  first
    [ reflexivity
    | apply with_last_input_ext; intros i;
      unfold add_input_options; now destruct i
    | apply with_last_output_ext_all; intros o;
      unfold assign_audio, assign_video, add_output_options,
        add_audio_filters, add_video_filters;
      destruct o as [? [aud|] [vid|] ? ? ? ?]; simpl;
      try reflexivity;
      try (now destruct aud); try (now destruct vid) ].

(** X18: calls that assign different settings can be made in either
    order: the builder, and so the vector [run] builds from it, is the
    same, also when one of the calls throws. *)
Theorem settings_commute :
  forall (tok : string -> list string) (k1 k2 : call) (st : state),
    different_settings k1 k2 = true ->
    after tok k2 (after tok k1 st) = after tok k1 (after tok k2 st).
Proof.
  intros tok k1 k2 [c w] H.
  destruct k1, k2; try discriminate H;
    rewrite !after_effect by reflexivity; f_equal; cbn [effect];
    repeat match goal with
           | |- context [loop_argument_truthy ?k] =>
               destruct (loop_argument_truthy k)
           | |- context [parse_size ?s] => destruct (parse_size s)
           end;
    commute_last.
Qed.

Lemma settings_commute_witness :
  after (fun s => [s]) (CvideoBitrate (VStr "1M"))
    (after (fun s => [s]) CnoAudio
       (set_outputs [new_output (DstPath "out.mp4")] (new_FFmpegCommand None),
        Bridge.empty_world Bridge.Posix (fun _ => "5f0c"%string)))
  = after (fun s => [s]) CnoAudio
      (after (fun s => [s]) (CvideoBitrate (VStr "1M"))
         (set_outputs [new_output (DstPath "out.mp4")]
            (new_FFmpegCommand None),
          Bridge.empty_world Bridge.Posix (fun _ => "5f0c"%string))).
Proof.
  apply (settings_commute (fun s => [s]) CnoAudio (CvideoBitrate (VStr "1M"))).
  reflexivity.
Defined.

(** *** A builder with paths only *)

Lemma after_all_app tok a b st :
  after_all tok (a ++ b) st = after_all tok b (after_all tok a st).
Proof. unfold after_all. apply fold_left_app. Qed.

Lemma after_inputs tok : forall ins c w,
  after_all tok (map (fun p => Cinput (SrcPath p)) ins) (c, w)
  = (set_inputs (_inputs c ++ map (fun p => new_input (SrcPath p)) ins) c, w).
Proof.
  induction ins as [|p ins IH]; intros c w.
  - simpl. rewrite app_nil_r. now destruct c.
  - change (after_all tok (map (fun p => Cinput (SrcPath p)) (p :: ins)) (c, w))
      with (after_all tok (map (fun p => Cinput (SrcPath p)) ins)
              (after tok (Cinput (SrcPath p)) (c, w))).
    rewrite after_effect by reflexivity. rewrite IH. cbn [effect].
    destruct c; simpl. now rewrite <- app_assoc.
Qed.

Lemma after_outputs tok : forall outs c w,
  after_all tok (map (fun p => Coutput (DstPath p)) outs) (c, w)
  = (set_outputs (_outputs c ++ map (fun p => new_output (DstPath p)) outs) c,
     w).
Proof.
  induction outs as [|p outs IH]; intros c w.
  - simpl. rewrite app_nil_r. now destruct c.
  - change (after_all tok (map (fun p => Coutput (DstPath p)) (p :: outs))
              (c, w))
      with (after_all tok (map (fun p => Coutput (DstPath p)) outs)
              (after tok (Coutput (DstPath p)) (c, w))).
    rewrite after_effect by reflexivity. rewrite IH. cbn [effect].
    destruct c; simpl. now rewrite <- app_assoc.
Qed.

Lemma fold_run_input_paths : forall ins args w,
  fold_left run_input (map (fun p => new_input (SrcPath p)) ins) (args, w)
  = (args ++ flat_map (fun p => ["-i"%string; p]) ins, w).
Proof.
  induction ins as [|p ins IH]; intros args w.
  - simpl. now rewrite app_nil_r.
  - cbn [map fold_left flat_map].
    change (run_input (args, w) (new_input (SrcPath p)))
      with (args ++ ["-i"%string; p], w).
    rewrite IH. now rewrite <- app_assoc.
Qed.

Lemma fold_run_output_paths : forall outs args w,
  fold_left run_output (map (fun p => new_output (DstPath p)) outs) (args, w)
  = (args ++ outs, w).
Proof.
  induction outs as [|p outs IH]; intros args w.
  - simpl. now rewrite app_nil_r.
  - cbn [map fold_left].
    change (run_output (args, w) (new_output (DstPath p)))
      with (args ++ [p], w).
    rewrite IH. now rewrite <- app_assoc.
Qed.

(** X19: a builder given nothing but paths: after [input(p)] for each
    path of a list and [output(q)] for each path of another, [run] returns
    and hands [execa] the vector made of [-i p] for each input in call
    order followed by the output paths in call order; the default settings
    add no argument and no bridge is opened. *)
Theorem paths_only_vector :
  forall (tok : string -> list string) (options : option OptionsArg)
         (ins outs : list string) (signal : option nat) (exe : Executable)
         (w : Bridge.World),
    ins <> [] -> outs <> [] ->
    let st := after_all tok (path_calls ins outs)
                (new_FFmpegCommand options, w) in
    exists c',
      run signal exe (fst st) (snd st)
      = Ok (execa (ffmpegPath exe)
              (flat_map (fun p => ["-i"%string; p]) ins ++ outs) signal,
            c', w).
Proof.
  intros tok options ins outs signal exe w Hi Ho st. subst st.
  unfold path_calls. rewrite after_all_app, after_inputs, after_outputs.
  cbn [fst snd]. unfold run, build_args. cbn [_proc _inputs _outputs
    set_inputs set_outputs new_FFmpegCommand app].
  rewrite fold_run_input_paths, fold_run_output_paths.
  destruct ins as [|p ins]; [now elim Hi|].
  destruct outs as [|q outs]; [now elim Ho|].
  cbn [map]. eexists. reflexivity.
Qed.

Lemma paths_only_vector_witness :
  exists c',
    run None (default_executable None None)
      (fst (after_all (fun s => [s]) (path_calls ["a.mp4"] ["b.mkv"])
              (new_FFmpegCommand None,
               Bridge.empty_world Bridge.Posix (fun _ => "5f0c"))))
      (snd (after_all (fun s => [s]) (path_calls ["a.mp4"] ["b.mkv"])
              (new_FFmpegCommand None,
               Bridge.empty_world Bridge.Posix (fun _ => "5f0c"))))
    = Ok (execa (ffmpegPath (default_executable None None)) ["-i"; "a.mp4"; "b.mkv"] None,
          c', Bridge.empty_world Bridge.Posix (fun _ => "5f0c")).
Proof.
  apply (paths_only_vector (fun s => [s]) None ["a.mp4"] ["b.mkv"] None
           (default_executable None None)
           (Bridge.empty_world Bridge.Posix (fun _ => "5f0c")));
    discriminate.
Defined.

End BuilderCoverage.
